(** * Tiny KV Store Pro: a shallow embedding of the storage engine

    The development follows [tiny-kv-store-pro.js]: the [Crypto] and
    [Compression] modules, then the [TinyKVStorePro] class (put, get,
    delete, exists, clear, batch, putEncrypted, getDecrypted, prefixSearch,
    rangeQuery, keysBySize, export, import, getAllEntries, updateCache,
    processValue, persist, loadFromStorage, recordStats).

    - JavaScript strings are sequences of UTF-16 code units and are
      modelled as lists of [N]; keys are strings.
    - A JavaScript [Map] or [Set] keeps its keys in insertion order and is
      modelled as a list.
    - A call returns a result and the next state; an exception is the
      result [Throw], with the state as the call has left it.
    - [Date.now()] is an explicit argument [now] (milliseconds) of every
      operation: a call runs at one instant.
    - The callbacks registered with [setTimeout] are kept in a queue that
      the environment runs with [run_timers]; a delay that does not fit
      the timer (above 2^31 - 1 milliseconds) is due at once.
    - The persistence medium is part of the state: it takes a write or
      refuses it, and [persist] keeps the old blob when it refuses.
    - [btoa], [atob] and the regular expressions of the codec are modelled
      on code units; [toUpperCase], [JSON.parse] and [JSON.stringify] of
      an array of entries are parameters.

    Not modelled: the queries that build a regular expression from their
    argument (keys, scan, regexSearch) and the query history, the analysis
    and the latency samples of the statistics (floating point), the user
    interface and the platform's limit on the length of a string.
    Numbers are integers, and stand for the platform's numbers as far as
    they are safe integers (at most 2^53 - 1 in absolute value): what
    depends on the text of a number is stated for these. *)

From Stdlib Require Import String Ascii Decimal DecimalNat.
From Stdlib Require Import NArith ZArith Bool Lia List.
From Stdlib Require Import Sorted Permutation.
From Stdlib Require DecimalFacts.
Import ListNotations.

Set Implicit Arguments.

(** ** Text: sequences of UTF-16 code units *)

Definition text := list N.

Definition str (s : string) : text :=
  map N_of_ascii (list_ascii_of_string s).

Definition text_eq_dec : forall a b : text, {a = b} + {a <> b} :=
  list_eq_dec N.eq_dec.

Definition text_eqb (a b : text) : bool :=
  if text_eq_dec a b then true else false.

(** [\d] of a regular expression. *)
Definition is_digit (c : N) : bool := ((48 <=? c) && (c <=? 57))%N.

(** The code units that [.] of a regular expression does not match. *)
Definition is_line_terminator (c : N) : bool :=
  ((c =? 10) || (c =? 13) || (c =? 8232) || (c =? 8233))%N.

(** [String.fromCharCode]: the argument is taken modulo 2^16. *)
Definition fromCharCode (n : N) : N := (n mod 65536)%N.

(** Decimal digits of a length, as [`${match.length}`] prints them. *)
Fixpoint text_of_uint (d : uint) : text :=
  match d with
  | Nil => []
  | D0 r => 48%N :: text_of_uint r
  | D1 r => 49%N :: text_of_uint r
  | D2 r => 50%N :: text_of_uint r
  | D3 r => 51%N :: text_of_uint r
  | D4 r => 52%N :: text_of_uint r
  | D5 r => 53%N :: text_of_uint r
  | D6 r => 54%N :: text_of_uint r
  | D7 r => 55%N :: text_of_uint r
  | D8 r => 56%N :: text_of_uint r
  | D9 r => 57%N :: text_of_uint r
  end.

(** The digits of a digit string; a code unit that is not a digit ends it,
    as [parseInt] stops at the first character it cannot use. *)
Fixpoint uint_of_text (t : text) : uint :=
  match t with
  | [] => Nil
  | c :: r =>
      if (c =? 48)%N then D0 (uint_of_text r)
      else if (c =? 49)%N then D1 (uint_of_text r)
      else if (c =? 50)%N then D2 (uint_of_text r)
      else if (c =? 51)%N then D3 (uint_of_text r)
      else if (c =? 52)%N then D4 (uint_of_text r)
      else if (c =? 53)%N then D5 (uint_of_text r)
      else if (c =? 54)%N then D6 (uint_of_text r)
      else if (c =? 55)%N then D7 (uint_of_text r)
      else if (c =? 56)%N then D8 (uint_of_text r)
      else if (c =? 57)%N then D9 (uint_of_text r)
      else Nil
  end.

Definition decimal (n : nat) : text := text_of_uint (Nat.to_uint n).

(** [parseInt] on a string of decimal digits. *)
Definition parseInt (t : text) : nat := Nat.of_uint (uint_of_text t).

(** ** The platform's [btoa] and [atob] *)

Module Base64.

Definition b64_char (i : N) : N :=
  (if i <? 26 then 65 + i
   else if i <? 52 then 97 + (i - 26)
   else if i <? 62 then 48 + (i - 52)
   else if i =? 62 then 43 else 47)%N.

Definition b64_index (c : N) : option N :=
  (if (65 <=? c) && (c <=? 90) then Some (c - 65)
   else if (97 <=? c) && (c <=? 122) then Some (c - 97 + 26)
   else if (48 <=? c) && (c <=? 57) then Some (c - 48 + 52)
   else if c =? 43 then Some 62
   else if c =? 47 then Some 63
   else None)%N.

(** Three bytes give four sextets; a last group of one or two bytes is
    padded with [=] (code unit 61). *)
Fixpoint encode (bs : text) : text :=
  (match bs with
   | a :: b :: c :: rest =>
       b64_char (a / 4) :: b64_char ((a mod 4) * 16 + b / 16)
       :: b64_char ((b mod 16) * 4 + c / 64) :: b64_char (c mod 64)
       :: encode rest
   | [a; b] =>
       [b64_char (a / 4); b64_char ((a mod 4) * 16 + b / 16);
        b64_char ((b mod 16) * 4); 61]
   | [a] => [b64_char (a / 4); b64_char ((a mod 4) * 16); 61; 61]
   | [] => []
   end)%N.

(** [btoa] fails (InvalidCharacterError) on a code unit above 255. *)
Definition btoa (t : text) : option text :=
  if forallb (fun c => (c <=? 255)%N) t then Some (encode t) else None.

Definition is_ascii_whitespace (c : N) : bool :=
  ((c =? 9) || (c =? 10) || (c =? 12) || (c =? 13) || (c =? 32))%N.

(** Removes a [=] at the head of a text (here: of the reversed text). *)
Definition drop_pad (r : text) : text :=
  match r with
  | c :: r' => if (c =? 61)%N then r' else r
  | [] => []
  end.

(** When the length is a multiple of four, one or two trailing [=] are
    removed. *)
Definition strip_padding (t : text) : text :=
  if (length t mod 4 =? 0)%nat then rev (drop_pad (drop_pad (rev t)))
  else t.

Fixpoint indices (t : text) : option (list N) :=
  match t with
  | [] => Some []
  | c :: r =>
      match b64_index c, indices r with
      | Some i, Some l => Some (i :: l)
      | _, _ => None
      end
  end.

(** Four sextets give three bytes; of a last group of two or three
    sextets the spare low bits are dropped; a single sextet is an error. *)
Fixpoint decode (l : list N) : option text :=
  (match l with
   | i1 :: i2 :: i3 :: i4 :: rest =>
       match decode rest with
       | Some r =>
           Some ((i1 * 4 + i2 / 16) :: ((i2 mod 16) * 16 + i3 / 4)
                 :: ((i3 mod 4) * 64 + i4) :: r)
       | None => None
       end
   | [i1; i2; i3] => Some [i1 * 4 + i2 / 16; (i2 mod 16) * 16 + i3 / 4]
   | [i1; i2] => Some [i1 * 4 + i2 / 16]
   | [_] => None
   | [] => Some []
   end)%N.

(** [atob]: the forgiving base64 decoding; [None] is the exception. *)
Definition atob (t : text) : option text :=
  let t1 := filter (fun c => negb (is_ascii_whitespace c)) t in
  match indices (strip_padding t1) with
  | Some l => decode l
  | None => None
  end.

End Base64.

(** ** JavaScript values, exceptions and outcomes of a call *)

(** The values the engine is used with: the primitives.  Arrays and
    objects as stored values are outside the model.  A number is an
    integer: [VNum n] stands for the number [n] when [n] is a safe
    integer, one that the platform's doubles hold exactly. *)
Inductive Value : Type :=
| VUndefined
| VNull
| VBool (b : bool)
| VNum (n : Z)
| VStr (s : text).

(** [Number.isSafeInteger]: at most 2^53 - 1 in absolute value. *)
Definition safe_integer (n : Z) : Prop :=
  (- 9007199254740991 <= n <= 9007199254740991)%Z.

Definition safe_integerb (n : Z) : bool :=
  ((- 9007199254740991 <=? n) && (n <=? 9007199254740991))%Z.

(** A value that is not a number outside the safe integers. *)
Definition safe_value (v : Value) : Prop :=
  match v with
  | VNum n => safe_integer n
  | _ => True
  end.

Inductive Exn : Type :=
| Error_ (message : string)   (* [new Error(message)] *)
| TypeError                   (* a property of null/undefined, a call of a non-function *)
| InvalidCharacterError       (* [btoa] on a code unit above 255 *)
| SyntaxError.                (* [JSON.parse] *)

Inductive Outcome (A : Type) : Type :=
| Ret (a : A)
| Throw (e : Exn).

Arguments Ret {A} a.
Arguments Throw {A} e.

(** Truthiness, as [if (x)], [x && y] and [x || y] test it. *)
Definition truthy (v : Value) : bool :=
  match v with
  | VUndefined | VNull => false
  | VBool b => b
  | VNum n => negb (n =? 0)%Z
  | VStr s => match s with [] => false | _ => true end
  end.

Definition text_of_int (i : Decimal.int) : text :=
  match i with
  | Pos d => text_of_uint d
  | Neg d => 45%N :: text_of_uint d
  end.

(** The string a primitive is converted to where a string is expected.
    A number is printed with all its digits, which is its text on the
    platform when it is a safe integer; a larger number is printed
    rounded there, and in exponent form from 10^21 on, so what depends on
    the text of a number is stated for safe integers. *)
Definition toString (v : Value) : text :=
  match v with
  | VUndefined => str "undefined"
  | VNull => str "null"
  | VBool true => str "true"
  | VBool false => str "false"
  | VNum n => text_of_int (Z.to_int n)
  | VStr s => s
  end.

(** ** ENCRYPTION MODULE *)

Module Crypto.

Definition defaultKey : text := str "defaultKey".

(** The loop shared by [encrypt] and [decrypt]: code unit [i] of the text
    is XORed with code unit [i % key.length] of the key. *)
Fixpoint xor_from (i : nat) (key t : text) : text :=
  match t with
  | [] => []
  | c :: r =>
      fromCharCode (N.lxor c (nth (i mod length key) key 0%N))
      :: xor_from (S i) key r
  end.

Definition xor_key (t : text) : text := xor_from 0 defaultKey t.

(** [encrypt(text)].  [text.length] of null or undefined throws; of a
    number or a boolean it is undefined, the loop does not run and the
    result is [btoa('')]. *)
Definition encrypt (v : Value) : Outcome text :=
  match v with
  | VUndefined | VNull => Throw TypeError
  | VBool _ | VNum _ => Ret []
  | VStr t =>
      match Base64.btoa (xor_key t) with
      | Some r => Ret r
      | None => Throw InvalidCharacterError
      end
  end.

(** [decrypt(encrypted)]: an exception of [atob] is caught and gives
    null. *)
Definition decrypt (v : Value) : Value :=
  match Base64.atob (toString v) with
  | Some t => VStr (xor_key t)
  | None => VNull
  end.

End Crypto.

(** ** COMPRESSION MODULE *)

Module Compression.

(** How many copies of [c] the text starts with. *)
Fixpoint run_length (c : N) (t : text) : nat :=
  match t with
  | d :: r => if (d =? c)%N then S (run_length c r) else 0
  | [] => 0
  end.

(** [text.replace(/(.)\1+/g, ...)]: at each position, a code unit other
    than a line terminator that is followed by copies of itself starts a
    match, which takes all the copies; a match longer than 3 is replaced
    by the code unit and the length of the match; the scan goes on after
    the match.  The fuel is the number of code units left. *)
Fixpoint compress_from (fuel : nat) (t : text) : text :=
  match fuel with
  | O => t
  | S fuel' =>
      match t with
      | [] => []
      | c :: r =>
          if is_line_terminator c then c :: compress_from fuel' r
          else
            match run_length c r with
            | O => c :: compress_from fuel' r
            | S n' =>
                let len := S (S n') in
                (if (3 <? len)%nat then c :: decimal len else repeat c len)
                ++ compress_from fuel' (skipn (S n') r)
            end
      end
  end.

Definition compress (t : text) : text := compress_from (length t) t.

(** The digits a text starts with, and the rest. *)
Fixpoint take_digits (t : text) : text * text :=
  match t with
  | d :: r =>
      if is_digit d then let (ds, rest) := take_digits r in (d :: ds, rest)
      else ([], t)
  | [] => ([], [])
  end.

(** [compressed.replace(/(.)\d+/g, ...)]: a code unit other than a line
    terminator that is followed by digits starts a match, which takes all
    the digits; it is replaced by the code unit repeated [parseInt] of
    the digits times. *)
Fixpoint decompress_from (fuel : nat) (t : text) : text :=
  match fuel with
  | O => t
  | S fuel' =>
      match t with
      | [] => []
      | c :: r =>
          if is_line_terminator c then c :: decompress_from fuel' r
          else
            match take_digits r with
            | ([], _) => c :: decompress_from fuel' r
            | (ds, rest) => repeat c (parseInt ds) ++ decompress_from fuel' rest
            end
      end
  end.

Definition decompress (t : text) : text := decompress_from (length t) t.

End Compression.

(** ** [Map] and [Set] with string keys, in insertion order *)

Module JsMap.
Section Defs.
Variable V : Type.

Definition t := list (text * V).

Fixpoint get (k : text) (m : t) : option V :=
  match m with
  | [] => None
  | (k', v) :: r => if text_eqb k' k then Some v else get k r
  end.

Definition has (k : text) (m : t) : bool :=
  match get k m with Some _ => true | None => false end.

(** [set] keeps the position of a key that is present and appends a
    new one. *)
Fixpoint set (k : text) (v : V) (m : t) : t :=
  match m with
  | [] => [(k, v)]
  | (k', v') :: r =>
      if text_eqb k' k then (k, v) :: r else (k', v') :: set k v r
  end.

(** [delete] leaves no binding of the key. *)
Definition delete (k : text) (m : t) : t :=
  filter (fun kv => negb (text_eqb (fst kv) k)) m.

Definition keys (m : t) : list text := map fst m.

Definition size (m : t) : nat := length m.
End Defs.
End JsMap.

Module JsSet.
Definition t := list text.

Definition has (k : text) (s : t) : bool :=
  existsb (fun k' => text_eqb k' k) s.

Definition add (k : text) (s : t) : t := if has k s then s else s ++ [k].

Definition delete (k : text) (s : t) : t :=
  filter (fun k' => negb (text_eqb k' k)) s.
End JsSet.

(** ** ENHANCED KV STORE CLASS *)

(** The [options] of [put]: [ttl] in seconds ([None]: undefined or null). *)
Record Options : Type := {
  opt_ttl : option Z;
  opt_encrypted : bool;
  opt_compress : bool
}.

(** [{}], the default of [put]. *)
Definition no_options : Options :=
  {| opt_ttl := None; opt_encrypted := false; opt_compress := false |}.

Record Entry : Type := {
  value : Value;
  timestamp : Z;
  encrypted : bool;
  compressed : bool;
  expiry : option Z           (* absent without a TTL *)
}.

Inductive WalOp : Type := PUT | DELETE.

Record WalRecord : Type := {
  w_timestamp : Z;
  w_op : WalOp;
  w_key : text;
  w_value : option Value;     (* PUT only: the stored value *)
  w_options : option Options  (* PUT only *)
}.

Record Stats : Type := {
  totalOps : nat;
  putOps : nat;
  getOps : nat;
  deleteOps : nat;
  cacheHits : nat;
  cacheMisses : nat
}.

(** What [persist] writes to the medium under ['kvstore-pro']. *)
Record Snapshot : Type := {
  snap_store : JsMap.t Entry;
  snap_encryptedKeys : JsSet.t;
  snap_wal : list WalRecord
}.

(** The fields of the instance, the pending [setTimeout] callbacks
    ([timers]: due time and key, earliest first), the persisted blob and
    the medium: [medium b] tells whether [localStorage.setItem] takes the
    blob [b]; it throws when the quota is exceeded or the storage is
    disabled. *)
Record State : Type := {
  store : JsMap.t Entry;
  wal : list WalRecord;
  cache : JsMap.t Entry;
  cacheSize : nat;
  encryptedKeys : JsSet.t;
  stats : Stats;
  timers : list (Z * text);
  blob : option Snapshot;
  medium : Snapshot -> bool
}.

Definition with_store (x : JsMap.t Entry) (s : State) : State :=
  {| store := x; wal := wal s; cache := cache s; cacheSize := cacheSize s;
     encryptedKeys := encryptedKeys s; stats := stats s;
     timers := timers s; blob := blob s; medium := medium s |}.

Definition with_wal (x : list WalRecord) (s : State) : State :=
  {| store := store s; wal := x; cache := cache s; cacheSize := cacheSize s;
     encryptedKeys := encryptedKeys s; stats := stats s;
     timers := timers s; blob := blob s; medium := medium s |}.

Definition with_cache (x : JsMap.t Entry) (s : State) : State :=
  {| store := store s; wal := wal s; cache := x; cacheSize := cacheSize s;
     encryptedKeys := encryptedKeys s; stats := stats s;
     timers := timers s; blob := blob s; medium := medium s |}.

Definition with_encryptedKeys (x : JsSet.t) (s : State) : State :=
  {| store := store s; wal := wal s; cache := cache s;
     cacheSize := cacheSize s; encryptedKeys := x; stats := stats s;
     timers := timers s; blob := blob s; medium := medium s |}.

Definition with_stats (x : Stats) (s : State) : State :=
  {| store := store s; wal := wal s; cache := cache s;
     cacheSize := cacheSize s; encryptedKeys := encryptedKeys s; stats := x;
     timers := timers s; blob := blob s; medium := medium s |}.

Definition with_timers (x : list (Z * text)) (s : State) : State :=
  {| store := store s; wal := wal s; cache := cache s;
     cacheSize := cacheSize s; encryptedKeys := encryptedKeys s;
     stats := stats s; timers := x; blob := blob s; medium := medium s |}.

Definition with_blob (x : option Snapshot) (s : State) : State :=
  {| store := store s; wal := wal s; cache := cache s;
     cacheSize := cacheSize s; encryptedKeys := encryptedKeys s;
     stats := stats s; timers := timers s; blob := x; medium := medium s |}.

Definition resetStats : Stats :=
  {| totalOps := 0; putOps := 0; getOps := 0; deleteOps := 0;
     cacheHits := 0; cacheMisses := 0 |}.

(** The constructor on a medium without a blob, which takes every
    write. *)
Definition empty_state : State :=
  {| store := []; wal := []; cache := []; cacheSize := 100;
     encryptedKeys := []; stats := resetStats; timers := []; blob := None;
     medium := fun _ => true |}.

(** The medium of an instance, as the environment sets it. *)
Definition with_medium (m : Snapshot -> bool) (s : State) : State :=
  {| store := store s; wal := wal s; cache := cache s;
     cacheSize := cacheSize s; encryptedKeys := encryptedKeys s;
     stats := stats s; timers := timers s; blob := blob s; medium := m |}.

(** The constructor with [loadFromStorage], on the medium [m] that holds
    [b]: the store, the encrypted keys and the log tail come from the
    blob, when there is one. *)
Definition loadFromStorage (m : Snapshot -> bool) (b : option Snapshot)
  : State :=
  match b with
  | Some d =>
      {| store := snap_store d; wal := snap_wal d; cache := [];
         cacheSize := 100; encryptedKeys := snap_encryptedKeys d;
         stats := resetStats; timers := []; blob := b; medium := m |}
  | None => with_medium m empty_state
  end.

(** [kvStore.cacheSize = n] *)
Definition with_cacheSize (n : nat) (s : State) : State :=
  {| store := store s; wal := wal s; cache := cache s; cacheSize := n;
     encryptedKeys := encryptedKeys s; stats := stats s;
     timers := timers s; blob := blob s; medium := medium s |}.

(** [array.slice(-n)]: the last [n] elements. *)
Definition slice_last (A : Type) (n : nat) (l : list A) : list A :=
  skipn (length l - n) l.

(** The data [persist] serializes. *)
Definition snapshot (s : State) : Snapshot :=
  {| snap_store := store s;
     snap_encryptedKeys := encryptedKeys s;
     snap_wal := slice_last 1000 (wal s) |}.

(** [persist]: the blob is replaced when the medium takes the write; an
    exception of [setItem] is caught and the old blob stays. *)
Definition persist (s : State) : State :=
  with_blob (if medium s (snapshot s) then Some (snapshot s) else blob s) s.

Inductive StatOp : Type := StatPut | StatGet | StatDelete.

(** [recordStats(operation, latency)], without the latency samples. *)
Definition recordStats (o : StatOp) (s : State) : State :=
  let st := stats s in
  with_stats
    {| totalOps := S (totalOps st);
       putOps := match o with StatPut => S (putOps st) | _ => putOps st end;
       getOps := match o with StatGet => S (getOps st) | _ => getOps st end;
       deleteOps :=
         match o with StatDelete => S (deleteOps st) | _ => deleteOps st end;
       cacheHits := cacheHits st;
       cacheMisses := cacheMisses st |} s.

(** [this.stats.getOps++] *)
Definition count_get (s : State) : State :=
  let st := stats s in
  with_stats
    {| totalOps := totalOps st; putOps := putOps st;
       getOps := S (getOps st); deleteOps := deleteOps st;
       cacheHits := cacheHits st; cacheMisses := cacheMisses st |} s.

(** [this.stats.cacheHits++] *)
Definition count_hit (s : State) : State :=
  let st := stats s in
  with_stats
    {| totalOps := totalOps st; putOps := putOps st; getOps := getOps st;
       deleteOps := deleteOps st; cacheHits := S (cacheHits st);
       cacheMisses := cacheMisses st |} s.

(** [this.stats.cacheMisses++] *)
Definition count_miss (s : State) : State :=
  let st := stats s in
  with_stats
    {| totalOps := totalOps st; putOps := putOps st; getOps := getOps st;
       deleteOps := deleteOps st; cacheHits := cacheHits st;
       cacheMisses := S (cacheMisses st) |} s.

(** [updateCache]: at capacity the first key of the cache is removed,
    whatever the key that is set. *)
Definition updateCache (key : text) (entry : Entry) (s : State) : State :=
  let c :=
    if (cacheSize s <=? JsMap.size (cache s))%nat then
      match cache s with
      | (firstKey, _) :: _ => JsMap.delete firstKey (cache s)
      | [] => cache s
      end
    else cache s in
  with_cache (JsMap.set key entry c) s.

(** [processValue]: decompress, then decrypt.  [decompress] of a value
    that is not a string throws (it has no [replace]). *)
Definition processValue (v : Value) (entry : Entry) : Outcome Value :=
  let processed :=
    if compressed entry then
      match v with
      | VStr t => Ret (VStr (Compression.decompress t))
      | _ => Throw TypeError
      end
    else Ret v in
  match processed with
  | Ret p => if encrypted entry then Ret (Crypto.decrypt p) else Ret p
  | Throw e => Throw e
  end.

(** The delay [setTimeout] uses: a delay above 2^31 - 1 milliseconds does
    not fit the timer and is taken as a delay of 1. *)
Definition timeout_delay (ms : Z) : Z :=
  if (2147483647 <? ms)%Z then 1%Z else ms.

(** [setTimeout] keeps the callbacks by due time, and in the order of
    registration when the due times are equal. *)
Fixpoint schedule (due : Z) (key : text) (q : list (Z * text))
  : list (Z * text) :=
  match q with
  | [] => [(due, key)]
  | (d, k) :: r =>
      if (d <=? due)%Z then (d, k) :: schedule due key r
      else (due, key) :: q
  end.

(** [entry.expiry && entry.expiry < Date.now()] *)
Definition expired (entry : Entry) (now : Z) : bool :=
  match expiry entry with
  | Some e => negb (e =? 0)%Z && (e <? now)%Z
  | None => false
  end.

(** [delete(key)]; the result is [success]. *)
Definition delete (now : Z) (key : text) (s : State) : bool * State :=
  let s1 :=
    with_wal (wal s ++ [{| w_timestamp := now; w_op := DELETE; w_key := key;
                           w_value := None; w_options := None |}]) s in
  let existed := JsMap.has key (store s1) in
  let s2 := with_store (JsMap.delete key (store s1)) s1 in
  let s3 := with_cache (JsMap.delete key (cache s2)) s2 in
  let s4 := with_encryptedKeys (JsSet.delete key (encryptedKeys s3)) s3 in
  let s5 := persist s4 in
  (existed, recordStats StatDelete s5).

(** [put(key, value, options)]; the result is [success]. *)
Definition put (now : Z) (key : text) (value : Value) (options : Options)
  (s : State) : Outcome bool * State :=
  match key, value with
  | [], _ | _, VUndefined => (Throw (Error_ "Invalid key or value"), s)
  | _, _ =>
      let encrypted_step :=
        if opt_encrypted options then
          match Crypto.encrypt value with
          | Ret c =>
              Ret (VStr c,
                   with_encryptedKeys (JsSet.add key (encryptedKeys s)) s)
          | Throw e => Throw e
          end
        else Ret (value, s) in
      match encrypted_step with
      | Throw e => (Throw e, s)
      | Ret (v1, s1) =>
          let storedValue :=
            match v1 with
            | VStr t =>
                if opt_compress options then VStr (Compression.compress t)
                else v1
            | _ => v1
            end in
          let s2 :=
            with_wal
              (wal s1 ++ [{| w_timestamp := now; w_op := PUT; w_key := key;
                             w_value := Some storedValue;
                             w_options := Some options |}]) s1 in
          let ttl :=
            match opt_ttl options with
            | Some t => if (0 <? t)%Z then Some t else None
            | None => None
            end in
          let entry :=
            {| value := storedValue; timestamp := now;
               encrypted := opt_encrypted options;
               compressed := opt_compress options;
               expiry := option_map (fun t => (now + t * 1000)%Z) ttl |} in
          let s3 :=
            match ttl with
            | Some t =>
                with_timers
                  (schedule (now + timeout_delay (t * 1000))%Z key
                     (timers s2)) s2
            | None => s2
            end in
          let s4 := with_store (JsMap.set key entry (store s3)) s3 in
          let s5 := updateCache key entry s4 in
          let s6 := persist s5 in
          (Ret true, recordStats StatPut s6)
      end
  end.

(** [get(key)]; null is the answer for a key that is absent or expired.
    The lookup [JsMap.get] stands for [has(key)] followed by [get(key)]. *)
Definition get (now : Z) (key : text) (s : State) : Outcome Value * State :=
  let s0 := count_get s in
  match JsMap.get key (cache s0) with
  | Some entry =>
      let s1 := count_hit s0 in
      if expired entry now then (Ret VNull, snd (delete now key s1))
      else (processValue (value entry) entry, recordStats StatGet s1)
  | None =>
      let s1 := count_miss s0 in
      match JsMap.get key (store s1) with
      | None => (Ret VNull, recordStats StatGet s1)
      | Some entry =>
          if expired entry now then (Ret VNull, snd (delete now key s1))
          else
            let s2 := updateCache key entry s1 in
            (processValue (value entry) entry, recordStats StatGet s2)
      end
  end.

(** [exists(key)] *)
Definition exists_ (now : Z) (key : text) (s : State) : bool * State :=
  match JsMap.get key (store s) with
  | None => (false, s)
  | Some entry =>
      if expired entry now then (false, snd (delete now key s))
      else (true, s)
  end.

(** [clear()]; the pending timers stay. *)
Definition clear (s : State) : State :=
  let s1 := with_store [] s in
  let s2 := with_cache [] s1 in
  let s3 := with_encryptedKeys [] s2 in
  let s4 := with_wal [] s3 in
  with_stats resetStats (persist s4).

Definition putEncrypted (now : Z) (key : text) (value : Value)
  (ttl : option Z) (s : State) : Outcome bool * State :=
  put now key value
    {| opt_ttl := ttl; opt_encrypted := true; opt_compress := false |} s.

Definition getDecrypted (key : text) (s : State) : Value :=
  match JsMap.get key (store s) with
  | None => VNull
  | Some entry =>
      if encrypted entry then Crypto.decrypt (value entry) else value entry
  end.

(** The callbacks that are due at [now] run, each [() => this.delete(key)],
    and leave the queue. *)
Definition run_timers (now : Z) (s : State) : State :=
  let due := filter (fun t => (fst t <=? now)%Z) (timers s) in
  let later := filter (fun t => negb (fst t <=? now)%Z) (timers s) in
  fold_left (fun st t => snd (delete now (snd t) st)) due
    (with_timers later s).

(** ** BATCH OPERATIONS *)

(** A caller-supplied operation [{op, key, value, ttl}]. *)
Record BatchOp : Type := {
  op : Value;
  b_key : text;
  b_value : Value;            (* [VUndefined] when absent *)
  b_ttl : option Z
}.

(** The [result] of one operation. *)
Inductive OpResult : Type :=
| ResPut (success : bool)
| ResGet (v : Value)               (* [{success: true, value}] *)
| ResDelete (success : bool)
| ResExists (b : bool)             (* [{success: true, exists}] *)
| ResUnknown.                      (* [{success: false, error}] *)

Inductive BatchResult : Type :=
| BatchOk (results : list (BatchOp * OpResult)) (opsPerformed : nat)
| BatchFailed (error : Exn) (results : list (BatchOp * OpResult)).

Section Batch.

(** [String.prototype.toUpperCase], the platform's. *)
Variable toUpperCase : text -> text.

(** The body of the loop: the [switch] on [op.op.toUpperCase()]. *)
Definition batch_step (now : Z) (o : BatchOp) (s : State)
  : Outcome OpResult * State :=
  match op o with
  | VStr tag =>
      let u := toUpperCase tag in
      if text_eqb u (str "PUT") then
        match put now (b_key o) (b_value o)
                {| opt_ttl := b_ttl o; opt_encrypted := false;
                   opt_compress := false |} s with
        | (Ret ok, s') => (Ret (ResPut ok), s')
        | (Throw e, s') => (Throw e, s')
        end
      else if text_eqb u (str "GET") then
        match get now (b_key o) s with
        | (Ret v, s') => (Ret (ResGet v), s')
        | (Throw e, s') => (Throw e, s')
        end
      else if text_eqb u (str "DELETE") then
        let (existed, s') := delete now (b_key o) s in
        (Ret (ResDelete existed), s')
      else if text_eqb u (str "EXISTS") then
        let (b, s') := exists_ now (b_key o) s in (Ret (ResExists b), s')
      else (Ret ResUnknown, s)
  | _ => (Throw TypeError, s)
  end.

(** The [for] loop inside [try]: [results] is the array built so far. *)
Fixpoint batch_loop (now : Z) (ops : list BatchOp)
  (results : list (BatchOp * OpResult)) (s : State)
  : Outcome (list (BatchOp * OpResult)) * list (BatchOp * OpResult) * State :=
  match ops with
  | [] => (Ret results, results, s)
  | o :: rest =>
      match batch_step now o s with
      | (Ret r, s') => batch_loop now rest (results ++ [(o, r)]) s'
      | (Throw e, s') => (Throw e, results, s')
      end
  end.

Definition batch (now : Z) (operations : list BatchOp) (s : State)
  : BatchResult * State :=
  match batch_loop now operations [] s with
  | (Ret results, _, s') => (BatchOk results (length operations), s')
  | (Throw e, results, s') => (BatchFailed e results, s')
  end.

(** The operations of a list applied one after the other from a state,
    none of them throwing: one result for each, in order, and the state
    they leave. *)
Inductive applied (now : Z)
  : list BatchOp -> State -> list (BatchOp * OpResult) -> State -> Prop :=
| applied_nil (s : State) : applied now [] s [] s
| applied_cons (o : BatchOp) (r : OpResult) (s s' : State)
    (ops : list BatchOp) (rs : list (BatchOp * OpResult)) (s'' : State) :
    batch_step now o s = (Ret r, s') ->
    applied now ops s' rs s'' ->
    applied now (o :: ops) s ((o, r) :: rs) s''.

End Batch.

(** ** IMPORT *)

(** One parsed entry, as [import] reads it: [entry.key], [entry.value] and
    [entry.ttl].  Keys are strings or absent, the time to live a number or
    absent. *)
Record ImportEntry : Type := {
  e_key : option text;
  e_value : Value;
  e_ttl : option Z
}.

(** What [JSON.parse] gives, as far as [import] looks at it: an exception,
    a value without [forEach], or an array whose elements are null or
    carry the three fields. *)
Inductive Parsed : Type :=
| ParseThrows
| ParsedOther
| ParsedArray (entries : list (option ImportEntry)).

Inductive ImportResult : Type :=
| ImportOk (imported total : nat)
| ImportFailed (error : Exn).

(** [text.split(sep)] for a separator of one code unit. *)
Fixpoint split (sep : N) (t : text) : list text :=
  match t with
  | [] => [[]]
  | c :: r =>
      if (c =? sep)%N then [] :: split sep r
      else
        match split sep r with
        | h :: tl => (c :: h) :: tl
        | [] => [[c]]
        end
  end.

(** White space and line terminators, which [trim] removes. *)
Definition is_trim_space (c : N) : bool :=
  ((9 <=? c) && (c <=? 13) || (c =? 32) || (c =? 160) || (c =? 5760)
   || (8192 <=? c) && (c <=? 8202) || (c =? 8232) || (c =? 8233)
   || (c =? 8239) || (c =? 8287) || (c =? 12288) || (c =? 65279))%N.

Fixpoint trim_start (t : text) : text :=
  match t with
  | c :: r => if is_trim_space c then trim_start r else t
  | [] => []
  end.

Definition trim (t : text) : text := rev (trim_start (rev (trim_start t))).

(** [s.replace(/^"|"$/g, '')]: a quote at the start and a quote at the end
    are removed. *)
Definition strip_quotes (t : text) : text :=
  let t1 := match t with
            | c :: r => if (c =? 34)%N then r else t
            | [] => []
            end in
  match rev t1 with
  | c :: r => if (c =? 34)%N then rev r else t1
  | [] => t1
  end.

(** [const [key, value] = fields; return { key, value }] *)
Definition entry_of_fields (fields : list text) : ImportEntry :=
  {| e_key := match fields with k :: _ => Some k | [] => None end;
     e_value := match fields with _ :: v :: _ => VStr v | _ => VUndefined end;
     e_ttl := None |}.

Definition parse_csv (data : text) : list (option ImportEntry) :=
  map (fun line =>
         Some (entry_of_fields
                 (map (fun f => strip_quotes (trim f)) (split 44 line))))
      (skipn 1 (split 10 data)).

Definition parse_txt (data : text) : list (option ImportEntry) :=
  map (fun line => Some (entry_of_fields (map trim (split 61 line))))
      (split 10 data).

(** [entries.forEach(...)]: an entry with a truthy key and a truthy value
    is put, with [{ ttl: entry.ttl || null }]; reading [entry.key] of a
    null entry throws. *)
Fixpoint import_loop (now : Z) (entries : list (option ImportEntry))
  (imported : nat) (s : State) : Outcome nat * State :=
  match entries with
  | [] => (Ret imported, s)
  | None :: _ => (Throw TypeError, s)
  | Some e :: rest =>
      match e_key e with
      | Some (c :: k) =>
          if truthy (e_value e) then
            match put now (c :: k) (e_value e)
                    {| opt_ttl :=
                         match e_ttl e with
                         | Some t => if (t =? 0)%Z then None else Some t
                         | None => None
                         end;
                       opt_encrypted := false; opt_compress := false |} s with
            | (Ret _, s') => import_loop now rest (S imported) s'
            | (Throw err, s') => (Throw err, s')
            end
          else import_loop now rest imported s
      | _ => import_loop now rest imported s
      end
  end.

Section Importing.

(** [JSON.parse], the platform's. *)
Variable JSON_parse : text -> Parsed.

Definition import (now : Z) (data : text) (format : text) (s : State)
  : ImportResult * State :=
  let parsed :=
    if text_eqb format (str "json") then
      match JSON_parse data with
      | ParseThrows => Throw SyntaxError
      | ParsedOther => Ret None
      | ParsedArray l => Ret (Some l)
      end
    else if text_eqb format (str "csv") then Ret (Some (parse_csv data))
    else if text_eqb format (str "txt") then Ret (Some (parse_txt data))
    else Throw (Error_ "Unsupported format") in
  match parsed with
  | Throw e => (ImportFailed e, s)
  | Ret None => (ImportFailed TypeError, s)
  | Ret (Some entries) =>
      match import_loop now entries 0 s with
      | (Ret imported, s') => (ImportOk imported (length entries), s')
      | (Throw e, s') => (ImportFailed e, s')
      end
  end.

End Importing.

(** ** Calls of the public interface and runs of the event loop *)

Inductive Call : Type :=
| CallPut (now : Z) (key : text) (v : Value) (options : Options)
| CallGet (now : Z) (key : text)
| CallDelete (now : Z) (key : text)
| CallExists (now : Z) (key : text)
| CallClear
| RunTimers (now : Z).

Definition call (c : Call) (s : State) : State :=
  match c with
  | CallPut now k v o => snd (put now k v o s)
  | CallGet now k => snd (get now k s)
  | CallDelete now k => snd (delete now k s)
  | CallExists now k => snd (exists_ now k s)
  | CallClear => clear s
  | RunTimers now => run_timers now s
  end.

Definition run (cs : list Call) (s : State) : State :=
  fold_left (fun st c => call c st) cs s.

(** ** Auxiliary definitions of the proofs *)

(** The sextets of the encoding, without the alphabet and the padding. *)
Fixpoint sextets (bs : text) : list N :=
  (match bs with
   | a :: b :: c :: rest =>
       a / 4 :: (a mod 4) * 16 + b / 16 :: (b mod 16) * 4 + c / 64
       :: c mod 64 :: sextets rest
   | [a; b] => [a / 4; (a mod 4) * 16 + b / 16; (b mod 16) * 4]
   | [a] => [a / 4; (a mod 4) * 16]
   | [] => []
   end)%N.

Fixpoint padding (bs : text) : text :=
  match bs with
  | _ :: _ :: _ :: rest => padding rest
  | [_; _] => [61%N]
  | [_] => [61%N; 61%N]
  | [] => []
  end.

(** Text that [btoa] accepts: every code unit is below 256. *)
Definition latin1 (t : text) : Prop := Forall (fun c => c < 256)%N t.

(** Text without a decimal digit. *)
Definition no_digit (t : text) : Prop :=
  Forall (fun c => is_digit c = false) t.

(** Text without a digit that follows another code unit: the text on
    which the decompression is not ambiguous. *)
Definition no_inner_digit (t : text) : Prop :=
  match t with
  | [] => True
  | _ :: r => no_digit r
  end.

(** A text that is empty or starts with a code unit that is not a digit. *)
Definition no_leading_digit (t : text) : Prop :=
  match t with
  | [] => True
  | c :: _ => is_digit c = false
  end.

(** *** [put], seen from its arguments *)

(** Whether [put] accepts its arguments: the validation passes and, with
    the [encrypted] option, [Crypto.encrypt] returns. *)
Definition put_accepts (key : text) (v : Value) (options : Options) : bool :=
  match key, v with
  | [], _ | _, VUndefined => false
  | _, _ =>
      if opt_encrypted options then
        match Crypto.encrypt v with
        | Ret _ => true
        | Throw _ => false
        end
      else true
  end.

(** The value [put] stores: encrypted, then compressed, as the options
    ask. *)
Definition stored_value (v : Value) (options : Options) : Value :=
  let v1 :=
    if opt_encrypted options then
      match Crypto.encrypt v with
      | Ret c => VStr c
      | Throw _ => v
      end
    else v in
  match v1 with
  | VStr t => if opt_compress options then VStr (Compression.compress t) else v1
  | _ => v1
  end.

(** The expiry [put] gives the entry. *)
Definition expiry_of (now : Z) (options : Options) : option Z :=
  match opt_ttl options with
  | Some t => if (0 <? t)%Z then Some (now + t * 1000)%Z else None
  | None => None
  end.

(** When the timer that [put] registers is due. *)
Definition timer_of (now : Z) (options : Options) : option Z :=
  match opt_ttl options with
  | Some t =>
      if (0 <? t)%Z then Some (now + timeout_delay (t * 1000))%Z else None
  | None => None
  end.

(** The entry [put] creates. *)
Definition entry_of (now : Z) (v : Value) (options : Options) : Entry :=
  {| value := stored_value v options; timestamp := now;
     encrypted := opt_encrypted options; compressed := opt_compress options;
     expiry := expiry_of now options |}.

Definition put_record (now : Z) (key : text) (v : Value) (options : Options)
  : WalRecord :=
  {| w_timestamp := now; w_op := PUT; w_key := key;
     w_value := Some (stored_value v options); w_options := Some options |}.

Definition delete_record (now : Z) (key : text) : WalRecord :=
  {| w_timestamp := now; w_op := DELETE; w_key := key;
     w_value := None; w_options := None |}.

(** *** The sessions of the examples *)

(** A session of 1001 accepted puts: one of the key [first], then a
    thousand of the key [k]. *)
Definition thousand_and_one_puts : list Call :=
  CallPut 0 (str "first") (VStr (str "v")) no_options
  :: repeat (CallPut 1 (str "k") (VStr (str "v")) no_options) 1000.

(** An encrypted put of a key, then a plain put of the same key. *)
Definition overwrite_encrypted : list Call :=
  [CallPut 0 (str "k") (VStr (str "secret"))
     {| opt_ttl := None; opt_encrypted := true; opt_compress := false |};
   CallPut 1 (str "k") (VStr (str "plain")) no_options].

(** The arguments of one call of [put], with its instant. *)
Record PutArgs : Type := {
  p_now : Z;
  p_key : text;
  p_value : Value;
  p_options : Options
}.

Definition put_call (p : PutArgs) : Call :=
  CallPut (p_now p) (p_key p) (p_value p) (p_options p).

Definition p_accepted (p : PutArgs) : Prop :=
  put_accepts (p_key p) (p_value p) (p_options p) = true.

(** The binding an accepted [put] leaves in the store and in the cache. *)
Definition p_binding (p : PutArgs) : text * Entry :=
  (p_key p, entry_of (p_now p) (p_value p) (p_options p)).

(** A read [get(key)] at an instant. *)
Definition get_call (r : Z * text) : Call := CallGet (fst r) (snd r).

(** A small session on a cache of capacity 2: puts of [a] and [b], reads
    of [a], [b] and [a] again, then a put of [c]. *)
Definition plain_put (now : Z) (key value : string) : PutArgs :=
  {| p_now := now; p_key := str key; p_value := VStr (str value);
     p_options := no_options |}.

Definition two_puts : list PutArgs :=
  [plain_put 0 "a" "1"; plain_put 1 "b" "2"].

Definition three_reads : list (Z * text) :=
  [(5%Z, str "a"); (6%Z, str "b"); (7%Z, str "a")].

(** Both codec options, without a TTL. *)
Definition encrypted_compressed : Options :=
  {| opt_ttl := None; opt_encrypted := true; opt_compress := true |}.

Definition encrypted_only : Options :=
  {| opt_ttl := None; opt_encrypted := true; opt_compress := false |}.

(** The text that enters [Compression.compress] in [put]: the value itself
    or, with the [encrypted] option, the base64 text. *)
Definition compressor_input (v : text) (o : Options) : text :=
  if opt_encrypted o then Base64.encode (Crypto.xor_key v) else v.

(** The value comes back from the codec: no codec option is used, or the
    value is a text that the options in use give back. *)
Definition survives_codec (v : Value) (o : Options) : Prop :=
  (opt_encrypted o = false /\ opt_compress o = false)
  \/ exists t, v = VStr t
               /\ (opt_encrypted o = true -> latin1 t)
               /\ (opt_compress o = true
                   -> no_inner_digit (compressor_input t o)).

(** A key is put with a TTL of one second, put again half a second later
    with a TTL of ten seconds, and the timers run at one second. *)
Definition ttl_options (seconds : Z) : Options :=
  {| opt_ttl := Some seconds; opt_encrypted := false; opt_compress := false |}.

Definition renewed_key : list Call :=
  [CallPut 0 (str "k") (VStr (str "a")) (ttl_options 1);
   CallPut 500 (str "k") (VStr (str "b")) (ttl_options 10);
   RunTimers 1000].

(** A time to live of 2147484 seconds, whose delay of 2147484000
    milliseconds is above 2^31 - 1: the timers run a tenth of a second
    after the put. *)
Definition oversized_ttl : list Call :=
  [CallPut 0 (str "k") (VStr (str "a")) (ttl_options 2147484);
   RunTimers 100].

(** A text with a digit, put with a time to live and both codec
    options. *)
Definition coded_ttl : list Call :=
  [CallPut 0 (str "k") (VStr (str "ah"))
     {| opt_ttl := Some 5%Z; opt_encrypted := true; opt_compress := true |}].

(** [toUpperCase] on the letters a to z, for the examples. *)
Definition ascii_upper (t : text) : text :=
  map (fun c => if ((97 <=? c) && (c <=? 122))%N then (c - 32)%N else c) t.

(** The batch of the specification: two puts and a get. *)
Definition batch_op (tag key : string) (v : Value) : BatchOp :=
  {| op := VStr (str tag); b_key := str key; b_value := v; b_ttl := None |}.

Definition sample_batch : list BatchOp :=
  [batch_op "put" "a" (VStr (str "1")); batch_op "PUT" "b" (VStr (str "2"));
   batch_op "get" "a" VUndefined].

(** A batch whose second operation is a put without a value. *)
Definition failing_batch : list BatchOp :=
  [batch_op "PUT" "a" (VStr (str "1")); batch_op "PUT" "b" VUndefined;
   batch_op "PUT" "c" (VStr (str "3"))].

(** *** A reader for a fragment of JSON

    It stands for the platform's [JSON.parse] in the examples, on the
    texts of a fragment: arrays, objects, strings without escapes, safe
    integers, [true], [false] and [null], where the key of a record is a
    string or is falsy, its value a primitive and its time to live a
    number or falsy.  A text outside the fragment is not read: the reader
    answers as for a text that does not parse, which is not what the
    platform does with it.  What [import] proves does not depend on the
    reader. *)

#[local] Set Warnings "-register-all".

Inductive Json : Type :=
| JNull
| JBool (b : bool)
| JNum (n : Z)
| JStr (s : text)
| JArr (elements : list Json)
| JObj (members : list (text * Json)).

Fixpoint skip_ws (t : text) : text :=
  match t with
  | c :: r =>
      if ((c =? 32) || (c =? 9) || (c =? 10) || (c =? 13))%N then skip_ws r
      else t
  | [] => []
  end.

(** The characters of a string up to its closing quote. *)
Fixpoint read_string (t : text) : option (text * text) :=
  match t with
  | [] => None
  | c :: r =>
      if (c =? 34)%N then Some ([], r)
      else if ((c =? 92) || (c <? 32))%N then None
      else
        match read_string r with
        | Some (str', rest) => Some (c :: str', rest)
        | None => None
        end
  end.

Definition digit_value (c : N) : Z := Z.of_N (c - 48).

Fixpoint read_digits (acc : Z) (t : text) : Z * text :=
  match t with
  | c :: r =>
      if is_digit c then read_digits (acc * 10 + digit_value c)%Z r
      else (acc, t)
  | [] => (acc, [])
  end.

(** A safe integer; a fraction, an exponent or more digits are outside
    the fragment. *)
Definition read_number (negative : bool) (t : text) : option (Json * text) :=
  match t with
  | c :: _ =>
      if is_digit c then
        let (n, rest) := read_digits 0 t in
        if safe_integerb n then
          match rest with
          | d :: _ =>
              if ((d =? 46) || (d =? 101) || (d =? 69))%N then None
              else Some (JNum (if negative then - n else n)%Z, rest)
          | [] => Some (JNum (if negative then - n else n)%Z, rest)
          end
        else None
      else None
  | [] => None
  end.

(** [prefix ++ rest = t] *)
Fixpoint strip_prefix (prefix t : text) : option text :=
  match prefix, t with
  | [], _ => Some t
  | p :: ps, c :: r => if (p =? c)%N then strip_prefix ps r else None
  | _ :: _, [] => None
  end.

Inductive ReadMode : Type :=
| ReadValue
| ReadElements (acc : list Json)
| ReadMembers (acc : list (text * Json)).

Fixpoint read_json (fuel : nat) (mode : ReadMode) (t : text)
  : option (Json * text) :=
  match fuel with
  | O => None
  | S fuel' =>
      match mode with
      | ReadValue =>
          match skip_ws t with
          | [] => None
          | c :: r =>
              if (c =? 91)%N then                       (* [ *)
                match skip_ws r with
                | d :: r' =>
                    if (d =? 93)%N then Some (JArr [], r')
                    else read_json fuel' (ReadElements []) r
                | [] => None
                end
              else if (c =? 123)%N then                 (* { *)
                match skip_ws r with
                | d :: r' =>
                    if (d =? 125)%N then Some (JObj [], r')
                    else read_json fuel' (ReadMembers []) r
                | [] => None
                end
              else if (c =? 34)%N then
                match read_string r with
                | Some (s, rest) => Some (JStr s, rest)
                | None => None
                end
              else if (c =? 45)%N then read_number true r
              else if is_digit c then read_number false (c :: r)
              else
                match strip_prefix (str "null") (c :: r) with
                | Some rest => Some (JNull, rest)
                | None =>
                    match strip_prefix (str "true") (c :: r) with
                    | Some rest => Some (JBool true, rest)
                    | None =>
                        match strip_prefix (str "false") (c :: r) with
                        | Some rest => Some (JBool false, rest)
                        | None => None
                        end
                    end
                end
          end
      | ReadElements acc =>
          match read_json fuel' ReadValue t with
          | Some (v, rest) =>
              match skip_ws rest with
              | c :: r =>
                  if (c =? 44)%N then
                    read_json fuel' (ReadElements (acc ++ [v])) r
                  else if (c =? 93)%N then Some (JArr (acc ++ [v]), r)
                  else None
              | [] => None
              end
          | None => None
          end
      | ReadMembers acc =>
          match skip_ws t with
          | q :: r =>
              if (q =? 34)%N then
                match read_string r with
                | Some (name, rest) =>
                    match skip_ws rest with
                    | c :: r' =>
                        if (c =? 58)%N then
                          match read_json fuel' ReadValue r' with
                          | Some (v, rest') =>
                              match skip_ws rest' with
                              | d :: r'' =>
                                  if (d =? 44)%N then
                                    read_json fuel'
                                      (ReadMembers (acc ++ [(name, v)])) r''
                                  else if (d =? 125)%N then
                                    Some (JObj (acc ++ [(name, v)]), r'')
                                  else None
                              | [] => None
                              end
                          | None => None
                          end
                        else None
                    | [] => None
                    end
                | None => None
                end
              else None
          | [] => None
          end
      end
  end.

(** The member of a name; of two with the same name the later one. *)
Fixpoint member (name : text) (members : list (text * Json)) : option Json :=
  match members with
  | [] => None
  | (n, v) :: r =>
      match member name r with
      | Some v' => Some v'
      | None => if text_eqb n name then Some v else None
      end
  end.

(** The [value] of a record as a value of the model; an array or an
    object is outside the fragment ([None]). *)
Definition value_of_json (j : option Json) : option Value :=
  match j with
  | None => Some VUndefined
  | Some JNull => Some VNull
  | Some (JBool b) => Some (VBool b)
  | Some (JNum n) => Some (VNum n)
  | Some (JStr s) => Some (VStr s)
  | Some (JArr _) | Some (JObj _) => None
  end.

(** The [key] of a record: a string, or absent when the member is
    missing or falsy, which [import] passes over; a key that is truthy
    and not a string is outside the fragment (the keys of the model are
    strings). *)
Definition key_of_json (j : option Json) : option (option text) :=
  match j with
  | Some (JStr k) => Some (Some k)
  | None | Some JNull | Some (JBool false) => Some None
  | Some (JNum n) => if (n =? 0)%Z then Some None else None
  | _ => None
  end.

(** The [ttl] of a record: a number, or absent when the member is
    missing, null or false. *)
Definition ttl_of_json (j : option Json) : option (option Z) :=
  match j with
  | Some (JNum n) => Some (Some n)
  | None | Some JNull | Some (JBool false) => Some None
  | _ => None
  end.

(** An element of the array, as [import] reads it: null, or the three
    properties (undefined on an element that is not an object); [None]
    for an element outside the fragment. *)
Definition entry_of_json (j : Json) : option (option ImportEntry) :=
  match j with
  | JNull => Some None
  | JObj members =>
      match key_of_json (member (str "key") members),
            value_of_json (member (str "value") members),
            ttl_of_json (member (str "ttl") members) with
      | Some k, Some v, Some t =>
          Some (Some {| e_key := k; e_value := v; e_ttl := t |})
      | _, _, _ => None
      end
  | _ => Some (Some {| e_key := None; e_value := VUndefined; e_ttl := None |})
  end.

Fixpoint entries_of_json (elements : list Json)
  : option (list (option ImportEntry)) :=
  match elements with
  | [] => Some []
  | j :: r =>
      match entry_of_json j, entries_of_json r with
      | Some e, Some l => Some (e :: l)
      | _, _ => None
      end
  end.

Definition json_reader (data : text) : Parsed :=
  match read_json (2 * length data + 2) ReadValue data with
  | Some (JArr elements, rest) =>
      match skip_ws rest, entries_of_json elements with
      | [], Some entries => ParsedArray entries
      | _, _ => ParseThrows
      end
  | Some (_, rest) =>
      match skip_ws rest with
      | [] => ParsedOther
      | _ => ParseThrows
      end
  | None => ParseThrows
  end.

(** A text with its single quotes read as double quotes. *)
Definition quoted (s : string) : text :=
  map (fun c => if (c =? 39)%N then 34%N else c) (str s).

(** A JSON array of one record and a null. *)
Definition record_then_null : text :=
  quoted "[{'key':'a','value':'1'}, null]".

(** Whether [import] puts an entry: its key and its value are truthy. *)
Definition entry_applies (e : ImportEntry) : bool :=
  match e_key e with
  | Some (_ :: _) => truthy (e_value e)
  | _ => false
  end.

(** [{ ttl: entry.ttl || null }] *)
Definition entry_options (e : ImportEntry) : Options :=
  {| opt_ttl := match e_ttl e with
                | Some t => if (t =? 0)%Z then None else Some t
                | None => None
                end;
     opt_encrypted := false; opt_compress := false |}.

Definition entry_key (e : ImportEntry) : text :=
  match e_key e with Some k => k | None => [] end.

(** The entries that apply, put one after the other. *)
Definition put_entries (now : Z) (es : list ImportEntry) (s : State) : State :=
  fold_left
    (fun st e =>
       if entry_applies e
       then snd (put now (entry_key e) (e_value e) (entry_options e) st)
       else st) es s.

(** A delimited export of two records, one of them without a value. *)
Definition csv_sample : text :=
  quoted "Key,Value,Timestamp,Encrypted,TTL" ++ [10%N]
  ++ quoted "'user:1','Alice','1234567890',false,null" ++ [10%N]
  ++ quoted "'user:2'".

(** The half of the consistency of [encryptedKeys] that the code keeps:
    the key of every entry flagged [encrypted] is in the set. *)
Definition encrypted_entries_in_set (s : State) : Prop :=
  forall k e,
    JsMap.get k (store s) = Some e -> encrypted e = true ->
    JsSet.has k (encryptedKeys s) = true.

(** [n] plain puts of the keys [1], [2], ..., one per millisecond. *)
Definition numbered_puts (n : nat) : list PutArgs :=
  map (fun i => {| p_now := Z.of_nat i; p_key := decimal i;
                   p_value := VNum (Z.of_nat i); p_options := no_options |})
      (seq 1 n).

(** A JSON array of one record whose value is the number 0. *)
Definition record_with_zero : text := quoted "[{'key':'a','value':0}]".

(** *** A batch, operation by operation *)

(** [{ ttl: op.ttl }] *)
Definition batch_options (o : BatchOp) : Options :=
  {| opt_ttl := b_ttl o; opt_encrypted := false; opt_compress := false |}.

Section BatchWords.

Variable toUpperCase : text -> text.

(** What one operation of a batch does to the store, by the operation
    that its tag names in upper case: a PUT is [put] of the key and the
    value with the time to live of the operation, a GET is [get], a
    DELETE is [delete] and an EXISTS is [exists], each on the key of the
    operation; another tag gives the result "unknown operation" and
    touches nothing; an operation without a tag throws. *)
Inductive performs (now : Z) (o : BatchOp) (s : State)
  : Outcome OpResult -> State -> Prop :=
| performs_put (tag : text) (ok : bool) :
    op o = VStr tag -> toUpperCase tag = str "PUT" ->
    fst (put now (b_key o) (b_value o) (batch_options o) s) = Ret ok ->
    performs now o s (Ret (ResPut ok))
      (snd (put now (b_key o) (b_value o) (batch_options o) s))
| performs_put_throws (tag : text) (e : Exn) :
    op o = VStr tag -> toUpperCase tag = str "PUT" ->
    fst (put now (b_key o) (b_value o) (batch_options o) s) = Throw e ->
    performs now o s (Throw e)
      (snd (put now (b_key o) (b_value o) (batch_options o) s))
| performs_get (tag : text) (v : Value) :
    op o = VStr tag -> toUpperCase tag = str "GET" ->
    fst (get now (b_key o) s) = Ret v ->
    performs now o s (Ret (ResGet v)) (snd (get now (b_key o) s))
| performs_get_throws (tag : text) (e : Exn) :
    op o = VStr tag -> toUpperCase tag = str "GET" ->
    fst (get now (b_key o) s) = Throw e ->
    performs now o s (Throw e) (snd (get now (b_key o) s))
| performs_delete (tag : text) :
    op o = VStr tag -> toUpperCase tag = str "DELETE" ->
    performs now o s (Ret (ResDelete (fst (delete now (b_key o) s))))
      (snd (delete now (b_key o) s))
| performs_exists (tag : text) :
    op o = VStr tag -> toUpperCase tag = str "EXISTS" ->
    performs now o s (Ret (ResExists (fst (exists_ now (b_key o) s))))
      (snd (exists_ now (b_key o) s))
| performs_unknown (tag : text) :
    op o = VStr tag ->
    toUpperCase tag <> str "PUT" -> toUpperCase tag <> str "GET" ->
    toUpperCase tag <> str "DELETE" -> toUpperCase tag <> str "EXISTS" ->
    performs now o s (Ret ResUnknown) s
| performs_untagged :
    (forall tag, op o <> VStr tag) ->
    performs now o s (Throw TypeError) s.

(** The operations of a list performed one after the other from a state,
    none of them throwing: one result for each, in order, and the state
    they leave. *)
Inductive performed (now : Z)
  : list BatchOp -> State -> list (BatchOp * OpResult) -> State -> Prop :=
| performed_nil (s : State) : performed now [] s [] s
| performed_cons (o : BatchOp) (r : OpResult) (s s' : State)
    (ops : list BatchOp) (rs : list (BatchOp * OpResult)) (s'' : State) :
    performs now o s (Ret r) s' ->
    performed now ops s' rs s'' ->
    performed now (o :: ops) s ((o, r) :: rs) s''.

End BatchWords.

(** ** ADVANCED QUERY OPERATIONS *)

(** [k.startsWith(prefix)] *)
Fixpoint starts_with (prefix k : text) : bool :=
  match prefix, k with
  | [], _ => true
  | p :: ps, c :: r => (p =? c)%N && starts_with ps r
  | _ :: _, [] => false
  end.

Definition prefixSearch (prefix : text) (s : State) : list text :=
  filter (starts_with prefix) (JsMap.keys (store s)).

(** [a <= b] on strings: the order of the code units, a prefix first. *)
Fixpoint text_leb (a b : text) : bool :=
  match a, b with
  | [], _ => true
  | _ :: _, [] => false
  | x :: a', y :: b' =>
      if (x <? y)%N then true
      else if (y <? x)%N then false
      else text_leb a' b'
  end.

Fixpoint insert_key (k : text) (sorted : list text) : list text :=
  match sorted with
  | [] => [k]
  | h :: r => if text_leb k h then k :: sorted else h :: insert_key k r
  end.

(** [keys.sort()]: the keys in the default order, which is [text_leb].
    Strings that compare equal are equal, so every way of sorting gives
    this list. *)
Definition sort_keys (l : list text) : list text :=
  fold_right insert_key [] l.

(** [rangeQuery(start, end)] *)
Definition rangeQuery (first last : text) (s : State) : list text :=
  filter (fun k => text_leb first k && text_leb k last)
    (sort_keys (JsMap.keys (store s))).

(** The digit of [\u00xx], in lower case. *)
Definition hex_digit (d : N) : N := (if d <? 10 then 48 + d else 87 + d)%N.

Definition unicode_escape (c : N) : text :=
  [92%N; 117%N; hex_digit (c / 4096); hex_digit ((c / 256) mod 16);
   hex_digit ((c / 16) mod 16); hex_digit (c mod 16)].

Definition is_high_surrogate (c : N) : bool := ((55296 <=? c) && (c <=? 56319))%N.
Definition is_low_surrogate (c : N) : bool := ((56320 <=? c) && (c <=? 57343))%N.

(** The inside of a JSON string: the quote, the backslash and the control
    characters are escaped, and so is a surrogate without its pair. *)
Fixpoint quote_json (t : text) : text :=
  match t with
  | [] => []
  | c :: r =>
      if (c =? 8)%N then 92%N :: 98%N :: quote_json r
      else if (c =? 9)%N then 92%N :: 116%N :: quote_json r
      else if (c =? 10)%N then 92%N :: 110%N :: quote_json r
      else if (c =? 12)%N then 92%N :: 102%N :: quote_json r
      else if (c =? 13)%N then 92%N :: 114%N :: quote_json r
      else if (c <? 32)%N then unicode_escape c ++ quote_json r
      else if (c =? 34)%N then 92%N :: 34%N :: quote_json r
      else if (c =? 92)%N then 92%N :: 92%N :: quote_json r
      else if is_high_surrogate c then
        match r with
        | d :: r' =>
            if is_low_surrogate d then c :: d :: quote_json r'
            else unicode_escape c ++ quote_json r
        | [] => unicode_escape c
        end
      else if is_low_surrogate c then unicode_escape c ++ quote_json r
      else c :: quote_json r
  end.

(** [JSON.stringify(value)] of a primitive; of undefined it is undefined
    ([None]).  The text of a number is that of [toString], for the safe
    integers. *)
Definition JSON_stringify_value (v : Value) : option text :=
  match v with
  | VUndefined => None
  | VStr t => Some (34%N :: quote_json t ++ [34%N])
  | _ => Some (toString v)
  end.

Fixpoint insert_by_size (x : text * nat) (sorted : list (text * nat))
  : list (text * nat) :=
  match sorted with
  | [] => [x]
  | h :: r =>
      if (snd h <=? snd x)%nat then x :: sorted
      else h :: insert_by_size x r
  end.

(** [list.sort((a, b) => b.size - a.size)]: by size, the larger first; the
    sort is stable, entries of one size keep their order. *)
Definition sort_by_size (l : list (text * nat)) : list (text * nat) :=
  fold_right insert_by_size [] l.

(** [entries.map(([key, entry]) => ({ key, size }))]; the length of an
    undefined value throws. *)
Fixpoint entry_sizes (m : list (text * Entry)) : Outcome (list (text * nat)) :=
  match m with
  | [] => Ret []
  | (k, e) :: r =>
      match JSON_stringify_value (value e) with
      | None => Throw TypeError
      | Some j =>
          match entry_sizes r with
          | Ret l => Ret ((k, length j) :: l)
          | Throw x => Throw x
          end
      end
  end.

(** [keysBySize(limit)] *)
Definition keysBySize (limit : nat) (s : State) : Outcome (list (text * nat)) :=
  match entry_sizes (store s) with
  | Ret l => Ret (firstn limit (sort_by_size l))
  | Throw x => Throw x
  end.

(** ** EXPORT *)

(** An element of the array that [export] and [getAllEntries] build. *)
Record ExportEntry : Type := {
  x_key : text;
  x_value : Value;
  x_timestamp : Z;
  x_encrypted : bool;
  x_ttl : option Z             (* null without an expiry *)
}.

(** [entry.expiry ? Math.max(0, Math.floor((entry.expiry - Date.now()) / 1000))
    : null] *)
Definition remaining_ttl (now : Z) (e : Entry) : option Z :=
  match expiry e with
  | Some x => if (x =? 0)%Z then None else Some (Z.max 0 ((x - now) / 1000))
  | None => None
  end.

(** The [map] over the entries of the store; [processValue] may throw. *)
Fixpoint export_entries (now : Z) (m : list (text * Entry))
  : Outcome (list ExportEntry) :=
  match m with
  | [] => Ret []
  | (k, e) :: r =>
      match processValue (value e) e with
      | Throw x => Throw x
      | Ret v =>
          match export_entries now r with
          | Throw x => Throw x
          | Ret l =>
              Ret ({| x_key := k; x_value := v; x_timestamp := timestamp e;
                      x_encrypted := encrypted e;
                      x_ttl := remaining_ttl now e |} :: l)
          end
      end
  end.

Definition getAllEntries (now : Z) (s : State) : Outcome (list ExportEntry) :=
  export_entries now (store s).

(** [array.join(sep)] *)
Fixpoint join (sep : text) (l : list text) : text :=
  match l with
  | [] => []
  | x :: r =>
      match r with
      | [] => x
      | _ :: _ => x ++ sep ++ join sep r
      end
  end.

Definition in_quotes (t : text) : text := 34%N :: t ++ [34%N].

(** [`"${e.key}","${e.value}","${e.timestamp}",${e.encrypted},${e.ttl}`] *)
Definition csv_line (e : ExportEntry) : text :=
  in_quotes (x_key e) ++ [44%N] ++ in_quotes (toString (x_value e))
  ++ [44%N] ++ in_quotes (toString (VNum (x_timestamp e)))
  ++ [44%N] ++ toString (VBool (x_encrypted e))
  ++ [44%N] ++ match x_ttl e with
               | Some t => toString (VNum t)
               | None => str "null"
               end.

Definition csv_header : text := str "Key,Value,Timestamp,Encrypted,TTL".

Definition export_csv (entries : list ExportEntry) : text :=
  join [10%N] (csv_header :: map csv_line entries).

(** [`${e.key} = ${e.value}`] *)
Definition txt_line (e : ExportEntry) : text :=
  x_key e ++ str " = " ++ toString (x_value e).

Definition export_txt (entries : list ExportEntry) : text :=
  join [10%N] (map txt_line entries).

Section Exporting.

(** [JSON.stringify(entries, null, 2)] (with [true]) and
    [JSON.stringify(entries)], the platform's. *)
Variable JSON_stringify : bool -> list ExportEntry -> text.

Definition export (now : Z) (format : text) (s : State) : Outcome text :=
  match getAllEntries now s with
  | Throw x => Throw x
  | Ret entries =>
      if text_eqb format (str "json") then Ret (JSON_stringify true entries)
      else if text_eqb format (str "csv") then Ret (export_csv entries)
      else if text_eqb format (str "txt") then Ret (export_txt entries)
      else Ret (JSON_stringify false entries)
  end.

End Exporting.

(** ** Auxiliary definitions of the further properties *)

(** The cache mirrors the store: an entry in the cache is the entry of the
    store for its key. *)
Definition cache_coherent (s : State) : Prop :=
  forall k e, JsMap.get k (cache s) = Some e -> JsMap.get k (store s) = Some e.

(** What the store alone answers to a read. *)
Definition stored_answer (now : Z) (key : text) (s : State) : Outcome Value :=
  match JsMap.get key (store s) with
  | Some e => if expired e now then Ret VNull else processValue (value e) e
  | None => Ret VNull
  end.

(** The blob of the medium is the snapshot of the state. *)
Definition in_sync (s : State) : Prop :=
  match blob s with
  | Some b =>
      snap_store b = store s /\ snap_encryptedKeys b = encryptedKeys s
      /\ snap_wal b = slice_last 1000 (wal s)
  | None => store s = [] /\ encryptedKeys s = [] /\ wal s = []
  end.

Definition is_clear (c : Call) : bool :=
  match c with CallClear => true | _ => false end.

(** The cache holds no more entries than its capacity [c]. *)
Definition within_capacity (c : nat) (s : State) : Prop :=
  cacheSize s = c /\ JsMap.size (cache s) <= c.

(** The counters balance: every operation that is counted in [totalOps]
    is counted once as a put, a get or a delete, and each read is counted
    once more as a get and as a hit or a miss. *)
Definition balanced (st : Stats) : Prop :=
  totalOps st + cacheHits st + cacheMisses st
  = putOps st + getOps st + deleteOps st.

(** How many of the calls are reads. *)
Definition reads (cs : list Call) : nat :=
  length (filter (fun c => match c with CallGet _ _ => true | _ => false end)
            cs).

(** A value that is null, a boolean or a number. *)
Definition is_scalar (v : Value) : bool :=
  match v with VNull | VBool _ | VNum _ => true | _ => false end.

(** The order of [sort()] and of [<=] on strings, as a relation. *)
Definition text_le (a b : text) : Prop := text_leb a b = true.

(** Larger sizes first. *)
Definition size_ge (a b : text * nat) : Prop := snd b <= snd a.


(** A text without the code unit [c]. *)
Definition free_of (c : N) (t : text) : Prop := ~ In c t.

(** What a delimited export keeps of an entry: the key and the text of
    the value, through [f]; the timestamp, the encryption flag and the
    time to live are not read back. *)
Definition kept (f : text -> text) (e : ExportEntry) : ImportEntry :=
  {| e_key := Some (f (x_key e));
     e_value := VStr (f (toString (x_value e)));
     e_ttl := None |}.

(** An entry whose key and value have no comma and no line feed. *)
Definition csv_clean (e : ExportEntry) : Prop :=
  free_of 44 (x_key e) /\ free_of 10 (x_key e)
  /\ free_of 44 (toString (x_value e)) /\ free_of 10 (toString (x_value e)).

(** An entry whose key and value have no equals sign and no line feed. *)
Definition txt_clean (e : ExportEntry) : Prop :=
  free_of 61 (x_key e) /\ free_of 10 (x_key e)
  /\ free_of 61 (toString (x_value e)) /\ free_of 10 (toString (x_value e)).

(** The store of the examples of the exports: a padded key, a number and
    an encrypted value. *)
Definition export_sample : State :=
  run [CallPut 1 (str " a ") (VStr (str "x y")) no_options;
       CallPut 2 (str "n") (VNum 7) (ttl_options 60);
       CallPut 3 (str "s") (VStr (str "pw"))
         {| opt_ttl := None; opt_encrypted := true; opt_compress := false |}]
    empty_state.


(** The entry that [get] consults has expired: the entry of the cache, or
    the entry of the store when the key is not in the cache. *)
Definition stale (now : Z) (key : text) (s : State) : bool :=
  match JsMap.get key (cache s) with
  | Some e => expired e now
  | None =>
      match JsMap.get key (store s) with
      | Some e => expired e now
      | None => false
      end
  end.

(** The entry that [exists] consults, the one of the store, has expired. *)
Definition stale_in_store (now : Z) (key : text) (s : State) : bool :=
  match JsMap.get key (store s) with
  | Some e => expired e now
  | None => false
  end.

(** The record [r] is one that the call [c], made on the state [s],
    appends to the log: the PUT record of a put that succeeds, or the
    DELETE record of a call of [delete], made by the client, by a read
    that finds an expired entry or by a timer that is due. *)
Definition appends (c : Call) (s : State) (r : WalRecord) : Prop :=
  match c with
  | CallPut now k v o =>
      fst (put now k v o s) = Ret true /\ r = put_record now k v o
  | CallDelete now k => r = delete_record now k
  | CallGet now k => stale now k s = true /\ r = delete_record now k
  | CallExists now k =>
      stale_in_store now k s = true /\ r = delete_record now k
  | RunTimers now =>
      exists d k, In (d, k) (timers s) /\ (d <= now)%Z
                  /\ r = delete_record now k
  | CallClear => False
  end.

(** A session of the log: a put with a time to live, a read after the
    expiry, a delete of the key that is gone and a put that is refused. *)
Definition logged_session : list Call :=
  [CallPut 0 (str "k") (VStr (str "a"))
     {| opt_ttl := Some 1%Z; opt_encrypted := false; opt_compress := false |};
   CallGet 5000 (str "k");
   CallDelete 6000 (str "k");
   CallPut 7000 [] (VStr (str "b")) no_options].

(** The numbers among the stored values are safe integers. *)
Definition values_safe (s : State) : Prop :=
  forall k e, In (k, e) (store s) -> safe_value (value e).

(** The numbers that a line of the CSV export prints are safe integers:
    the value, the timestamp and the time to live. *)
Definition numbers_safe (e : ExportEntry) : Prop :=
  safe_value (x_value e) /\ safe_integer (x_timestamp e)
  /\ match x_ttl e with Some t => safe_integer t | None => True end.

(* ================================================================== *)
(** * Properties *)

Unset Implicit Arguments.

(** ** Text and decimal numerals *)

Lemma text_eqb_refl (a : text) : text_eqb a a = true.
Proof. unfold text_eqb. destruct (text_eq_dec a a); congruence. Qed.

Lemma text_eqb_eq (a b : text) : text_eqb a b = true <-> a = b.
Proof.
  unfold text_eqb. destruct (text_eq_dec a b); split; congruence.
Qed.

Lemma text_eqb_neq (a b : text) : text_eqb a b = false <-> a <> b.
Proof.
  unfold text_eqb. destruct (text_eq_dec a b); split; congruence.
Qed.

Ltac break_cmp :=
  repeat match goal with
    | |- context [(?a <? ?b)%N] => destruct (N.ltb_spec a b)
    | |- context [(?a <=? ?b)%N] => destruct (N.leb_spec a b)
    | |- context [(?a =? ?b)%N] => destruct (N.eqb_spec a b)
    end; cbn [andb orb negb].

Lemma uint_of_text_of_uint (d : uint) : uint_of_text (text_of_uint d) = d.
Proof. induction d; simpl; congruence. Qed.

Lemma parseInt_decimal (n : nat) : parseInt (decimal n) = n.
Proof.
  unfold parseInt, decimal. rewrite uint_of_text_of_uint.
  apply DecimalNat.Unsigned.of_to.
Qed.

Lemma text_of_uint_digits (d : uint) :
  Forall (fun c => is_digit c = true) (text_of_uint d).
Proof. induction d; simpl; constructor; auto. Qed.

Lemma decimal_digits (n : nat) :
  Forall (fun c => is_digit c = true) (decimal n).
Proof. apply text_of_uint_digits. Qed.

Lemma decimal_nonempty (n : nat) : n <> 0 -> decimal n <> [].
Proof.
  intros Hn He. apply Hn. rewrite <- (parseInt_decimal n), He. reflexivity.
Qed.

(** ** Base64: [atob] inverts [btoa] *)

Module Base64Facts.
Import Base64.

(** Induction over a list three elements at a time. *)
Lemma list_ind3 (A : Type) (P : list A -> Prop) :
  P [] -> (forall a, P [a]) -> (forall a b, P [a; b]) ->
  (forall a b c l, P l -> P (a :: b :: c :: l)) ->
  forall l, P l.
Proof.
  intros H0 H1 H2 H3.
  assert (H : forall l, P l /\ (forall a, P (a :: l))
                        /\ (forall a b, P (a :: b :: l))).
  { induction l as [|x l (IH0 & IH1 & IH2)]; repeat split; auto. }
  intro l. apply H.
Qed.

Lemma encode_sextets (bs : text) :
  encode bs = map b64_char (sextets bs) ++ padding bs.
Proof.
  induction bs using list_ind3; try reflexivity.
  cbn [encode sextets padding map app]. now rewrite IHbs.
Qed.

Lemma b64_index_char (i : N) : (i < 64)%N -> b64_index (b64_char i) = Some i.
Proof.
  intro Hi. unfold b64_char.
  destruct (N.ltb_spec i 26);
    [|destruct (N.ltb_spec i 52);
      [|destruct (N.ltb_spec i 62); [|destruct (N.eqb_spec i 62)]]];
    unfold b64_index.
  - replace ((65 <=? 65 + i) && (65 + i <=? 90))%N with true
      by (symmetry; apply andb_true_intro; split; apply N.leb_le; lia).
    f_equal. lia.
  - replace ((65 <=? 97 + (i - 26)) && (97 + (i - 26) <=? 90))%N with false
      by (symmetry; apply andb_false_intro2, N.leb_gt; lia).
    replace ((97 <=? 97 + (i - 26)) && (97 + (i - 26) <=? 122))%N with true
      by (symmetry; apply andb_true_intro; split; apply N.leb_le; lia).
    f_equal. lia.
  - replace ((65 <=? 48 + (i - 52)) && (48 + (i - 52) <=? 90))%N with false
      by (symmetry; apply andb_false_intro1, N.leb_gt; lia).
    replace ((97 <=? 48 + (i - 52)) && (48 + (i - 52) <=? 122))%N with false
      by (symmetry; apply andb_false_intro1, N.leb_gt; lia).
    replace ((48 <=? 48 + (i - 52)) && (48 + (i - 52) <=? 57))%N with true
      by (symmetry; apply andb_true_intro; split; apply N.leb_le; lia).
    f_equal. lia.
  - subst i. reflexivity.
  - replace i with 63%N by lia. reflexivity.
Qed.

Lemma b64_index_not_space (c i : N) :
  b64_index c = Some i -> is_ascii_whitespace c = false.
Proof.
  intro H. unfold is_ascii_whitespace.
  destruct (N.eqb_spec c 9) as [-> | _]; [discriminate H|].
  destruct (N.eqb_spec c 10) as [-> | _]; [discriminate H|].
  destruct (N.eqb_spec c 12) as [-> | _]; [discriminate H|].
  destruct (N.eqb_spec c 13) as [-> | _]; [discriminate H|].
  destruct (N.eqb_spec c 32) as [-> | _]; [discriminate H|].
  reflexivity.
Qed.

Lemma b64_index_not_pad (c i : N) : b64_index c = Some i -> c <> 61%N.
Proof. intros H ->. discriminate H. Qed.

Lemma sextets_bound (bs : text) :
  Forall (fun c => c < 256)%N bs -> Forall (fun i => i < 64)%N (sextets bs).
Proof.
  induction bs using list_ind3; intro H; cbn [sextets].
  - constructor.
  - inversion_clear H. repeat constructor.
    + apply N.Div0.div_lt_upper_bound; lia.
    + pose proof (N.mod_upper_bound a 4). lia.
  - inversion_clear H. inversion_clear H1. repeat constructor.
    + apply N.Div0.div_lt_upper_bound; lia.
    + pose proof (N.mod_upper_bound a 4).
      assert (b / 16 < 16)%N by (apply N.Div0.div_lt_upper_bound; lia). lia.
    + pose proof (N.mod_upper_bound b 16). lia.
  - inversion_clear H. inversion_clear H1. inversion_clear H2.
    repeat constructor; auto.
    + apply N.Div0.div_lt_upper_bound; lia.
    + pose proof (N.mod_upper_bound a 4).
      assert (b / 16 < 16)%N by (apply N.Div0.div_lt_upper_bound; lia). lia.
    + pose proof (N.mod_upper_bound b 16).
      assert (c / 64 < 4)%N by (apply N.Div0.div_lt_upper_bound; lia). lia.
    + apply N.mod_upper_bound. lia.
Qed.

Lemma indices_chars (l : list N) :
  Forall (fun i => i < 64)%N l -> indices (map b64_char l) = Some l.
Proof.
  induction 1 as [|i l Hi _ IH]; simpl; [reflexivity|].
  now rewrite (b64_index_char i Hi), IH.
Qed.

Lemma chars_no_space (l : list N) :
  Forall (fun i => i < 64)%N l ->
  filter (fun c => negb (is_ascii_whitespace c)) (map b64_char l)
  = map b64_char l.
Proof.
  induction 1 as [|i l Hi _ IH]; simpl; [reflexivity|].
  rewrite (b64_index_not_space _ _ (b64_index_char i Hi)). simpl. now rewrite IH.
Qed.

Ltac div_mod_lia := zify; Z.to_euclidean_division_equations; lia.

Lemma decode_sextets (bs : text) :
  Forall (fun c => c < 256)%N bs -> decode (sextets bs) = Some bs.
Proof.
  induction bs using list_ind3; intro H; cbn [sextets decode].
  - reflexivity.
  - inversion_clear H. do 2 f_equal. div_mod_lia.
  - inversion_clear H. inversion_clear H1.
    do 2 f_equal; [|f_equal]; div_mod_lia.
  - inversion_clear H. inversion_clear H1. inversion_clear H2.
    rewrite (IHbs H3).
    do 2 f_equal; [|f_equal; [|f_equal]]; div_mod_lia.
Qed.

Lemma encode_length (bs : text) : exists k, length (encode bs) = 4 * k.
Proof.
  induction bs using list_ind3.
  - now exists 0.
  - now exists 1.
  - now exists 1.
  - destruct IHbs as [k Hk]. exists (S k). cbn [encode length].
    rewrite Hk. lia.
Qed.

Lemma chars_not_pad (l : list N) :
  Forall (fun i => i < 64)%N l ->
  Forall (fun c => (c =? 61)%N = false) (map b64_char l).
Proof.
  induction 1 as [|i l Hi _ IH]; simpl; constructor; auto.
  apply N.eqb_neq. exact (b64_index_not_pad _ _ (b64_index_char i Hi)).
Qed.

Lemma drop_pad_chars (r : text) :
  Forall (fun c => (c =? 61)%N = false) r -> drop_pad r = r.
Proof. destruct 1 as [|c r Hc _]; simpl; [reflexivity|]. now rewrite Hc. Qed.

Lemma padding_cases (bs : text) :
  padding bs = [] \/ padding bs = [61%N] \/ padding bs = [61%N; 61%N].
Proof. induction bs using list_ind3; cbn [padding]; auto. Qed.

Lemma padding_no_space (bs : text) :
  filter (fun c => negb (is_ascii_whitespace c)) (padding bs) = padding bs.
Proof. destruct (padding_cases bs) as [-> | [-> | ->]]; reflexivity. Qed.

Lemma strip_padding_encode (bs : text) :
  Forall (fun c => c < 256)%N bs ->
  strip_padding (encode bs) = map b64_char (sextets bs).
Proof.
  intro H. unfold strip_padding.
  destruct (encode_length bs) as [k ->].
  rewrite Nat.mul_comm, Nat.Div0.mod_mul. cbn [Nat.eqb].
  rewrite encode_sextets, rev_app_distr.
  pose proof (chars_not_pad _ (sextets_bound bs H)) as Hp.
  apply Forall_rev in Hp.
  destruct (padding_cases bs) as [-> | [-> | ->]];
    cbn [rev app drop_pad N.eqb Pos.eqb].
  - rewrite !(drop_pad_chars _ Hp). apply rev_involutive.
  - rewrite (drop_pad_chars _ Hp). apply rev_involutive.
  - apply rev_involutive.
Qed.

Lemma atob_encode (bs : text) :
  Forall (fun c => c < 256)%N bs -> atob (encode bs) = Some bs.
Proof.
  intro H. unfold atob.
  assert (Hf : filter (fun c => negb (is_ascii_whitespace c)) (encode bs)
               = encode bs).
  { rewrite encode_sextets, filter_app, chars_no_space
      by (apply sextets_bound; exact H).
    now rewrite padding_no_space. }
  rewrite Hf, strip_padding_encode, indices_chars
    by (try apply sextets_bound; exact H).
  apply decode_sextets; exact H.
Qed.

Lemma btoa_latin1 (t : text) :
  Forall (fun c => c < 256)%N t -> btoa t = Some (encode t).
Proof.
  intro H. unfold btoa.
  replace (forallb (fun c => (c <=? 255)%N) t) with true; [reflexivity|].
  symmetry. apply forallb_forall. intros c Hc.
  rewrite Forall_forall in H. apply N.leb_le. specialize (H c Hc). lia.
Qed.

End Base64Facts.

(** ** Crypto: [decrypt] inverts [encrypt] on text below 256 *)

Module CryptoFacts.
Import Crypto.

Lemma lxor_lt_256 (a b : N) : (a < 256 -> b < 256 -> N.lxor a b < 256)%N.
Proof.
  intros Ha Hb.
  destruct (N.eq_dec (N.lxor a b) 0) as [-> | Hx]; [lia|].
  change 256%N with (2 ^ 8)%N. apply N.log2_lt_pow2; [lia|].
  pose proof (N.log2_lxor a b) as Hl.
  assert (La : (N.log2 a < 8)%N).
  { destruct (N.eq_dec a 0) as [-> | ?]; [cbn; lia|].
    apply N.log2_lt_pow2; [lia | exact Ha]. }
  assert (Lb : (N.log2 b < 8)%N).
  { destruct (N.eq_dec b 0) as [-> | ?]; [cbn; lia|].
    apply N.log2_lt_pow2; [lia | exact Hb]. }
  lia.
Qed.

Lemma nth_Forall (P : N -> Prop) (l : list N) (d : N) (n : nat) :
  Forall P l -> P d -> P (nth n l d).
Proof.
  intros Hl Hd. revert n.
  induction Hl; intros [|n]; simpl; auto.
Qed.

Lemma defaultKey_latin1 : latin1 defaultKey.
Proof. unfold latin1. repeat constructor. Qed.

Lemma key_unit_lt (i : nat) :
  (nth (i mod length defaultKey) defaultKey 0 < 256)%N.
Proof. apply nth_Forall; [apply defaultKey_latin1 | lia]. Qed.

Lemma fromCharCode_small (n : N) : (n < 256)%N -> fromCharCode n = n.
Proof. intro H. unfold fromCharCode. apply N.mod_small. lia. Qed.

Lemma xor_from_latin1 (i : nat) (t : text) :
  latin1 t -> latin1 (xor_from i defaultKey t).
Proof.
  intro H. revert i. induction H as [|c t Hc _ IH]; intro i; cbn [xor_from].
  - constructor.
  - constructor; [|apply IH].
    rewrite fromCharCode_small; apply lxor_lt_256; auto using key_unit_lt.
Qed.

Lemma xor_from_involutive (i : nat) (t : text) :
  latin1 t -> xor_from i defaultKey (xor_from i defaultKey t) = t.
Proof.
  intro H. revert i. induction H as [|c t Hc _ IH]; intro i; cbn [xor_from].
  - reflexivity.
  - rewrite IH. f_equal.
    rewrite (fromCharCode_small (N.lxor c _))
      by (apply lxor_lt_256; auto using key_unit_lt).
    rewrite N.lxor_assoc, N.lxor_nilpotent, N.lxor_0_r.
    apply fromCharCode_small, Hc.
Qed.

Lemma encrypt_latin1 (t : text) :
  latin1 t -> encrypt (VStr t) = Ret (Base64.encode (xor_key t)).
Proof.
  intro H. unfold encrypt.
  now rewrite Base64Facts.btoa_latin1 by (apply xor_from_latin1, H).
Qed.

Lemma decrypt_encode (t : text) :
  latin1 t -> decrypt (VStr (Base64.encode (xor_key t))) = VStr t.
Proof.
  intro H. unfold decrypt. cbn [toString].
  rewrite Base64Facts.atob_encode by (apply xor_from_latin1, H).
  unfold xor_key. now rewrite xor_from_involutive.
Qed.

(** [btoa] refuses the text as soon as one code unit, once XORed, is above
    255; the key does not touch the bits above the low seven. *)
Lemma encrypt_throws (t : text) :
  Base64.btoa (xor_key t) = None ->
  encrypt (VStr t) = Throw InvalidCharacterError.
Proof. intro H. unfold encrypt. now rewrite H. Qed.

End CryptoFacts.

(** ** Compression: [decompress] inverts [compress] where no digit
       follows a code unit *)

Module CompressionFacts.
Import Compression.

Lemma compress_from_fuel (f1 : nat) :
  forall f2 t, length t <= f1 -> length t <= f2 ->
               compress_from f1 t = compress_from f2 t.
Proof.
  induction f1 as [|f1 IH]; intros [|f2] [|c r] H1 H2;
    cbn [length] in *; try lia; try reflexivity.
  cbn [compress_from].
  destruct (is_line_terminator c).
  - f_equal. apply IH; lia.
  - destruct (run_length c r) as [|n'].
    + f_equal. apply IH; lia.
    + f_equal. apply IH; rewrite length_skipn; lia.
Qed.

Lemma compress_nil : compress [] = [].
Proof. reflexivity. Qed.

Lemma compress_cons (c : N) (r : text) :
  compress (c :: r) =
  if is_line_terminator c then c :: compress r
  else match run_length c r with
       | O => c :: compress r
       | S n' =>
           (if (3 <? S (S n'))%nat then c :: decimal (S (S n'))
            else repeat c (S (S n')))
           ++ compress (skipn (S n') r)
       end.
Proof.
  unfold compress. cbn [length compress_from].
  destruct (is_line_terminator c); [reflexivity|].
  destruct (run_length c r) as [|n']; [reflexivity|].
  f_equal. apply compress_from_fuel; rewrite ?length_skipn; lia.
Qed.

Lemma take_digits_length (t : text) :
  length (snd (take_digits t)) <= length t.
Proof.
  induction t as [|d r IH]; cbn [take_digits]; [cbn; lia|].
  destruct (is_digit d); [|cbn; lia].
  destruct (take_digits r) as [ds rest]. cbn in *. lia.
Qed.

Lemma decompress_from_fuel (f1 : nat) :
  forall f2 t, length t <= f1 -> length t <= f2 ->
               decompress_from f1 t = decompress_from f2 t.
Proof.
  induction f1 as [|f1 IH]; intros [|f2] [|c r] H1 H2;
    cbn [length] in *; try lia; try reflexivity.
  cbn [decompress_from].
  destruct (is_line_terminator c).
  - f_equal. apply IH; lia.
  - pose proof (take_digits_length r) as Hl.
    destruct (take_digits r) as [[|d ds] rest]; cbn [snd] in Hl.
    + f_equal. apply IH; lia.
    + f_equal. apply IH; lia.
Qed.

Lemma decompress_cons (c : N) (r : text) :
  decompress (c :: r) =
  if is_line_terminator c then c :: decompress r
  else match take_digits r with
       | ([], _) => c :: decompress r
       | (ds, rest) => repeat c (parseInt ds) ++ decompress rest
       end.
Proof.
  unfold decompress. cbn [length decompress_from].
  destruct (is_line_terminator c); [reflexivity|].
  pose proof (take_digits_length r) as Hl.
  destruct (take_digits r) as [[|d ds] rest]; cbn [snd] in Hl;
    [reflexivity|].
  f_equal. apply decompress_from_fuel; lia.
Qed.

Lemma run_length_split (c : N) (r : text) :
  r = repeat c (run_length c r) ++ skipn (run_length c r) r.
Proof.
  induction r as [|d r IH]; cbn [run_length]; [reflexivity|].
  destruct (N.eqb_spec d c) as [-> | _]; [|reflexivity].
  cbn [repeat skipn app]. now rewrite <- IH.
Qed.

Lemma take_digits_none (t : text) :
  no_leading_digit t -> take_digits t = ([], t).
Proof.
  destruct t as [|c r]; cbn; [reflexivity|]. now intros ->.
Qed.

Lemma take_digits_app (ds t : text) :
  Forall (fun c => is_digit c = true) ds -> no_leading_digit t ->
  take_digits (ds ++ t) = (ds, t).
Proof.
  intros Hd Ht. induction Hd as [|d ds Hd _ IH]; cbn [app].
  - now apply take_digits_none.
  - cbn [take_digits]. now rewrite Hd, IH.
Qed.

(** The result of [compress] starts as the text does. *)
Lemma compress_head (t : text) :
  no_leading_digit t -> no_leading_digit (compress t).
Proof.
  destruct t as [|c r]; [trivial|]. intro Hc. rewrite compress_cons.
  destruct (is_line_terminator c); [exact Hc|].
  destruct (run_length c r) as [|n']; [exact Hc|].
  destruct (3 <? S (S n'))%nat; exact Hc.
Qed.

Lemma no_digit_head (t : text) : no_digit t -> no_leading_digit t.
Proof. destruct 1; cbn; auto. Qed.

Lemma decompress_literal (c : N) (m : nat) (t : text) :
  is_digit c = false -> no_leading_digit t ->
  decompress (repeat c m ++ t) = repeat c m ++ decompress t.
Proof.
  intros Hc Ht. induction m as [|m IH]; [reflexivity|].
  cbn [repeat app]. rewrite decompress_cons, IH.
  destruct (is_line_terminator c); [reflexivity|].
  rewrite take_digits_none; [reflexivity|].
  destruct m; [exact Ht | exact Hc].
Qed.

Lemma decompress_compress_no_digit (n : nat) :
  forall t, length t <= n -> no_digit t -> decompress (compress t) = t.
Proof.
  induction n as [|n IH]; intros [|c r] Hl Hd; cbn [length] in Hl;
    try reflexivity; try lia.
  inversion_clear Hd as [|? ? Hc Hr].
  rewrite compress_cons.
  assert (Hrest : forall k, decompress (compress (skipn k r)) = skipn k r).
  { intro k. apply IH; [rewrite length_skipn; lia|].
    unfold no_digit. rewrite <- (firstn_skipn k r) in Hr.
    now apply Forall_app in Hr. }
  assert (Hhead : forall k, no_leading_digit (compress (skipn k r))).
  { intro k. apply compress_head, no_digit_head.
    unfold no_digit. rewrite <- (firstn_skipn k r) in Hr.
    now apply Forall_app in Hr. }
  destruct (is_line_terminator c) eqn:Hlt.
  - rewrite decompress_cons, Hlt. f_equal. apply (Hrest 0).
  - pose proof (run_length_split c r) as Hsplit.
    destruct (run_length c r) as [|n'] eqn:Hrun.
    + rewrite decompress_cons, Hlt, take_digits_none by apply (Hhead 0).
      f_equal. apply (Hrest 0).
    + destruct (3 <? S (S n'))%nat.
      * cbn [app]. rewrite decompress_cons, Hlt.
        rewrite take_digits_app by (apply decimal_digits || apply Hhead).
        pose proof (decimal_nonempty (S (S n'))) as Hne.
        destruct (decimal (S (S n'))) as [|d ds] eqn:Hdec;
          [now elim Hne|].
        rewrite <- Hdec, parseInt_decimal, Hrest.
        cbn [repeat app]. f_equal. exact (eq_sym Hsplit).
      * rewrite decompress_literal by (exact Hc || apply Hhead).
        rewrite Hrest. cbn [repeat app]. f_equal. exact (eq_sym Hsplit).
Qed.

Lemma digit_not_line_terminator (c : N) :
  is_digit c = true -> is_line_terminator c = false.
Proof.
  unfold is_digit, is_line_terminator. break_cmp; try discriminate; lia.
Qed.

Lemma run_length_none (c : N) (r : text) :
  is_digit c = true -> no_digit r -> run_length c r = 0.
Proof.
  intros Hc [|d r' Hd _]; cbn [run_length]; [reflexivity|].
  destruct (N.eqb_spec d c) as [-> | _]; [congruence | reflexivity].
Qed.

Lemma decompress_compress (t : text) :
  no_inner_digit t -> decompress (compress t) = t.
Proof.
  destruct t as [|c r]; [reflexivity|]. cbn [no_inner_digit]. intro Hr.
  destruct (is_digit c) eqn:Hc.
  - rewrite compress_cons, (digit_not_line_terminator c Hc),
      (run_length_none c r Hc Hr).
    rewrite decompress_cons, (digit_not_line_terminator c Hc),
      take_digits_none by (apply compress_head, no_digit_head, Hr).
    f_equal. now apply (decompress_compress_no_digit (length r)).
  - apply (decompress_compress_no_digit (S (length r))); [reflexivity|].
    now constructor.
Qed.

End CompressionFacts.

(** ** Maps and sets *)

Module JsMapFacts.
Import JsMap.

Section Facts.
Variable V : Type.
Implicit Types (m : JsMap.t V) (k : text) (v : V).

Lemma get_set_eq k v m : get k (set k v m) = Some v.
Proof.
  induction m as [|[k' v'] m IH]; cbn [set get fst].
  - now rewrite text_eqb_refl.
  - destruct (text_eqb k' k) eqn:E; cbn [get].
    + now rewrite text_eqb_refl.
    + now rewrite E.
Qed.

Lemma get_set_ne k k0 v m : k <> k0 -> get k0 (set k v m) = get k0 m.
Proof.
  intro Hne. induction m as [|[k' v'] m IH]; cbn [set get].
  - apply text_eqb_neq in Hne. now rewrite Hne.
  - destruct (text_eqb k' k) eqn:E; cbn [get].
    + apply text_eqb_eq in E. subst k'.
      apply text_eqb_neq in Hne. now rewrite Hne.
    + now rewrite IH.
Qed.

Lemma get_delete_eq k m : get k (delete k m) = None.
Proof.
  induction m as [|[k' v'] m IH]; cbn [delete filter get fst];
    [reflexivity|].
  destruct (text_eqb k' k) eqn:E; cbn [negb get]; [exact IH|].
  now rewrite E.
Qed.

Lemma get_delete_ne k k0 m : k <> k0 -> get k0 (delete k m) = get k0 m.
Proof.
  intro Hne. induction m as [|[k' v'] m IH]; cbn [delete filter get fst];
    [reflexivity|].
  destruct (text_eqb k' k) eqn:E; cbn [negb get].
  - apply text_eqb_eq in E. subst k'.
    apply text_eqb_neq in Hne. now rewrite Hne.
  - now rewrite <- IH.
Qed.

Lemma get_none_keys k m : get k m = None <-> ~ In k (keys m).
Proof.
  induction m as [|[k' v'] m IH]; cbn [get keys map fst In].
  - tauto.
  - destruct (text_eqb k' k) eqn:E.
    + apply text_eqb_eq in E. split; [discriminate | tauto].
    + apply text_eqb_neq in E. tauto.
Qed.

Lemma set_fresh k v m : get k m = None -> set k v m = m ++ [(k, v)].
Proof.
  induction m as [|[k' v'] m IH]; cbn [get set app]; [reflexivity|].
  destruct (text_eqb k' k); [discriminate|].
  intro H. now rewrite IH.
Qed.

Lemma delete_fresh k m : ~ In k (keys m) -> delete k m = m.
Proof.
  induction m as [|[k' v'] m IH]; cbn [delete filter keys map fst In];
    [reflexivity|].
  intro H. destruct (text_eqb k' k) eqn:E.
  - apply text_eqb_eq in E. tauto.
  - cbn [negb]. f_equal. apply IH. tauto.
Qed.

Lemma has_get k m : has k m = true <-> get k m <> None.
Proof. unfold has. destruct (get k m); split; congruence. Qed.

End Facts.
End JsMapFacts.

Module JsSetFacts.
Import JsSet.

Lemma has_In (k : text) (s : JsSet.t) : has k s = true <-> In k s.
Proof.
  unfold has. rewrite existsb_exists. split.
  - intros (k' & Hin & E). apply text_eqb_eq in E. now subst.
  - intro Hin. exists k. split; [exact Hin | apply text_eqb_refl].
Qed.

Lemma has_add (k : text) (s : JsSet.t) : has k (add k s) = true.
Proof.
  unfold add. destruct (has k s) eqn:E; [exact E|].
  apply has_In, in_or_app. right. now left.
Qed.

Lemma has_delete (k : text) (s : JsSet.t) : has k (delete k s) = false.
Proof.
  destruct (has k (delete k s)) eqn:E; [|reflexivity].
  apply has_In in E. unfold delete in E. apply filter_In in E.
  destruct E as [_ E]. now rewrite text_eqb_refl in E.
Qed.

End JsSetFacts.

(** ** [put] and [delete], step by step *)

Lemma put_rejected (now : Z) (key : text) (v : Value) (o : Options)
  (s : State) :
  put_accepts key v o = false ->
  exists e, put now key v o s = (Throw e, s).
Proof.
  unfold put_accepts, put.
  destruct key as [|c k]; [eauto|].
  destruct v; eauto; destruct (opt_encrypted o); try discriminate;
    destruct (Crypto.encrypt _); try discriminate; eauto.
Qed.

(** The state after an accepted [put], written out. *)
Lemma put_accepted (now : Z) (key : text) (v : Value) (o : Options)
  (s : State) :
  put_accepts key v o = true ->
  put now key v o s =
  (Ret true,
   let s1 := if opt_encrypted o
             then with_encryptedKeys (JsSet.add key (encryptedKeys s)) s
             else s in
   let s2 := with_wal (wal s1 ++ [put_record now key v o]) s1 in
   let s3 := match timer_of now o with
             | Some due => with_timers (schedule due key (timers s2)) s2
             | None => s2
             end in
   let s4 := with_store (JsMap.set key (entry_of now v o) (store s3)) s3 in
   recordStats StatPut (persist (updateCache key (entry_of now v o) s4))).
Proof.
  unfold put_accepts, put, put_record, entry_of, stored_value, expiry_of,
    timer_of.
  destruct key as [|c k]; [discriminate|].
  destruct v; try discriminate; intros Hacc;
    destruct (opt_encrypted o); cbn [Crypto.encrypt] in *;
    try discriminate;
    try (destruct (Base64.btoa _); try discriminate);
    destruct (opt_ttl o) as [secs|]; try destruct (0 <? secs)%Z;
    destruct (opt_compress o); reflexivity.
Qed.

Lemma put_cache_get (now : Z) (key : text) (v : Value) (o : Options)
  (s : State) :
  put_accepts key v o = true ->
  JsMap.get key (cache (snd (put now key v o s))) = Some (entry_of now v o).
Proof.
  intro H. rewrite (put_accepted now key v o s H). cbn.
  apply JsMapFacts.get_set_eq.
Qed.

Lemma put_store_get (now : Z) (key : text) (v : Value) (o : Options)
  (s : State) :
  put_accepts key v o = true ->
  JsMap.get key (store (snd (put now key v o s))) = Some (entry_of now v o).
Proof.
  intro H. rewrite (put_accepted now key v o s H). cbn.
  destruct (timer_of now o); destruct (opt_encrypted o); cbn;
    apply JsMapFacts.get_set_eq.
Qed.

Lemma get_hit (now : Z) (key : text) (e : Entry) (s : State) :
  JsMap.get key (cache s) = Some e -> expired e now = false ->
  get now key s =
  (processValue (value e) e, recordStats StatGet (count_hit (count_get s))).
Proof. intros Hc He. unfold get. cbn [count_get with_stats cache]. now rewrite Hc, He. Qed.

Lemma get_hit_expired (now : Z) (key : text) (e : Entry) (s : State) :
  JsMap.get key (cache s) = Some e -> expired e now = true ->
  get now key s = (Ret VNull, snd (delete now key (count_hit (count_get s)))).
Proof. intros Hc He. unfold get. cbn [count_get with_stats cache]. now rewrite Hc, He. Qed.

Lemma get_absent (now : Z) (key : text) (s : State) :
  JsMap.get key (cache s) = None -> JsMap.get key (store s) = None ->
  get now key s = (Ret VNull, recordStats StatGet (count_miss (count_get s))).
Proof.
  intros Hc Hs. unfold get.
  cbn [count_get count_miss with_stats cache store]. now rewrite Hc, Hs.
Qed.

Lemma get_miss (now : Z) (key : text) (e : Entry) (s : State) :
  JsMap.get key (cache s) = None -> JsMap.get key (store s) = Some e ->
  get now key s =
  if expired e now
  then (Ret VNull, snd (delete now key (count_miss (count_get s))))
  else (processValue (value e) e,
        recordStats StatGet
          (updateCache key e (count_miss (count_get s)))).
Proof.
  intros Hc Hs. unfold get.
  cbn [count_get count_miss with_stats cache store]. now rewrite Hc, Hs.
Qed.

(** ** What is rejected by [put] *)

Lemma put_invalid_iff (now : Z) (key : text) (v : Value) (o : Options)
  (s : State) :
  fst (put now key v o s) = Throw (Error_ "Invalid key or value")
  <-> key = [] \/ v = VUndefined.
Proof.
  destruct (put_accepts key v o) eqn:Hacc.
  - rewrite (put_accepted now key v o s Hacc). cbn [fst].
    split; [discriminate|].
    intros [-> | ->]; [discriminate Hacc|].
    destruct key; discriminate Hacc.
  - unfold put. destruct key as [|c k]; [cbn; tauto|].
    destruct v; cbn [fst]; try tauto;
      (split; [|intros [? | ?]; discriminate]);
      unfold put_accepts in Hacc;
      destruct (opt_encrypted o); try discriminate Hacc;
      cbn [Crypto.encrypt] in *; try discriminate;
      destruct (Base64.btoa _); discriminate.
Qed.

Lemma put_outcome (now : Z) (key : text) (v : Value) (o : Options)
  (s : State) :
  fst (put now key v o s) = Ret true
  \/ exists e, put now key v o s = (Throw e, s).
Proof.
  destruct (put_accepts key v o) eqn:Hacc.
  - left. now rewrite (put_accepted now key v o s Hacc).
  - right. now apply put_rejected.
Qed.

(** C8.  [put] throws the error ['Invalid key or value'] exactly when the
    key is empty or the value is undefined; and a call of [put] either
    succeeds or throws and leaves the whole state (the store, the cache,
    the write log and the encrypted-key set among it) as it was.  The
    exception is the outcome of the call itself. *)
Theorem put_validation (now : Z) (key : text) (v : Value) (o : Options)
  (s : State) :
  (fst (put now key v o s) = Throw (Error_ "Invalid key or value")
   <-> key = [] \/ v = VUndefined)
  /\ (fst (put now key v o s) = Ret true
      \/ exists e, put now key v o s = (Throw e, s)).
Proof. split; [apply put_invalid_iff | apply put_outcome]. Qed.

(** ** A stored null *)

(** C10.  For a non-empty key, [put(k, null)] succeeds, as does the put of
    any value other than undefined, which alone is rejected; the [get]
    that follows returns null, which is also what [get] returns for a key
    that is in neither the cache nor the store. *)
Theorem put_null_get_null (now now' : Z) (key : text) (v : Value)
  (s : State) (key0 : text) (s0 : State) :
  key <> [] -> v <> VUndefined ->
  JsMap.get key0 (cache s0) = None -> JsMap.get key0 (store s0) = None ->
  fst (put now key VNull no_options s) = Ret true
  /\ fst (get now' key (snd (put now key VNull no_options s))) = Ret VNull
  /\ fst (get now' key0 s0) = Ret VNull
  /\ fst (put now key v no_options s) = Ret true
  /\ fst (put now key VUndefined no_options s)
     = Throw (Error_ "Invalid key or value").
Proof.
  intros Hk Hv Hc0 Hs0.
  assert (Hacc : forall w, w <> VUndefined -> put_accepts key w no_options = true).
  { intros w Hw. destruct key; [congruence|].
    destruct w; try reflexivity; congruence. }
  assert (Hnull : VNull <> VUndefined) by discriminate.
  repeat split.
  - now rewrite (put_accepted now key VNull no_options s (Hacc _ Hnull)).
  - rewrite (get_hit now' key (entry_of now VNull no_options)).
    + reflexivity.
    + apply put_cache_get, Hacc, Hnull.
    + reflexivity.
  - now rewrite (get_absent now' key0 s0 Hc0 Hs0).
  - now rewrite (put_accepted now key v no_options s (Hacc _ Hv)).
  - apply put_invalid_iff. now right.
Qed.

Lemma put_null_get_null_witness :
  fst (put 0 (str "k") VNull no_options empty_state) = Ret true
  /\ fst (get 1 (str "k") (snd (put 0 (str "k") VNull no_options empty_state)))
     = Ret VNull
  /\ fst (get 1 (str "absent") empty_state) = Ret VNull
  /\ fst (put 0 (str "k") (VNum 0) no_options empty_state) = Ret true
  /\ fst (put 0 (str "k") VUndefined no_options empty_state)
     = Throw (Error_ "Invalid key or value").
Proof.
  apply (put_null_get_null 0 1 (str "k") (VNum 0) empty_state
           (str "absent") empty_state);
    [discriminate | discriminate | reflexivity | reflexivity].
Defined.

(** ** The write log *)

Lemma slice_last_length (A : Type) (n : nat) (l : list A) :
  length (slice_last n l) <= n.
Proof. unfold slice_last. rewrite length_skipn. lia. Qed.

Lemma slice_last_short (A : Type) (n : nat) (l : list A) :
  length l <= n -> slice_last n l = l.
Proof.
  intro H. unfold slice_last. replace (length l - n) with 0 by lia.
  reflexivity.
Qed.

(** What [persist] writes holds the last 1000 records of the log at most. *)
Lemma persist_wal_tail (s : State) :
  medium s (snapshot s) = true ->
  exists b, blob (persist s) = Some b
            /\ snap_wal b = slice_last 1000 (wal s)
            /\ length (snap_wal b) <= 1000.
Proof.
  intro H. exists (snapshot s). unfold persist. cbn [blob with_blob].
  rewrite H. split; [reflexivity|]. split; [reflexivity|].
  apply slice_last_length.
Qed.

Lemma delete_wal (now : Z) (key : text) (s : State) :
  wal (snd (delete now key s)) = wal s ++ [delete_record now key].
Proof. reflexivity. Qed.

Lemma put_wal (now : Z) (key : text) (v : Value) (o : Options) (s : State) :
  put_accepts key v o = true ->
  wal (snd (put now key v o s)) = wal s ++ [put_record now key v o].
Proof.
  intro H. rewrite (put_accepted now key v o s H). cbn.
  destruct (timer_of now o); destruct (opt_encrypted o); reflexivity.
Qed.

Lemma get_wal (now : Z) (key : text) (s : State) :
  wal (snd (get now key s))
  = if stale now key s then wal s ++ [delete_record now key] else wal s.
Proof.
  unfold stale.
  destruct (JsMap.get key (cache s)) as [e|] eqn:Hc.
  - destruct (expired e now) eqn:He.
    + now rewrite (get_hit_expired now key e s Hc He).
    + now rewrite (get_hit now key e s Hc He).
  - destruct (JsMap.get key (store s)) as [e|] eqn:Hs.
    + rewrite (get_miss now key e s Hc Hs). now destruct (expired e now).
    + now rewrite (get_absent now key s Hc Hs).
Qed.

Lemma exists_wal (now : Z) (key : text) (s : State) :
  wal (snd (exists_ now key s))
  = if stale_in_store now key s then wal s ++ [delete_record now key]
    else wal s.
Proof.
  unfold exists_, stale_in_store.
  destruct (JsMap.get key (store s)) as [e|]; [|reflexivity].
  now destruct (expired e now).
Qed.

Lemma run_timers_wal (now : Z) (s : State) :
  wal (run_timers now s)
  = wal s ++ map (fun t => delete_record now (snd t))
               (filter (fun t => (fst t <=? now)%Z) (timers s)).
Proof.
  unfold run_timers.
  change (wal s)
    with (wal (with_timers
                 (filter (fun t => negb (fst t <=? now)%Z) (timers s)) s)).
  generalize (with_timers
                (filter (fun t => negb (fst t <=? now)%Z) (timers s)) s).
  induction (filter (fun t => (fst t <=? now)%Z) (timers s))
    as [|t due IH]; intro x; cbn [fold_left map].
  - now rewrite app_nil_r.
  - rewrite IH, delete_wal, <- app_assoc. reflexivity.
Qed.

(** What one call adds to the log. *)
Lemma call_appends (c : Call) (s : State) (r : WalRecord) :
  In r (wal (call c s)) -> In r (wal s) \/ appends c s r.
Proof.
  destruct c as [now k v o | now k | now k | now k | | now];
    cbn [call appends].
  - destruct (put_accepts k v o) eqn:Hacc.
    + rewrite (put_wal now k v o s Hacc). intro Hin.
      apply in_app_or in Hin as [Hin | [<- | []]]; [now left|].
      right. split; [|reflexivity].
      now rewrite (put_accepted now k v o s Hacc).
    + destruct (put_rejected now k v o s Hacc) as [e ->]. now left.
  - rewrite get_wal. destruct (stale now k s); [|now left].
    intro Hin. apply in_app_or in Hin as [Hin | [<- | []]]; auto.
  - rewrite delete_wal. intro Hin.
    apply in_app_or in Hin as [Hin | [<- | []]]; auto.
  - rewrite exists_wal. destruct (stale_in_store now k s); [|now left].
    intro Hin. apply in_app_or in Hin as [Hin | [<- | []]]; auto.
  - intros [].
  - rewrite run_timers_wal. intro Hin.
    apply in_app_or in Hin as [Hin | Hin]; [now left|].
    apply in_map_iff in Hin as ([d k] & <- & Hf).
    apply filter_In in Hf as [Hf Hd]. cbn [fst] in Hd.
    apply Z.leb_le in Hd. right. exists d, k. auto.
Qed.

Lemma run_appends (cs : list Call) (s : State) (r : WalRecord) :
  In r (wal (run cs s)) ->
  In r (wal s)
  \/ exists pre c post, cs = pre ++ c :: post /\ appends c (run pre s) r.
Proof.
  revert s. induction cs as [|c cs IH]; intros s Hin; [now left|].
  change (run (c :: cs) s) with (run cs (call c s)) in Hin.
  destruct (IH _ Hin) as [H | (pre & c' & post & -> & H)].
  - destruct (call_appends c s r H) as [H' | H']; [now left|].
    right. exists [], c, cs. split; [reflexivity | exact H'].
  - right. exists (c :: pre), c', post. split; [reflexivity | exact H].
Qed.

(** C9, as the code has it.  Every record of the log was appended by a
    call: it was in the log before, or it is the PUT record of a [put]
    that has succeeded, or the DELETE record of a call of [delete], which
    the client has made, or a read of an entry that had expired, or a
    timer that was due.

    [delete] appends its DELETE record before it looks at the store: the
    record is there whether or not the key was, and the result of the
    call tells which.  A [put] that succeeds appends one PUT record, with
    the value as stored; a [put] that throws appends nothing.  A read
    appends the DELETE record of the delete it makes for an expired
    entry, and nothing otherwise. *)
Theorem wal_records_calls (cs : list Call) (now : Z) (key : text)
  (v : Value) (o : Options) (s : State) :
  (forall r, In r (wal (run cs s)) ->
     In r (wal s)
     \/ exists pre c post, cs = pre ++ c :: post /\ appends c (run pre s) r)
  /\ wal (snd (delete now key s)) = wal s ++ [delete_record now key]
  /\ fst (delete now key s) = JsMap.has key (store s)
  /\ ((fst (put now key v o s) = Ret true
       /\ wal (snd (put now key v o s)) = wal s ++ [put_record now key v o])
      \/ exists e, put now key v o s = (Throw e, s))
  /\ wal (snd (get now key s))
     = (if stale now key s then wal s ++ [delete_record now key] else wal s)
  /\ wal (snd (exists_ now key s))
     = (if stale_in_store now key s then wal s ++ [delete_record now key]
        else wal s).
Proof.
  split; [intro r; apply run_appends|].
  split; [reflexivity|]. split; [reflexivity|].
  split; [|split; [apply get_wal | apply exists_wal]].
  destruct (put_accepts key v o) eqn:Hacc.
  - left. split; [|now apply put_wal].
    now rewrite (put_accepted now key v o s Hacc).
  - right. now apply put_rejected.
Qed.

(** The log of a session: the put, the delete that the read of the
    expired entry has made and the delete of the client; the put that was
    refused has left no record.  The second record is traced to the
    read. *)
Lemma wal_records_calls_witness :
  wal (run logged_session empty_state)
  = [put_record 0 (str "k") (VStr (str "a")) (ttl_options 1);
     delete_record 5000 (str "k"); delete_record 6000 (str "k")]
  /\ exists pre c post,
       logged_session = pre ++ c :: post
       /\ appends c (run pre empty_state) (delete_record 5000 (str "k")).
Proof.
  split; [reflexivity|].
  destruct (proj1 (wal_records_calls logged_session 0 [] VNull no_options
                     empty_state)
              (delete_record 5000 (str "k"))) as [[] | H].
  - cbn. auto.
  - exact H.
Defined.

(** C9, counterexample.  On the empty store [delete('x')] reports
    [success = false], and the log has one record more. *)
Lemma delete_absent_is_logged :
  JsMap.has (str "x") (store empty_state) = false
  /\ fst (delete 0 (str "x") empty_state) = false
  /\ wal (snd (delete 0 (str "x") empty_state))
     = wal empty_state ++ [delete_record 0 (str "x")]
  /\ wal (snd (delete 0 (str "x") empty_state)) <> wal empty_state.
Proof. repeat split. discriminate. Qed.

(** C2, the code at 1001 puts.  The log in memory has 1001 records and
    still starts with the first one; only the copy that [persist] writes
    is cut to the last 1000 and has lost it. *)
Theorem wal_grows_past_1000 :
  let s := run thousand_and_one_puts empty_state in
  length (wal s) = 1001
  /\ hd_error (wal s)
     = Some (put_record 0 (str "first") (VStr (str "v")) no_options)
  /\ option_map (fun b => length (snap_wal b)) (blob s) = Some 1000
  /\ option_map
       (fun b => existsb (fun r => text_eqb (w_key r) (str "first"))
                   (snap_wal b)) (blob s) = Some false.
Proof. vm_compute. repeat split. Qed.

(** ** The encrypted-key set *)

(** C3, the code at an encrypted put followed by a plain put of the same
    key: the entry is flagged [encrypted = false] and the key is still in
    [encryptedKeys]. *)
Theorem encrypted_key_stale :
  let s := run overwrite_encrypted empty_state in
  option_map encrypted (JsMap.get (str "k") (store s)) = Some false
  /\ JsSet.has (str "k") (encryptedKeys s) = true.
Proof. vm_compute. split; reflexivity. Qed.

Lemma has_add_other (k key : text) (ks : JsSet.t) :
  JsSet.has k ks = true -> JsSet.has k (JsSet.add key ks) = true.
Proof.
  intro H. unfold JsSet.add. destruct (JsSet.has key ks); [exact H|].
  apply JsSetFacts.has_In, in_or_app. left. now apply JsSetFacts.has_In.
Qed.

Lemma has_delete_other (k key : text) (ks : JsSet.t) :
  key <> k -> JsSet.has k ks = true -> JsSet.has k (JsSet.delete key ks) = true.
Proof.
  intros Hne H. apply JsSetFacts.has_In. apply JsSetFacts.has_In in H.
  unfold JsSet.delete. apply filter_In. split; [exact H|].
  apply negb_true_iff, text_eqb_neq. congruence.
Qed.

Ltac state_simpl :=
  cbn [delete fst snd store cache wal encryptedKeys timers blob stats
         cacheSize with_store with_cache with_wal with_encryptedKeys
         with_timers with_blob with_stats persist recordStats updateCache].

Lemma delete_keeps_cover (now : Z) (key : text) (s : State) :
  encrypted_entries_in_set s ->
  encrypted_entries_in_set (snd (delete now key s)).
Proof.
  intros Hs k e. state_simpl. intros Hg He.
  destruct (text_eq_dec key k) as [-> | Hne].
  - now rewrite JsMapFacts.get_delete_eq in Hg.
  - rewrite JsMapFacts.get_delete_ne in Hg by exact Hne.
    apply has_delete_other; [exact Hne|]. exact (Hs k e Hg He).
Qed.

Lemma put_keeps_cover (now : Z) (key : text) (v : Value) (o : Options)
  (s : State) :
  encrypted_entries_in_set s ->
  encrypted_entries_in_set (snd (put now key v o s)).
Proof.
  intro Hs. destruct (put_accepts key v o) eqn:Hacc.
  - rewrite (put_accepted now key v o s Hacc). intros k e. cbn zeta.
    unfold entry_of.
    destruct (timer_of now o), (opt_encrypted o); state_simpl;
      (destruct (text_eq_dec key k) as [-> | Hne];
       [rewrite JsMapFacts.get_set_eq; intros [= <-]; cbn [encrypted];
        intro He; try discriminate He; apply JsSetFacts.has_add
       |rewrite JsMapFacts.get_set_ne by exact Hne; intros Hg He;
        try apply has_add_other; eauto]).
  - destruct (put_rejected now key v o s Hacc) as [e ->]. exact Hs.
Qed.

Lemma get_keeps_cover (now : Z) (key : text) (s : State) :
  encrypted_entries_in_set s ->
  encrypted_entries_in_set (snd (get now key s)).
Proof.
  intro Hs.
  assert (Hd : forall x, store x = store s -> encryptedKeys x = encryptedKeys s
                         -> encrypted_entries_in_set (snd (delete now key x))).
  { intros x Hx Hk. apply delete_keeps_cover. intros k e.
    rewrite Hx, Hk. apply Hs. }
  destruct (JsMap.get key (cache s)) as [e|] eqn:Hc.
  - destruct (expired e now) eqn:He.
    + rewrite (get_hit_expired now key e s Hc He). now apply Hd.
    + rewrite (get_hit now key e s Hc He). exact Hs.
  - destruct (JsMap.get key (store s)) as [e|] eqn:Hst.
    + rewrite (get_miss now key e s Hc Hst).
      destruct (expired e now); [now apply Hd | exact Hs].
    + rewrite (get_absent now key s Hc Hst). exact Hs.
Qed.

Lemma run_timers_keeps_cover (now : Z) (s : State) :
  encrypted_entries_in_set s -> encrypted_entries_in_set (run_timers now s).
Proof.
  unfold run_timers. intro Hs.
  assert (H0 : encrypted_entries_in_set
                 (with_timers
                    (filter (fun t => negb (fst t <=? now)%Z) (timers s)) s))
    by exact Hs.
  revert H0.
  generalize (with_timers
                (filter (fun t => negb (fst t <=? now)%Z) (timers s)) s).
  induction (filter (fun t => (fst t <=? now)%Z) (timers s)) as [|t due IH];
    intros x Hx; cbn [fold_left]; [exact Hx|].
  apply IH. now apply delete_keeps_cover.
Qed.

(** Every call keeps the keys of the entries flagged [encrypted] in the
    set; the converse is what the plain put of an encrypted key breaks. *)
Lemma run_keeps_cover (cs : list Call) :
  forall s,
    encrypted_entries_in_set s -> encrypted_entries_in_set (run cs s).
Proof.
  induction cs as [|c cs IH]; intros s Hs; [exact Hs|].
  change (run (c :: cs) s) with (run cs (call c s)). apply IH.
  destruct c as [now k v o | now k | now k | now k | | now]; cbn [call].
  - now apply put_keeps_cover.
  - now apply get_keeps_cover.
  - now apply delete_keeps_cover.
  - unfold exists_. destruct (JsMap.get k (store s)) as [e|]; [|exact Hs].
    destruct (expired e now); [now apply delete_keeps_cover | exact Hs].
  - intros k e. cbn. discriminate.
  - now apply run_timers_keeps_cover.
Qed.

(** Accepted puts make the log longer, one record each, without end. *)
Lemma wal_length_puts (ps : list PutArgs) :
  forall s,
    Forall p_accepted ps ->
    length (wal (run (map put_call ps) s)) = length (wal s) + length ps.
Proof.
  induction ps as [|p ps IH]; intros s Hacc; cbn [map length].
  - cbn. lia.
  - inversion_clear Hacc as [|? ? Hp Hps].
    change (run (put_call p :: map put_call ps) s)
      with (run (map put_call ps)
              (snd (put (p_now p) (p_key p) (p_value p) (p_options p) s))).
    rewrite (IH _ Hps), (put_wal _ _ _ _ s Hp), length_app. cbn [length]. lia.
Qed.

(** ** The cache *)

Lemma put_cache (now : Z) (key : text) (v : Value) (o : Options) (s : State) :
  put_accepts key v o = true ->
  cache (snd (put now key v o s))
  = JsMap.set key (entry_of now v o)
      (if (cacheSize s <=? JsMap.size (cache s))%nat then
         match cache s with
         | (firstKey, _) :: _ => JsMap.delete firstKey (cache s)
         | [] => cache s
         end
       else cache s)
  /\ cacheSize (snd (put now key v o s)) = cacheSize s.
Proof.
  intro H. rewrite (put_accepted now key v o s H). cbn.
  destruct (timer_of now o); destruct (opt_encrypted o); cbn; auto.
Qed.

(** Below capacity, puts of new keys queue up behind the cache. *)
Lemma puts_fill_cache (ps : list PutArgs) :
  forall s,
    Forall p_accepted ps ->
    NoDup (JsMap.keys (cache s) ++ map p_key ps) ->
    length (cache s) + length ps <= cacheSize s ->
    cache (run (map put_call ps) s) = cache s ++ map p_binding ps
    /\ cacheSize (run (map put_call ps) s) = cacheSize s.
Proof.
  induction ps as [|p ps IH]; intros s Hacc Hnd Hlen.
  - cbn. now rewrite app_nil_r.
  - inversion_clear Hacc as [|? ? Hp Hps].
    cbn [map run fold_left put_call call length] in *.
    destruct (put_cache (p_now p) (p_key p) (p_value p) (p_options p) s Hp)
      as [Hc Hsz].
    assert (Hfull : (cacheSize s <=? JsMap.size (cache s))%nat = false).
    { apply Nat.leb_gt. unfold JsMap.size. lia. }
    rewrite Hfull in Hc.
    assert (Hfresh : JsMap.get (p_key p) (cache s) = None).
    { apply JsMapFacts.get_none_keys. intro Hin.
      apply NoDup_remove_2 in Hnd. apply Hnd, in_or_app. now left. }
    rewrite JsMapFacts.set_fresh in Hc by exact Hfresh.
    change (fold_left (fun st c => call c st) (map put_call ps)
              (snd (put (p_now p) (p_key p) (p_value p) (p_options p) s)))
      with (run (map put_call ps)
              (snd (put (p_now p) (p_key p) (p_value p) (p_options p) s))).
    destruct (IH (snd (put (p_now p) (p_key p) (p_value p) (p_options p) s)))
      as [IHc IHsz].
    + exact Hps.
    + rewrite Hc. unfold JsMap.keys in *. rewrite map_app. cbn [map fst].
      rewrite <- app_assoc. exact Hnd.
    + rewrite Hc, Hsz, length_app. cbn [length]. lia.
    + rewrite IHc, IHsz, Hc, Hsz, <- app_assoc. auto.
Qed.

(** A hit on an entry that has not expired leaves the cache alone. *)
Lemma get_hit_cache (now : Z) (key : text) (e : Entry) (s : State) :
  JsMap.get key (cache s) = Some e -> expired e now = false ->
  cache (snd (get now key s)) = cache s
  /\ cacheSize (snd (get now key s)) = cacheSize s.
Proof. intros Hc He. now rewrite (get_hit now key e s Hc He). Qed.

Lemma get_binding (bs : list (text * Entry)) (key : text) (e : Entry) :
  JsMap.get key bs = Some e -> In (key, e) bs.
Proof.
  induction bs as [|[k' e'] bs IH]; cbn [JsMap.get]; [discriminate|].
  destruct (text_eqb k' key) eqn:E.
  - apply text_eqb_eq in E. intros [= ->]. subst. now left.
  - intro H. right. now apply IH.
Qed.

Lemma in_keys_get (bs : list (text * Entry)) (key : text) :
  In key (JsMap.keys bs) -> exists e, JsMap.get key bs = Some e.
Proof.
  intro Hin. destruct (JsMap.get key bs) as [e|] eqn:E; [eauto|].
  now apply JsMapFacts.get_none_keys in E.
Qed.

(** Reads that hit live entries leave the cache alone. *)
Lemma gets_keep_cache (reads : list (Z * text)) :
  forall s,
    Forall (fun r => forall e, In (snd r, e) (cache s) ->
                               expired e (fst r) = false) reads ->
    Forall (fun r => In (snd r) (JsMap.keys (cache s))) reads ->
    cache (run (map get_call reads) s) = cache s
    /\ cacheSize (run (map get_call reads) s) = cacheSize s.
Proof.
  induction reads as [|[now key] reads IH]; intros s Hlive Hin;
    [now cbn|].
  inversion_clear Hlive as [|? ? Hl Hls].
  inversion_clear Hin as [|? ? Hi His].
  cbn [fst snd] in *.
  destruct (in_keys_get _ _ Hi) as [e He].
  destruct (get_hit_cache now key e s He (Hl e (get_binding _ _ _ He)))
    as [Hc Hsz].
  cbn [map run fold_left get_call call fst snd].
  change (fold_left (fun st c => call c st) (map get_call reads)
            (snd (get now key s)))
    with (run (map get_call reads) (snd (get now key s))).
  destruct (IH (snd (get now key s))) as [IHc IHsz].
  - now rewrite Hc.
  - now rewrite Hc.
  - now rewrite IHc, IHsz.
Qed.

Lemma NoDup_map_inj (A B : Type) (f : A -> B) (l : list A) (a b : A) :
  NoDup (map f l) -> In a l -> In b l -> f a = f b -> a = b.
Proof.
  induction l as [|x l IH]; cbn [map In]; [tauto|].
  intros Hnd Ha Hb Hf. inversion_clear Hnd as [|? ? Hx Hl].
  destruct Ha as [-> | Ha], Hb as [-> | Hb]; auto.
  - elim Hx. rewrite Hf. now apply in_map.
  - elim Hx. rewrite <- Hf. now apply in_map.
Qed.

(** C4.  From an empty cache of capacity [C >= 1], [C] accepted puts of
    distinct keys fill the cache in the order of insertion; reads that
    hit live entries change nothing in it; and the put of one more new
    key removes the key that was inserted first, whatever was read: the
    cache then holds exactly the [C] keys inserted last. *)
Theorem cache_evicts_first_inserted (C : nat) (s : State)
  (ps : list PutArgs) (p : PutArgs) (reads : list (Z * text)) :
  1 <= C -> cacheSize s = C -> cache s = [] ->
  length ps = C ->
  NoDup (map p_key (ps ++ [p])) ->
  Forall p_accepted (ps ++ [p]) ->
  Forall (fun r => exists q, In q ps /\ p_key q = snd r
                             /\ expired (snd (p_binding q)) (fst r) = false)
    reads ->
  let s1 := run (map put_call ps) s in
  let s2 := run (map get_call reads) s1 in
  let s3 := run [put_call p] s2 in
  JsMap.keys (cache s1) = map p_key ps
  /\ cache s2 = cache s1
  /\ JsMap.keys (cache s3) = tl (map p_key ps) ++ [p_key p]
  /\ length (JsMap.keys (cache s3)) = C
  /\ ~ In (hd [] (map p_key ps)) (JsMap.keys (cache s3)).
Proof.
  intros HC Hsz Hempty Hlen Hnd Hacc Hreads s1 s2 s3.
  apply Forall_app in Hacc. destruct Hacc as [Hps Hp].
  inversion_clear Hp as [|? ? Hp' _].
  rewrite map_app in Hnd. cbn [map] in Hnd.
  assert (Hndps : NoDup (map p_key ps)) by now apply NoDup_app_remove_r in Hnd.
  destruct (puts_fill_cache ps s Hps) as [Hc1 Hsz1].
  { now rewrite Hempty. }
  { rewrite Hempty. cbn. lia. }
  rewrite Hempty in Hc1. cbn [app] in Hc1. fold s1 in Hc1, Hsz1.
  assert (Hk1 : JsMap.keys (cache s1) = map p_key ps).
  { rewrite Hc1. unfold JsMap.keys. rewrite map_map. reflexivity. }
  destruct (gets_keep_cache reads s1) as [Hc2 Hsz2].
  { eapply Forall_impl; [|exact Hreads]. cbn beta.
    intros r (q & Hq & Hkey & Hlive) e Hin.
    rewrite Hc1 in Hin. apply in_map_iff in Hin.
    destruct Hin as (q' & Hb & Hq').
    assert (q' = q).
    { apply (NoDup_map_inj _ _ p_key ps); auto.
      rewrite Hkey. now injection Hb. }
    subst q'. rewrite Hb in Hlive. exact Hlive. }
  { eapply Forall_impl; [|exact Hreads]. cbn beta.
    intros r (q & Hq & Hkey & _). rewrite Hk1, <- Hkey. now apply in_map. }
  fold s2 in Hc2, Hsz2.
  destruct (put_cache (p_now p) (p_key p) (p_value p) (p_options p) s2 Hp')
    as [Hc3 _].
  change (snd (put (p_now p) (p_key p) (p_value p) (p_options p) s2))
    with s3 in Hc3.
  rewrite Hc2, Hsz2, Hsz1, Hsz, Hc1 in Hc3.
  destruct ps as [|q0 ps']; [cbn in Hlen; lia|].
  cbn [map] in *.
  replace (C <=? JsMap.size (p_binding q0 :: map p_binding ps'))%nat
    with true in Hc3
    by (symmetry; apply Nat.leb_le; unfold JsMap.size; cbn [length];
        rewrite length_map; cbn [length] in Hlen; lia).
  inversion Hnd as [|? ? Hq0 Hnd']. subst.
  assert (Hdel : JsMap.delete (p_key q0) (p_binding q0 :: map p_binding ps')
                 = map p_binding ps').
  { unfold JsMap.delete. cbn [filter p_binding fst].
    rewrite text_eqb_refl. cbn [negb].
    apply JsMapFacts.delete_fresh. unfold JsMap.keys. rewrite map_map.
    intro Hin. apply Hq0, in_or_app. now left. }
  cbv beta iota delta [p_binding] in Hc3, Hdel. rewrite Hdel in Hc3.
  change (map (fun p0 => (p_key p0, entry_of (p_now p0) (p_value p0)
                                     (p_options p0))) ps')
    with (map p_binding ps') in Hc3.
  rewrite JsMapFacts.set_fresh in Hc3.
  2:{ apply JsMapFacts.get_none_keys. unfold JsMap.keys. rewrite map_map.
      intro Hin. apply NoDup_remove_2 in Hnd'. apply Hnd', in_or_app.
      now left. }
  assert (Hk3 : JsMap.keys (cache s3) = map p_key ps' ++ [p_key p]).
  { rewrite Hc3. unfold JsMap.keys. now rewrite map_app, map_map. }
  repeat split.
  - exact Hk1.
  - exact Hc2.
  - exact Hk3.
  - rewrite Hk3, length_app, length_map. cbn [length] in *. lia.
  - cbn [hd]. rewrite Hk3. exact Hq0.
Qed.

Lemma cache_evicts_first_inserted_witness :
  let s1 := run (map put_call two_puts) (with_cacheSize 2 empty_state) in
  let s2 := run (map get_call three_reads) s1 in
  let s3 := run [put_call (plain_put 8 "c" "3")] s2 in
  JsMap.keys (cache s1) = [str "a"; str "b"]
  /\ cache s2 = cache s1
  /\ JsMap.keys (cache s3) = [str "b"; str "c"]
  /\ length (JsMap.keys (cache s3)) = 2
  /\ ~ In (str "a") (JsMap.keys (cache s3)).
Proof.
  apply (cache_evicts_first_inserted 2 (with_cacheSize 2 empty_state)
           two_puts (plain_put 8 "c" "3") three_reads).
  - lia.
  - reflexivity.
  - reflexivity.
  - reflexivity.
  - repeat constructor; simpl; intuition discriminate.
  - repeat constructor.
  - repeat constructor.
    + exists (plain_put 0 "a" "1"). simpl. auto.
    + exists (plain_put 1 "b" "2"). simpl. auto.
    + exists (plain_put 0 "a" "1"). simpl. auto.
Defined.

(** The default capacity: of 101 keys put into the cache of a fresh
    store, the last 100 are in it, in the order of insertion. *)
Example cache_default_capacity :
  let s := run (map put_call (numbered_puts 101)) empty_state in
  JsMap.keys (cache s) = tl (map p_key (numbered_puts 101))
  /\ length (cache s) = 100
  /\ JsMap.has (decimal 1) (cache s) = false
  /\ JsMap.has (decimal 1) (store s) = true.
Proof. vm_compute. repeat split. Qed.

(** ** The codec through [put] and [get] *)

Lemma put_accepts_text (key v : text) (o : Options) :
  key <> [] -> (opt_encrypted o = true -> latin1 v) ->
  put_accepts key (VStr v) o = true.
Proof.
  intros Hk Hl. unfold put_accepts. destruct key; [congruence|].
  destruct (opt_encrypted o); [|reflexivity].
  now rewrite CryptoFacts.encrypt_latin1 by auto.
Qed.

Lemma processValue_stored (now : Z) (v : text) (o : Options) :
  (opt_encrypted o = true -> latin1 v) ->
  (opt_compress o = true -> no_inner_digit (compressor_input v o)) ->
  processValue (stored_value (VStr v) o) (entry_of now (VStr v) o)
  = Ret (VStr v).
Proof.
  unfold processValue, entry_of, stored_value, compressor_input.
  cbn [compressed encrypted value].
  destruct (opt_encrypted o), (opt_compress o); intros Hl Hd.
  - rewrite CryptoFacts.encrypt_latin1 by auto.
    rewrite CompressionFacts.decompress_compress by auto.
    now rewrite CryptoFacts.decrypt_encode by auto.
  - rewrite CryptoFacts.encrypt_latin1 by auto.
    now rewrite CryptoFacts.decrypt_encode by auto.
  - now rewrite CompressionFacts.decompress_compress by auto.
  - reflexivity.
Qed.

(** Without options every value that [put] accepts comes back as it is. *)
Lemma plain_round_trip (now now' : Z) (key : text) (v : Value) (s : State) :
  key <> [] -> v <> VUndefined ->
  fst (put now key v no_options s) = Ret true
  /\ fst (get now' key (snd (put now key v no_options s))) = Ret v.
Proof.
  intros Hk Hv.
  assert (Hacc : put_accepts key v no_options = true).
  { destruct key; [congruence|]. destruct v; try reflexivity; congruence. }
  split.
  - now rewrite (put_accepted now key v no_options s Hacc).
  - rewrite (get_hit now' key (entry_of now v no_options)).
    + cbn [fst]. now destruct v.
    + now apply put_cache_get.
    + reflexivity.
Qed.

(** C1, as the code has it.  For a non-empty key and a text [v], without
    a TTL: [put] succeeds and the [get] that follows returns [v], for each
    of the four combinations of the options, provided that with
    [encrypted] every code unit of [v] is below 256, and that with
    [compress] the text that enters the compressor ([v], or the base64
    text when [encrypted] is set too) has no digit after its first code
    unit. *)
Theorem codec_round_trip (now now' : Z) (key v : text) (o : Options)
  (s : State) :
  key <> [] ->
  opt_ttl o = None ->
  (opt_encrypted o = true -> latin1 v) ->
  (opt_compress o = true -> no_inner_digit (compressor_input v o)) ->
  fst (put now key (VStr v) o s) = Ret true
  /\ fst (get now' key (snd (put now key (VStr v) o s))) = Ret (VStr v).
Proof.
  intros Hk Httl Hl Hd.
  pose proof (put_accepts_text key v o Hk Hl) as Hacc.
  split.
  - now rewrite (put_accepted now key (VStr v) o s Hacc).
  - rewrite (get_hit now' key (entry_of now (VStr v) o)).
    + cbn [fst]. now apply processValue_stored.
    + now apply put_cache_get.
    + unfold expired, entry_of, expiry_of. cbn [expiry]. now rewrite Httl.
Qed.

Lemma codec_round_trip_witness :
  fst (put 0 (str "k") (VStr (str "defaultKey")) encrypted_compressed
         empty_state)
  = Ret true
  /\ fst (get 1 (str "k")
            (snd (put 0 (str "k") (VStr (str "defaultKey"))
                    encrypted_compressed empty_state)))
     = Ret (VStr (str "defaultKey")).
Proof.
  apply (codec_round_trip 0 1 (str "k") (str "defaultKey")
           encrypted_compressed empty_state).
  - discriminate.
  - reflexivity.
  - intros _. unfold latin1. repeat constructor.
  - intros _. vm_compute. repeat constructor.
Defined.

(** C1, counterexample.  The text [ah] has no digit; with both options the
    base64 text [BQ0=] is stored, its [Q0] is read back as no [Q] at all,
    and [get] returns null.  And with [encrypted] alone, a text with a
    code unit above 255 is refused by [put]. *)
Lemma codec_round_trip_fails :
  no_digit (str "ah")
  /\ fst (put 0 (str "k") (VStr (str "ah")) encrypted_compressed empty_state)
     = Ret true
  /\ fst (get 1 (str "k")
            (snd (put 0 (str "k") (VStr (str "ah")) encrypted_compressed
                    empty_state)))
     = Ret VNull
  /\ fst (get 1 (str "k")
            (snd (put 0 (str "k") (VStr (str "ah")) encrypted_compressed
                    empty_state)))
     <> Ret (VStr (str "ah"))
  /\ no_digit [8364%N]
  /\ put 0 (str "k") (VStr [8364%N]) encrypted_only empty_state
     = (Throw InvalidCharacterError, empty_state).
Proof.
  repeat split; try (repeat constructor); discriminate.
Qed.

(** ** Expiry *)

Lemma schedule_In (due : Z) (key : text) (q : list (Z * text))
  (x : Z * text) :
  In x (schedule due key q) <-> x = (due, key) \/ In x q.
Proof.
  induction q as [|[d k] q IH]; cbn [schedule In].
  - intuition.
  - destruct (d <=? due)%Z; cbn [In]; [rewrite IH|]; intuition.
Qed.

(** The deletions that [run_timers] does, one after the other. *)
Lemma deletes_absent (now : Z) (key : text) (due : list (Z * text)) :
  forall s,
    JsMap.get key (store s) = None -> JsMap.get key (cache s) = None ->
    let s' := fold_left (fun st t => snd (delete now (snd t) st)) due s in
    JsMap.get key (store s') = None /\ JsMap.get key (cache s') = None.
Proof.
  induction due as [|[d k] due IH]; intros s Hs Hc; cbn [fold_left];
    [now split|].
  apply IH; cbn [delete snd store cache with_store with_cache with_wal
                   with_encryptedKeys persist with_blob recordStats
                   with_stats].
  - destruct (text_eq_dec k key) as [-> | Hne].
    + apply JsMapFacts.get_delete_eq.
    + now rewrite JsMapFacts.get_delete_ne.
  - destruct (text_eq_dec k key) as [-> | Hne].
    + apply JsMapFacts.get_delete_eq.
    + now rewrite JsMapFacts.get_delete_ne.
Qed.

Lemma deletes_remove (now : Z) (key : text) (due : list (Z * text)) :
  forall s,
    In key (map snd due) ->
    let s' := fold_left (fun st t => snd (delete now (snd t) st)) due s in
    JsMap.get key (store s') = None /\ JsMap.get key (cache s') = None.
Proof.
  induction due as [|[d k] due IH]; intros s Hin; cbn [map In snd] in Hin;
    [tauto|].
  cbn [fold_left snd].
  destruct (text_eq_dec k key) as [-> | Hne].
  - apply deletes_absent;
      cbn [delete snd store cache with_store with_cache with_wal
             with_encryptedKeys persist with_blob recordStats with_stats];
      apply JsMapFacts.get_delete_eq.
  - apply IH. destruct Hin; [contradiction | assumption].
Qed.

Lemma deletes_keep (now : Z) (key : text) (due : list (Z * text)) :
  forall s,
    ~ In key (map snd due) ->
    let s' := fold_left (fun st t => snd (delete now (snd t) st)) due s in
    JsMap.get key (store s') = JsMap.get key (store s)
    /\ JsMap.get key (cache s') = JsMap.get key (cache s).
Proof.
  induction due as [|[d k] due IH]; intros s Hin; cbn [map In snd] in Hin;
    [now split|].
  cbn [fold_left snd].
  destruct (IH (snd (delete now k s))) as [Hs Hc]; [tauto|].
  cbn zeta. rewrite Hs, Hc.
  cbn [delete snd store cache with_store with_cache with_wal
         with_encryptedKeys persist with_blob recordStats with_stats].
  rewrite !JsMapFacts.get_delete_ne by tauto. now split.
Qed.

Lemma run_timers_removes (now : Z) (key : text) (d : Z) (s : State) :
  In (d, key) (timers s) -> (d <= now)%Z ->
  JsMap.get key (store (run_timers now s)) = None
  /\ JsMap.get key (cache (run_timers now s)) = None.
Proof.
  intros Hin Hd. unfold run_timers. apply deletes_remove.
  apply in_map_iff. exists (d, key). split; [reflexivity|].
  apply filter_In. split; [exact Hin|]. now apply Z.leb_le.
Qed.

Lemma run_timers_keeps (now : Z) (key : text) (s : State) :
  (forall d, In (d, key) (timers s) -> (now < d)%Z) ->
  JsMap.get key (store (run_timers now s)) = JsMap.get key (store s)
  /\ JsMap.get key (cache (run_timers now s)) = JsMap.get key (cache s).
Proof.
  intro H. unfold run_timers.
  pose proof (deletes_keep now key
                (filter (fun t => (fst t <=? now)%Z) (timers s))
                (with_timers
                   (filter (fun t => negb (fst t <=? now)%Z) (timers s)) s))
    as Hk.
  cbn zeta in Hk. apply Hk.
  intro Hin. apply in_map_iff in Hin. destruct Hin as ([d k] & Hk' & Hf).
  cbn [snd] in Hk'. subst k. apply filter_In in Hf. destruct Hf as [Hin Hle].
  cbn [fst] in Hle. apply Z.leb_le in Hle. specialize (H d Hin). lia.
Qed.

Lemma put_timers (now : Z) (key : text) (v : Value) (o : Options)
  (s : State) :
  put_accepts key v o = true ->
  timers (snd (put now key v o s))
  = match timer_of now o with
    | Some due => schedule due key (timers s)
    | None => timers s
    end.
Proof.
  intro H. rewrite (put_accepted now key v o s H). cbn.
  destruct (timer_of now o); destruct (opt_encrypted o); reflexivity.
Qed.

Lemma delete_removes (now : Z) (key : text) (s : State) :
  JsMap.get key (store (snd (delete now key s))) = None
  /\ JsMap.get key (cache (snd (delete now key s))) = None.
Proof. split; apply JsMapFacts.get_delete_eq. Qed.

Lemma processValue_plain (now : Z) (v : Value) (o : Options) :
  processValue (stored_value v o) (entry_of now v o) = Ret v
  \/ opt_encrypted o = true \/ opt_compress o = true.
Proof.
  unfold processValue, entry_of, stored_value. cbn [compressed encrypted value].
  destruct (opt_encrypted o); [auto|].
  destruct (opt_compress o); [auto|].
  left. now destruct v.
Qed.

Lemma survives_codec_read (now : Z) (v : Value) (o : Options) :
  survives_codec v o ->
  processValue (stored_value v o) (entry_of now v o) = Ret v.
Proof.
  intros [[He Hc] | (t & -> & He & Hc)].
  - destruct (processValue_plain now v o) as [H | [H | H]];
      [exact H | congruence | congruence].
  - now apply processValue_stored.
Qed.

Lemma timeout_delay_le (ms : Z) : (0 < ms)%Z ->
  (0 < timeout_delay ms <= ms)%Z.
Proof.
  intro H. unfold timeout_delay.
  destruct (Z.ltb_spec 2147483647 ms); lia.
Qed.

Lemma timeout_delay_fits (ms : Z) :
  (ms <= 2147483647)%Z -> timeout_delay ms = ms.
Proof.
  intro H. unfold timeout_delay.
  destruct (Z.ltb_spec 2147483647 ms); [lia | reflexivity].
Qed.

(** C5, as the code has it.  A key is put with a TTL of [seconds > 0] at
    [now]; the entry expires at [now + seconds * 1000].

    Before that instant [get] returns the value put, when the value
    survives the codec options in use; and it still does after the timers
    that are due have run, when the delay fits the timer ([seconds * 1000]
    is at most 2^31 - 1) and no deferred deletion of the same key that an
    earlier put has scheduled is due by then: [put] does not cancel it.

    After that instant [get] returns null, in both ways: on a state where
    no timer has run, the read finds the entry expired and deletes the key
    from the store and the cache; and the deferred deletion scheduled by
    the put, once run, has removed the key already. *)
Theorem ttl_expiry (now seconds now1 now2 : Z) (key : text) (v : Value)
  (o : Options) (s : State) :
  put_accepts key v o = true ->
  opt_ttl o = Some seconds -> (0 < seconds)%Z -> (0 <= now)%Z ->
  (now1 < now + seconds * 1000)%Z -> (now + seconds * 1000 < now2)%Z ->
  let s1 := snd (put now key v o s) in
  (survives_codec v o ->
   fst (get now1 key s1) = Ret v
   /\ ((seconds * 1000 <= 2147483647)%Z ->
       (forall d, In (d, key) (timers s) -> (now1 < d)%Z) ->
       fst (get now1 key (run_timers now1 s1)) = Ret v))
  /\ fst (get now2 key s1) = Ret VNull
  /\ JsMap.get key (store (snd (get now2 key s1))) = None
  /\ JsMap.get key (cache (snd (get now2 key s1))) = None
  /\ In ((now + timeout_delay (seconds * 1000))%Z, key) (timers s1)
  /\ (now + timeout_delay (seconds * 1000) <= now + seconds * 1000)%Z
  /\ JsMap.get key (store (run_timers now2 s1)) = None
  /\ JsMap.get key (cache (run_timers now2 s1)) = None
  /\ fst (get now2 key (run_timers now2 s1)) = Ret VNull.
Proof.
  intros Hacc Httl Hsec Hnow H1 H2 s1.
  assert (Hexp : expiry_of now o = Some (now + seconds * 1000)%Z).
  { unfold expiry_of. rewrite Httl.
    now replace (0 <? seconds)%Z with true by (symmetry; apply Z.ltb_lt; lia). }
  assert (Htim : timer_of now o
                 = Some (now + timeout_delay (seconds * 1000))%Z).
  { unfold timer_of. rewrite Httl.
    now replace (0 <? seconds)%Z with true by (symmetry; apply Z.ltb_lt; lia). }
  pose proof (timeout_delay_le (seconds * 1000)) as Hdelay.
  assert (Hc : JsMap.get key (cache s1) = Some (entry_of now v o))
    by now apply put_cache_get.
  assert (Hlive : expired (entry_of now v o) now1 = false).
  { unfold expired, entry_of. cbn [expiry]. rewrite Hexp.
    apply andb_false_intro2, Z.ltb_ge. lia. }
  assert (Hdead : expired (entry_of now v o) now2 = true).
  { unfold expired, entry_of. cbn [expiry]. rewrite Hexp.
    apply andb_true_intro. split.
    - apply negb_true_iff, Z.eqb_neq. lia.
    - apply Z.ltb_lt. lia. }
  assert (Ht : timers s1
               = schedule (now + timeout_delay (seconds * 1000))%Z key
                   (timers s)).
  { unfold s1. now rewrite put_timers, Htim. }
  assert (Hin : In ((now + timeout_delay (seconds * 1000))%Z, key)
                  (timers s1)).
  { rewrite Ht. apply schedule_In. now left. }
  destruct (run_timers_removes now2 key _ s1 Hin) as [Hrs Hrc]; [lia|].
  split; [|repeat split].
  - intro Hcodec.
    pose proof (survives_codec_read now v o Hcodec) as Hread.
    split.
    + rewrite (get_hit now1 key _ s1 Hc Hlive). exact Hread.
    + intros Hfit Hstale.
      destruct (run_timers_keeps now1 key s1) as [_ Hk].
      { intros d Hd. rewrite Ht in Hd. apply schedule_In in Hd.
        destruct Hd as [[= ->] | Hd]; [|now apply Hstale].
        rewrite (timeout_delay_fits _ Hfit). exact H1. }
      rewrite (get_hit now1 key (entry_of now v o)); auto.
      now rewrite Hk.
  - now rewrite (get_hit_expired now2 key _ s1 Hc Hdead).
  - rewrite (get_hit_expired now2 key _ s1 Hc Hdead).
    exact (proj1 (delete_removes now2 key _)).
  - rewrite (get_hit_expired now2 key _ s1 Hc Hdead).
    exact (proj2 (delete_removes now2 key _)).
  - exact Hin.
  - lia.
  - exact Hrs.
  - exact Hrc.
  - now rewrite (get_absent now2 key _ Hrc Hrs).
Qed.

Lemma ttl_expiry_witness :
  let s1 := snd (put 0 (str "k") (VStr (str "v")) (ttl_options 5)
                   empty_state) in
  fst (get 4999 (str "k") s1) = Ret (VStr (str "v"))
  /\ fst (get 4999 (str "k") (run_timers 4999 s1)) = Ret (VStr (str "v"))
  /\ fst (get 5001 (str "k") s1) = Ret VNull
  /\ fst (get 5001 (str "k") (run_timers 5001 s1)) = Ret VNull.
Proof.
  destruct (ttl_expiry 0 5 4999 5001 (str "k") (VStr (str "v"))
              (ttl_options 5) empty_state)
    as (H1 & H3 & _ & _ & _ & _ & _ & _ & H4).
  - reflexivity.
  - reflexivity.
  - lia.
  - lia.
  - lia.
  - lia.
  - destruct H1 as [H1 H2]; [left; split; reflexivity|].
    cbn zeta. rewrite H1, H2, H3, H4; [repeat split | lia | intros d []].
Defined.

(** C5, counterexamples: three reads before the expiry instant that do
    not return the value.

    The key is put at 0 with a TTL of one second and put again at 500
    with a TTL of ten seconds, which expires at 10500.  The timer of the
    first put runs at 1000 and deletes the renewed entry: at 2000 [get]
    returns null.

    The key is put at 0 with a TTL of 2147484 seconds.  The delay does
    not fit the timer, which is due at once: after the timers have run at
    100, [get] returns null.

    The text [ah] is put with a TTL of five seconds and both codec
    options: its stored form has a digit, and [get] returns null at 1. *)
Lemma ttl_value_lost_before_expiry :
  ((2000 < 500 + 10 * 1000)%Z
   /\ fst (put 500 (str "k") (VStr (str "b")) (ttl_options 10)
             (run [CallPut 0 (str "k") (VStr (str "a")) (ttl_options 1)]
                empty_state)) = Ret true
   /\ fst (get 2000 (str "k") (run renewed_key empty_state)) = Ret VNull)
  /\ ((100 < 0 + 2147484 * 1000)%Z
      /\ fst (put 0 (str "k") (VStr (str "a")) (ttl_options 2147484)
                empty_state) = Ret true
      /\ fst (get 100 (str "k") (run oversized_ttl empty_state)) = Ret VNull)
  /\ ((1 < 0 + 5 * 1000)%Z
      /\ fst (get 1 (str "k") (run coded_ttl empty_state)) = Ret VNull).
Proof. repeat split. Qed.

(** ** Batches *)

Section BatchFacts.
Variable toUpperCase : text -> text.

Lemma batch_loop_applied (now : Z) (ops : list BatchOp) (s s' : State)
  (rs : list (BatchOp * OpResult)) :
  applied toUpperCase now ops s rs s' ->
  forall acc,
    batch_loop toUpperCase now ops acc s = (Ret (acc ++ rs), acc ++ rs, s').
Proof.
  induction 1 as [s | o r s s1 ops rs s2 Hstep _ IH]; intro acc;
    cbn [batch_loop].
  - now rewrite app_nil_r.
  - rewrite Hstep, IH, <- app_assoc. reflexivity.
Qed.

Lemma batch_loop_throws (now : Z) (pre : list BatchOp) (s s1 : State)
  (rs : list (BatchOp * OpResult)) :
  applied toUpperCase now pre s rs s1 ->
  forall o post e s2 acc,
    batch_step toUpperCase now o s1 = (Throw e, s2) ->
    batch_loop toUpperCase now (pre ++ o :: post) acc s
    = (Throw e, acc ++ rs, s2).
Proof.
  induction 1 as [s | o' r s s1 ops rs s2' Hstep _ IH];
    intros o post e s2 acc Ho; cbn [batch_loop app].
  - now rewrite Ho, app_nil_r.
  - rewrite Hstep, (IH o post e s2 _ Ho), <- app_assoc. reflexivity.
Qed.

Lemma applied_results (now : Z) (ops : list BatchOp) (s s' : State)
  (rs : list (BatchOp * OpResult)) :
  applied toUpperCase now ops s rs s' -> map fst rs = ops.
Proof. induction 1; cbn [map fst]; congruence. Qed.

(** An operation that throws has not touched the store. *)
Lemma get_throw_store (now : Z) (key : text) (s : State) :
  (exists v, fst (get now key s) = Ret v)
  \/ store (snd (get now key s)) = store s.
Proof.
  destruct (JsMap.get key (cache s)) as [e|] eqn:Hc.
  - destruct (expired e now) eqn:He.
    + left. rewrite (get_hit_expired now key e s Hc He).
      eexists; reflexivity.
    + right. now rewrite (get_hit now key e s Hc He).
  - destruct (JsMap.get key (store s)) as [e|] eqn:Hs.
    + rewrite (get_miss now key e s Hc Hs).
      destruct (expired e now);
        [left; eexists; reflexivity | right; reflexivity].
    + left. rewrite (get_absent now key s Hc Hs). eexists; reflexivity.
Qed.

Lemma batch_step_throw_store (now : Z) (o : BatchOp) (s s' : State) (e : Exn) :
  batch_step toUpperCase now o s = (Throw e, s') -> store s' = store s.
Proof.
  unfold batch_step. destruct (op o) as [| | | |tag]; try (now intros [= _ <-]).
  destruct (text_eqb _ (str "PUT")).
  { destruct (put_outcome now (b_key o) (b_value o)
                {| opt_ttl := b_ttl o; opt_encrypted := false;
                   opt_compress := false |} s) as [Hok | [e' He']].
    - destruct (put _ _ _ _ _) as [[ok|e0] s0]; cbn [fst] in Hok;
        [discriminate | discriminate].
    - rewrite He'. now intros [= _ <-]. }
  destruct (text_eqb _ (str "GET")).
  { destruct (get_throw_store now (b_key o) s) as [[v Hv] | Hst];
      destruct (get now (b_key o) s) as [[v'|e'] s0]; cbn [fst snd] in *;
      try discriminate; now intros [= _ <-]. }
  destruct (text_eqb _ (str "DELETE")).
  { destruct (delete now (b_key o) s). discriminate. }
  destruct (text_eqb _ (str "EXISTS")).
  { destruct (exists_ now (b_key o) s). discriminate. }
  discriminate.
Qed.

(** One step of the loop does what the operation names. *)
Lemma batch_step_performs (now : Z) (o : BatchOp) (s : State) :
  performs toUpperCase now o s (fst (batch_step toUpperCase now o s))
    (snd (batch_step toUpperCase now o s)).
Proof.
  unfold batch_step.
  destruct (op o) as [| | | |tag] eqn:Hop;
    try (apply performs_untagged; intros tag; congruence).
  destruct (text_eqb _ (str "PUT")) eqn:E1.
  { apply text_eqb_eq in E1.
    change {| opt_ttl := b_ttl o; opt_encrypted := false;
              opt_compress := false |} with (batch_options o).
    destruct (put now (b_key o) (b_value o) (batch_options o) s)
      as [[ok|e] s'] eqn:Hp; cbn [fst snd].
    - replace s' with (snd (put now (b_key o) (b_value o) (batch_options o) s))
        by now rewrite Hp.
      eapply performs_put; eauto. now rewrite Hp.
    - replace s' with (snd (put now (b_key o) (b_value o) (batch_options o) s))
        by now rewrite Hp.
      eapply performs_put_throws; eauto. now rewrite Hp. }
  apply text_eqb_neq in E1.
  destruct (text_eqb _ (str "GET")) eqn:E2.
  { apply text_eqb_eq in E2.
    destruct (get now (b_key o) s) as [[v|e] s'] eqn:Hg; cbn [fst snd].
    - replace s' with (snd (get now (b_key o) s)) by now rewrite Hg.
      eapply performs_get; eauto. now rewrite Hg.
    - replace s' with (snd (get now (b_key o) s)) by now rewrite Hg.
      eapply performs_get_throws; eauto. now rewrite Hg. }
  apply text_eqb_neq in E2.
  destruct (text_eqb _ (str "DELETE")) eqn:E3.
  { apply text_eqb_eq in E3.
    destruct (delete now (b_key o) s) as [existed s'] eqn:Hd; cbn [fst snd].
    replace s' with (snd (delete now (b_key o) s)) by now rewrite Hd.
    replace existed with (fst (delete now (b_key o) s)) by now rewrite Hd.
    eapply performs_delete; eauto. }
  apply text_eqb_neq in E3.
  destruct (text_eqb _ (str "EXISTS")) eqn:E4.
  { apply text_eqb_eq in E4.
    destruct (exists_ now (b_key o) s) as [b s'] eqn:He; cbn [fst snd].
    replace s' with (snd (exists_ now (b_key o) s)) by now rewrite He.
    replace b with (fst (exists_ now (b_key o) s)) by now rewrite He.
    eapply performs_exists; eauto. }
  apply text_eqb_neq in E4.
  eapply performs_unknown; eauto.
Qed.

Lemma applied_performed (now : Z) (ops : list BatchOp) (s s' : State)
  (rs : list (BatchOp * OpResult)) :
  applied toUpperCase now ops s rs s' ->
  performed toUpperCase now ops s rs s'.
Proof.
  induction 1 as [s | o r s s1 ops rs s2 Hstep _ IH]; [constructor|].
  econstructor; [|exact IH].
  pose proof (batch_step_performs now o s) as H.
  now rewrite Hstep in H.
Qed.

Lemma performed_last (now : Z) (pre : list BatchOp) (p : BatchOp)
  (rs : list (BatchOp * OpResult)) (s s1 : State) :
  performed toUpperCase now (pre ++ [p]) s rs s1 ->
  exists s0 r, performs toUpperCase now p s0 (Ret r) s1.
Proof.
  revert s rs. induction pre as [|o pre IH]; intros s rs H; cbn [app] in H.
  - inversion H as [|? r ? s' ? ? ? Hp Hrest]; subst.
    inversion Hrest; subst. eauto.
  - inversion H as [|? r ? s' ? ? ? Hp Hrest]; subst. eapply IH; eassumption.
Qed.

(** A PUT that has returned has left its entry in the store. *)
Lemma performs_put_store (now : Z) (p : BatchOp) (tag : text) (r : OpResult)
  (s0 s1 : State) :
  op p = VStr tag -> toUpperCase tag = str "PUT" ->
  performs toUpperCase now p s0 (Ret r) s1 ->
  r = ResPut true
  /\ JsMap.get (b_key p) (store s1)
     = Some (entry_of now (b_value p) (batch_options p)).
Proof.
  intros Hop Htag H.
  assert (Hput : forall tag', op p = VStr tag' ->
                              toUpperCase tag' = str "PUT").
  { intros tag' H'. rewrite Hop in H'. now injection H' as <-. }
  inversion H as [tag' ok Ho Ht Hf | | tag' v Ho Ht Hf | | tag' Ho Ht
                 | tag' Ho Ht | tag' Ho H1 H2 H3 H4 | ]; subst;
    try (rewrite (Hput tag' Ho) in Ht; discriminate).
  - destruct (put_accepts (b_key p) (b_value p) (batch_options p)) eqn:Hacc.
    + rewrite (put_accepted now _ _ _ s0 Hacc) in Hf.
      injection Hf as <-. split; [reflexivity|].
      now apply put_store_get.
    + destruct (put_rejected now _ _ _ s0 Hacc) as [e He].
      rewrite He in Hf. discriminate.
  - destruct (H1 (Hput tag' Ho)).
Qed.

(** C6.  A batch is applied in the order given against the store, each
    operation from the state the one before it has left: a PUT is [put],
    a GET is [get], a DELETE is [delete] and an EXISTS is [exists] on the
    key of the operation.  Either no operation throws: the batch succeeds
    with one result for each operation, in order, and the state is the
    one these calls leave.  Or the list splits at the first operation
    that throws: the batch fails with the exception and with the results
    of the operations before it, the operations after it are not looked
    at, and the state is the one that the calls of the operations before
    it have left, its store untouched by the operation that has thrown:
    nothing is rolled back, and when the last operation before the
    failure is a PUT, its entry is in the store. *)
Theorem batch_ordered_partial_apply (now : Z) (ops : list BatchOp)
  (s : State) :
  (exists rs s',
      performed toUpperCase now ops s rs s'
      /\ batch toUpperCase now ops s = (BatchOk rs (length ops), s')
      /\ map fst rs = ops /\ length rs = length ops)
  \/ (exists pre o post rs s1 e s2,
         ops = pre ++ o :: post
         /\ performed toUpperCase now pre s rs s1
         /\ performs toUpperCase now o s1 (Throw e) s2
         /\ batch toUpperCase now ops s = (BatchFailed e rs, s2)
         /\ map fst rs = pre
         /\ store s2 = store s1
         /\ forall pre' p tag,
              pre = pre' ++ [p] -> op p = VStr tag ->
              toUpperCase tag = str "PUT" ->
              JsMap.get (b_key p) (store s2)
              = Some (entry_of now (b_value p) (batch_options p))).
Proof.
  assert (Hcases :
    forall ops s,
      (exists rs s', applied toUpperCase now ops s rs s')
      \/ (exists pre o post rs s1 e s2,
             ops = pre ++ o :: post
             /\ applied toUpperCase now pre s rs s1
             /\ batch_step toUpperCase now o s1 = (Throw e, s2))).
  { clear ops s. induction ops as [|o ops IH]; intro s.
    - left. exists [], s. constructor.
    - destruct (batch_step toUpperCase now o s) as [[r|e] s1] eqn:Hstep.
      + destruct (IH s1) as [(rs & s' & Happ)
                            | (pre & o' & post & rs & s2 & e & s3
                               & -> & Happ & Hthrow)].
        * left. exists ((o, r) :: rs), s'. econstructor; eassumption.
        * right. exists (o :: pre), o', post, ((o, r) :: rs), s2, e, s3.
          repeat split; auto. econstructor; eassumption.
      + right. exists [], o, ops, [], s, e, s1.
        repeat split; auto. constructor. }
  destruct (Hcases ops s) as [(rs & s' & Happ)
                             | (pre & o & post & rs & s1 & e & s2
                                & -> & Happ & Hthrow)].
  - left. exists rs, s'. repeat split; auto.
    + now apply applied_performed.
    + unfold batch. now rewrite (batch_loop_applied now ops s s' rs Happ []).
    + eapply applied_results; eassumption.
    + pose proof (applied_results _ _ _ _ _ Happ) as Hm.
      apply (f_equal (@length _)) in Hm. now rewrite length_map in Hm.
  - right. exists pre, o, post, rs, s1, e, s2.
    assert (Hst : store s2 = store s1)
      by (eapply batch_step_throw_store; eassumption).
    repeat split; auto.
    + now apply applied_performed.
    + pose proof (batch_step_performs now o s1) as H.
      now rewrite Hthrow in H.
    + unfold batch.
      now rewrite (batch_loop_throws now pre s s1 rs Happ o post e s2 []).
    + eapply applied_results; eassumption.
    + intros pre' p tag -> Hop Htag. rewrite Hst.
      apply applied_performed in Happ.
      destruct (performed_last now pre' p rs s s1 Happ) as (s0 & r & Hp).
      exact (proj2 (performs_put_store now p tag r s0 s1 Hop Htag Hp)).
Qed.

End BatchFacts.

(** The batch of the specification: three results in order, and the value
    of the GET is the one the first PUT has stored. *)
Example batch_sample :
  fst (batch ascii_upper 0 sample_batch empty_state)
  = BatchOk [(batch_op "put" "a" (VStr (str "1")), ResPut true);
             (batch_op "PUT" "b" (VStr (str "2")), ResPut true);
             (batch_op "get" "a" VUndefined, ResGet (VStr (str "1")))] 3.
Proof. reflexivity. Qed.

(** A put without a value stops the batch: the first put stays in the
    store and the third is not applied. *)
Example batch_failing :
  let r := batch ascii_upper 0 failing_batch empty_state in
  fst r = BatchFailed (Error_ "Invalid key or value")
            [(batch_op "PUT" "a" (VStr (str "1")), ResPut true)]
  /\ JsMap.keys (store (snd r)) = [str "a"].
Proof. split; reflexivity. Qed.

(** ** Import *)

Lemma entry_put_accepted (e : ImportEntry) :
  entry_applies e = true ->
  put_accepts (entry_key e) (e_value e) (entry_options e) = true.
Proof.
  unfold entry_applies, entry_key, put_accepts.
  destruct (e_key e) as [[|c k]|]; try discriminate.
  destruct (e_value e); try discriminate; reflexivity.
Qed.

Lemma import_loop_entry (now : Z) (e : ImportEntry)
  (rest : list (option ImportEntry)) (n : nat) (s : State) :
  import_loop now (Some e :: rest) n s
  = if entry_applies e
    then import_loop now rest (S n)
           (snd (put now (entry_key e) (e_value e) (entry_options e) s))
    else import_loop now rest n s.
Proof.
  cbn [import_loop]. unfold entry_applies.
  destruct (e_key e) as [[|c k]|] eqn:Hk; try reflexivity.
  destruct (truthy (e_value e)) eqn:Hv; [|reflexivity].
  assert (Hacc : put_accepts (c :: k) (e_value e) (entry_options e) = true).
  { pose proof (entry_put_accepted e) as H.
    unfold entry_applies, entry_key in H. rewrite Hk, Hv in H. now apply H. }
  unfold entry_key. rewrite Hk.
  change {| opt_ttl := match e_ttl e with
                       | Some t => if (t =? 0)%Z then None else Some t
                       | None => None
                       end;
            opt_encrypted := false; opt_compress := false |}
    with (entry_options e).
  now rewrite (put_accepted now (c :: k) (e_value e) (entry_options e) s Hacc).
Qed.

(** Entries none of which is null: those that apply are put, in order,
    and counted. *)
Lemma import_loop_records (now : Z) (es : list ImportEntry) :
  forall n s,
    import_loop now (map Some es) n s
    = (Ret (n + length (filter entry_applies es)), put_entries now es s).
Proof.
  induction es as [|e es IH]; intros n s; cbn [map].
  - cbn. f_equal. f_equal. lia.
  - rewrite import_loop_entry. unfold put_entries. cbn [filter fold_left].
    destruct (entry_applies e); rewrite IH; unfold put_entries;
      cbn [length]; do 2 f_equal; lia.
Qed.

Section ImportFacts.
Variable JSON_parse : text -> Parsed.

(** A text that does not parse, and a format that is not known: the call
    fails and the state is as it was. *)
Lemma import_parse_failure (now : Z) (data format : text) (s : State) :
  (format = str "json" /\ JSON_parse data = ParseThrows
   -> import JSON_parse now data format s = (ImportFailed SyntaxError, s))
  /\ (format <> str "json" -> format <> str "csv" -> format <> str "txt"
      -> import JSON_parse now data format s
         = (ImportFailed (Error_ "Unsupported format"), s)).
Proof.
  split.
  - intros [-> Hp]. unfold import. rewrite text_eqb_refl, Hp. reflexivity.
  - intros H1 H2 H3. unfold import.
    apply text_eqb_neq in H1, H2, H3. now rewrite H1, H2, H3.
Qed.

(** Parsed entries none of which is null: the call succeeds, the entries
    with a truthy key and a truthy value are put in order, the others are
    passed over, and the result counts those put and those parsed. *)
Lemma import_records (now : Z) (data : text) (es : list ImportEntry)
  (s : State) :
  JSON_parse data = ParsedArray (map Some es) ->
  import JSON_parse now data (str "json") s
  = (ImportOk (length (filter entry_applies es)) (length es),
     put_entries now es s).
Proof.
  intro Hp. unfold import. rewrite text_eqb_refl, Hp.
  rewrite import_loop_records, length_map. reflexivity.
Qed.

(** C7, the code at an array with a null after a record.  The record is
    put; reading [key] of the null throws; the call reports a failure and
    the record stays in the store. *)
Theorem import_stops_at_null_record (now : Z) (data : text)
  (e : ImportEntry) (rest : list (option ImportEntry)) (s : State) :
  JSON_parse data = ParsedArray (Some e :: None :: rest) ->
  entry_applies e = true ->
  import JSON_parse now data (str "json") s
  = (ImportFailed TypeError,
     snd (put now (entry_key e) (e_value e) (entry_options e) s))
  /\ JsMap.has (entry_key e)
       (store (snd (import JSON_parse now data (str "json") s))) = true.
Proof.
  intros Hp He.
  assert (Himp : import JSON_parse now data (str "json") s
                 = (ImportFailed TypeError,
                    snd (put now (entry_key e) (e_value e)
                           (entry_options e) s))).
  { unfold import. rewrite text_eqb_refl, Hp, import_loop_entry, He.
    reflexivity. }
  split; [exact Himp|].
  rewrite Himp. cbn [snd]. unfold JsMap.has.
  now rewrite (put_store_get now _ _ _ s (entry_put_accepted e He)).
Qed.

End ImportFacts.

Lemma import_stops_at_null_record_witness :
  import json_reader 0 record_then_null (str "json") empty_state
  = (ImportFailed TypeError,
     snd (put 0 (str "a") (VStr (str "1")) no_options empty_state))
  /\ JsMap.has (str "a")
       (store (snd (import json_reader 0 record_then_null (str "json")
                      empty_state))) = true.
Proof.
  apply (import_stops_at_null_record json_reader 0 record_then_null
           {| e_key := Some (str "a"); e_value := VStr (str "1");
              e_ttl := None |} [] empty_state);
    reflexivity.
Defined.

(** The guard of [import] tests truthiness: a record whose value is the
    number 0 is passed over, although [put] accepts that value. *)
Example import_skips_zero :
  fst (import json_reader 0 record_with_zero (str "json") empty_state)
  = ImportOk 0 1
  /\ fst (put 0 (str "a") (VNum 0) no_options empty_state) = Ret true.
Proof. split; reflexivity. Qed.

(** A delimited text: the header is passed over, the record with a value
    is put, the record without one is not. *)
Example import_csv_sample :
  let r := import json_reader 0 csv_sample (str "csv") empty_state in
  fst r = ImportOk 1 2
  /\ JsMap.keys (store (snd r)) = [str "user:1"]
  /\ fst (get 1 (str "user:1") (snd r)) = Ret (VStr (str "Alice")).
Proof. repeat split. Qed.

(* ================================================================== *)
(** * Further properties of the code *)

(** ** The compression module on its own *)

(** X1.  [decompress] gives back the text that [compress] was given, for
    every text in which no digit follows another code unit. *)
Theorem rle_round_trip (t : text) :
  no_inner_digit t ->
  Compression.decompress (Compression.compress t) = t.
Proof. apply CompressionFacts.decompress_compress. Qed.

Lemma rle_round_trip_witness :
  Compression.compress (str "7aaaaaaaaaaaabbbcdddd") = str "7a12bbbcd4"
  /\ Compression.decompress (Compression.compress (str "7aaaaaaaaaaaabbbcdddd"))
     = str "7aaaaaaaaaaaabbbcdddd".
Proof.
  split; [reflexivity|].
  apply (rle_round_trip (str "7aaaaaaaaaaaabbbcdddd")).
  cbn. repeat constructor.
Defined.

Lemma text_of_uint_length (d : uint) :
  length (text_of_uint d) = nb_digits d.
Proof. induction d; cbn [text_of_uint length nb_digits]; congruence. Qed.

Lemma of_uint_acc_lower (d : uint) :
  forall acc, acc * 10 ^ nb_digits d <= Nat.of_uint_acc d acc.
Proof.
  induction d; intro acc; cbn [Nat.of_uint_acc nb_digits];
    try (cbn; lia);
    (eapply Nat.le_trans; [|apply IHd]);
    rewrite Nat.tail_mul_spec, Nat.pow_succ_r'; nia.
Qed.

Lemma to_uint_head (n : nat) :
  n <> 0 -> exists d, Nat.to_uint n = d /\ Decimal.nzhead d = d /\ d <> Nil.
Proof.
  intro Hn. exists (Nat.to_uint n). split; [reflexivity|].
  pose proof (DecimalNat.Unsigned.to_of (Nat.to_uint n)) as H.
  rewrite DecimalNat.Unsigned.of_to in H.
  assert (Hnz : Decimal.nzhead (Nat.to_uint n) <> Nil).
  { intro E. unfold Decimal.unorm in H. rewrite E in H.
    apply Hn. rewrite <- (DecimalNat.Unsigned.of_to n), H. reflexivity. }
  split.
  - unfold Decimal.unorm in H.
    destruct (Decimal.nzhead (Nat.to_uint n)); congruence.
  - intro E. rewrite E in Hnz. now apply Hnz.
Qed.

Lemma decimal_value_lower (n : nat) :
  n <> 0 -> 10 ^ (length (decimal n) - 1) <= n.
Proof.
  intro Hn. destruct (to_uint_head n Hn) as (d & Hd & Hz & Hnil).
  unfold decimal. rewrite text_of_uint_length.
  rewrite <- (DecimalNat.Unsigned.of_to n) at 2. rewrite Hd.
  unfold Nat.of_uint.
  destruct d; try congruence;
    cbn [Nat.of_uint_acc nb_digits]; rewrite Nat.sub_succ, Nat.sub_0_r;
    try (eapply Nat.le_trans; [|apply of_uint_acc_lower];
         rewrite Nat.tail_mul_spec; lia).
  exfalso. cbn [Decimal.nzhead] in Hz.
  pose proof (DecimalFacts.nb_digits_nzhead d) as Hl.
  rewrite Hz in Hl. cbn [nb_digits] in Hl. lia.
Qed.

Lemma pow10_lower (k : nat) : 1 <= k -> k + 2 <= 10 ^ k.
Proof.
  induction k as [|k IH]; [lia|]. intros _.
  destruct k as [|k]; [cbn; lia|].
  rewrite Nat.pow_succ_r'. lia.
Qed.

(** The decimal numeral of a length of four or more is shorter than the
    run it stands for, by the code unit written before it at least. *)
Lemma decimal_shorter (n : nat) : 4 <= n -> S (length (decimal n)) <= n.
Proof.
  intro Hn. pose proof (decimal_value_lower n ltac:(lia)) as Hv.
  destruct (length (decimal n)) as [|[|k]] eqn:E; try lia.
  replace (S (S k) - 1) with (S k) in Hv by lia.
  pose proof (pow10_lower (S k) ltac:(lia)). lia.
Qed.

Lemma compress_length (n : nat) :
  forall t, length t <= n ->
            length (Compression.compress t) <= length t.
Proof.
  induction n as [|n IH]; intros [|c r] Hl; cbn [length] in Hl;
    try (cbn; lia).
  rewrite CompressionFacts.compress_cons.
  destruct (is_line_terminator c).
  - cbn [length]. specialize (IH r ltac:(lia)). lia.
  - pose proof (CompressionFacts.run_length_split c r) as Hs.
    apply (f_equal (@length _)) in Hs.
    rewrite length_app, repeat_length in Hs.
    destruct (Compression.run_length c r) as [|n'].
    + cbn [length]. specialize (IH r ltac:(lia)). lia.
    + specialize (IH (skipn (S n') r) ltac:(lia)).
      destruct (3 <? S (S n'))%nat eqn:E.
      * apply Nat.ltb_lt in E.
        pose proof (decimal_shorter (S (S n')) ltac:(lia)).
        cbn [app length]. rewrite length_app. lia.
      * rewrite length_app, repeat_length. cbn [length]. lia.
Qed.

(** X2.  [compress] never makes a text longer. *)
Theorem compress_not_longer (t : text) :
  length (Compression.compress t) <= length t.
Proof. now apply (compress_length (length t)). Qed.

(** ** The encryption module on its own *)

(** X3.  [decrypt] gives back the text that [encrypt] was given, for every
    text whose code units are below 256. *)
Theorem crypto_round_trip (t : text) :
  latin1 t ->
  exists c, Crypto.encrypt (VStr t) = Ret c
            /\ Crypto.decrypt (VStr c) = VStr t.
Proof.
  intro H. exists (Base64.encode (Crypto.xor_key t)). split.
  - now apply CryptoFacts.encrypt_latin1.
  - now apply CryptoFacts.decrypt_encode.
Qed.

Lemma crypto_round_trip_witness :
  exists c, Crypto.encrypt (VStr (str "sk-proj-abc123xyz")) = Ret c
            /\ Crypto.decrypt (VStr c) = VStr (str "sk-proj-abc123xyz").
Proof.
  apply (crypto_round_trip (str "sk-proj-abc123xyz")).
  unfold latin1. repeat constructor.
Defined.

Lemma lxor_lt_pow2 (n a b : N) :
  (a < 2 ^ n -> b < 2 ^ n -> N.lxor a b < 2 ^ n)%N.
Proof.
  intros Ha Hb.
  destruct (N.eq_dec (N.lxor a b) 0) as [-> | Hx]; [lia|].
  apply N.log2_lt_pow2; [lia|].
  pose proof (N.log2_lxor a b) as Hl.
  assert (La : (a = 0 \/ N.log2 a < n)%N).
  { destruct (N.eq_dec a 0); [now left | right].
    apply N.log2_lt_pow2; [lia | exact Ha]. }
  assert (Lb : (b = 0 \/ N.log2 b < n)%N).
  { destruct (N.eq_dec b 0); [now left | right].
    apply N.log2_lt_pow2; [lia | exact Hb]. }
  destruct La as [-> | La], Lb as [-> | Lb];
    rewrite ?N.lxor_0_l, ?N.lxor_0_r in *; cbn [N.log2] in Hl; lia.
Qed.

(** The key has no bit above the low eight: XOR leaves those of the code
    unit as they are. *)
Lemma xor_unit_high (c k : N) :
  (c < 65536 -> k < 256 ->
   (fromCharCode (N.lxor c k) <=? 255) = (c <=? 255))%N.
Proof.
  intros Hc Hk.
  assert (Hx : (N.lxor c k < 65536)%N).
  { change 65536%N with (2 ^ 16)%N. apply lxor_lt_pow2; [exact Hc|].
    change (2 ^ 16)%N with 65536%N. lia. }
  unfold fromCharCode. rewrite (N.mod_small _ _ Hx).
  assert (Hs : (N.lxor c k / 256 = c / 256)%N).
  { change 256%N with (2 ^ 8)%N. rewrite <- !N.shiftr_div_pow2.
    rewrite N.shiftr_lxor, (N.shiftr_div_pow2 k).
    change (2 ^ 8)%N with 256%N. rewrite (N.div_small k 256 Hk).
    apply N.lxor_0_r. }
  destruct (N.leb_spec c 255) as [Hle | Hgt].
  - apply N.leb_le.
    assert (N.lxor c k / 256 = 0)%N by (rewrite Hs; apply N.div_small; lia).
    apply N.div_small_iff in H; lia.
  - apply N.leb_gt.
    assert (N.lxor c k / 256 <> 0)%N.
    { rewrite Hs. intro E. apply N.div_small_iff in E; lia. }
    destruct (N.lt_ge_cases (N.lxor c k) 256) as [Hlt | Hge]; [|lia].
    elim H. now apply N.div_small.
Qed.

Lemma xor_from_high (i : nat) (t : text) :
  Forall (fun c => c < 65536)%N t ->
  forallb (fun c => (c <=? 255)%N) (Crypto.xor_from i Crypto.defaultKey t)
  = forallb (fun c => (c <=? 255)%N) t.
Proof.
  intro H. revert i.
  induction H as [|c t Hc _ IH]; intro i; cbn [Crypto.xor_from forallb];
    [reflexivity|].
  rewrite IH, xor_unit_high; [reflexivity | exact Hc|].
  apply CryptoFacts.key_unit_lt.
Qed.

(** X4.  On a string, [encrypt] returns the base64 text when every code
    unit is below 256, and throws (the InvalidCharacterError of [btoa])
    as soon as one is not. *)
Theorem encrypt_accepts_latin1_only (t : text) :
  Forall (fun c => c < 65536)%N t ->
  Crypto.encrypt (VStr t)
  = if forallb (fun c => (c <=? 255)%N) t
    then Ret (Base64.encode (Crypto.xor_key t))
    else Throw InvalidCharacterError.
Proof.
  intro H. unfold Crypto.encrypt, Base64.btoa, Crypto.xor_key.
  rewrite (xor_from_high 0 t H).
  now destruct (forallb _ t).
Qed.

Lemma encrypt_accepts_latin1_only_witness :
  Crypto.encrypt (VStr [104; 8364; 105]%N) = Throw InvalidCharacterError
  /\ Crypto.encrypt (VStr (str "hi")) = Ret (str "DAw=").
Proof.
  split.
  - apply (encrypt_accepts_latin1_only [104; 8364; 105]%N).
    repeat constructor.
  - apply (encrypt_accepts_latin1_only (str "hi")). repeat constructor.
Defined.

(** ** The cache as a mirror of the store *)

Lemma put_store (now : Z) (key : text) (v : Value) (o : Options) (s : State) :
  put_accepts key v o = true ->
  store (snd (put now key v o s))
  = JsMap.set key (entry_of now v o) (store s).
Proof.
  intro H. rewrite (put_accepted now key v o s H). cbn zeta.
  destruct (timer_of now o), (opt_encrypted o); reflexivity.
Qed.

Lemma get_delete_some (k k0 : text) (e : Entry) (m : JsMap.t Entry) :
  JsMap.get k (JsMap.delete k0 m) = Some e -> JsMap.get k m = Some e.
Proof.
  destruct (text_eq_dec k0 k) as [-> | Hne].
  - now rewrite JsMapFacts.get_delete_eq.
  - now rewrite JsMapFacts.get_delete_ne.
Qed.

(** Setting a key in the cache to the entry the store has for it. *)
Lemma updateCache_coherent (key : text) (e : Entry) (s : State) :
  (forall k e', k <> key -> JsMap.get k (cache s) = Some e' ->
                JsMap.get k (store s) = Some e') ->
  JsMap.get key (store s) = Some e ->
  cache_coherent (updateCache key e s).
Proof.
  intros Hc Hs k e'. unfold updateCache. state_simpl.
  destruct (text_eq_dec key k) as [<- | Hne].
  - rewrite JsMapFacts.get_set_eq. now intros [= <-].
  - rewrite JsMapFacts.get_set_ne by exact Hne. intro Hg.
    apply Hc; [congruence|].
    destruct (cacheSize s <=? JsMap.size (cache s))%nat; [|exact Hg].
    destruct (cache s) as [|[k0 e0] c] eqn:E; [exact Hg|].
    now apply get_delete_some in Hg.
Qed.

Lemma delete_coherent (now : Z) (key : text) (s : State) :
  cache_coherent s -> cache_coherent (snd (delete now key s)).
Proof.
  intros Hs k e. state_simpl. intro Hg.
  destruct (text_eq_dec key k) as [-> | Hne].
  - now rewrite JsMapFacts.get_delete_eq in Hg.
  - rewrite JsMapFacts.get_delete_ne in * by exact Hne. now apply Hs.
Qed.

(** An accepted [put], in two steps: the fields are updated, then the
    cache, and the result is persisted and counted. *)
Lemma put_steps (now : Z) (key : text) (v : Value) (o : Options) (s : State) :
  put_accepts key v o = true ->
  exists s4,
    snd (put now key v o s)
    = recordStats StatPut (persist (updateCache key (entry_of now v o) s4))
    /\ store s4 = JsMap.set key (entry_of now v o) (store s)
    /\ cache s4 = cache s /\ cacheSize s4 = cacheSize s
    /\ encryptedKeys s4
       = (if opt_encrypted o then JsSet.add key (encryptedKeys s)
          else encryptedKeys s)
    /\ wal s4 = wal s ++ [put_record now key v o]
    /\ timers s4
       = match timer_of now o with
         | Some due => schedule due key (timers s)
         | None => timers s
         end
    /\ stats s4 = stats s
    /\ medium s4 = medium s.
Proof.
  intro H. rewrite (put_accepted now key v o s H). cbn zeta.
  eexists. split; [reflexivity|].
  destruct (timer_of now o), (opt_encrypted o); repeat split.
Qed.

Lemma coherent_frame (s s' : State) :
  store s' = store s -> cache s' = cache s ->
  cache_coherent s -> cache_coherent s'.
Proof. intros Hs Hc H k e. rewrite Hs, Hc. apply H. Qed.

Lemma put_coherent (now : Z) (key : text) (v : Value) (o : Options)
  (s : State) :
  cache_coherent s -> cache_coherent (snd (put now key v o s)).
Proof.
  intro Hs. destruct (put_accepts key v o) eqn:Hacc.
  - destruct (put_steps now key v o s Hacc)
      as (s4 & -> & Hst & Hc & _).
    apply (coherent_frame (updateCache key (entry_of now v o) s4));
      [reflexivity | reflexivity|].
    apply updateCache_coherent.
    + intros k e' Hne Hg. rewrite Hc in Hg. rewrite Hst.
      rewrite JsMapFacts.get_set_ne by congruence. now apply Hs.
    + rewrite Hst. apply JsMapFacts.get_set_eq.
  - destruct (put_rejected now key v o s Hacc) as [e ->]. exact Hs.
Qed.

Lemma get_coherent (now : Z) (key : text) (s : State) :
  cache_coherent s -> cache_coherent (snd (get now key s)).
Proof.
  intro Hs.
  assert (Hd : forall x, store x = store s -> cache x = cache s
                         -> cache_coherent (snd (delete now key x))).
  { intros x Hx Hc. apply delete_coherent.
    now apply (coherent_frame s). }
  destruct (JsMap.get key (cache s)) as [e|] eqn:Hc.
  - destruct (expired e now) eqn:He.
    + rewrite (get_hit_expired now key e s Hc He). now apply Hd.
    + rewrite (get_hit now key e s Hc He). exact Hs.
  - destruct (JsMap.get key (store s)) as [e|] eqn:Hst.
    + rewrite (get_miss now key e s Hc Hst).
      destruct (expired e now); [now apply Hd|].
      apply (coherent_frame
               (updateCache key e (count_miss (count_get s))));
        [reflexivity | reflexivity|].
      apply updateCache_coherent; [|exact Hst].
      intros k e' _. apply Hs.
    + rewrite (get_absent now key s Hc Hst). exact Hs.
Qed.

Lemma run_timers_coherent (now : Z) (s : State) :
  cache_coherent s -> cache_coherent (run_timers now s).
Proof.
  unfold run_timers. intro Hs.
  assert (H0 : cache_coherent
                 (with_timers
                    (filter (fun t => negb (fst t <=? now)%Z) (timers s)) s))
    by exact Hs.
  revert H0.
  generalize (with_timers
                (filter (fun t => negb (fst t <=? now)%Z) (timers s)) s).
  induction (filter (fun t => (fst t <=? now)%Z) (timers s)) as [|t due IH];
    intros x Hx; cbn [fold_left]; [exact Hx|].
  apply IH. now apply delete_coherent.
Qed.

Lemma call_coherent (c : Call) (s : State) :
  cache_coherent s -> cache_coherent (call c s).
Proof.
  intro Hs.
  destruct c as [now k v o | now k | now k | now k | | now]; cbn [call].
  - now apply put_coherent.
  - now apply get_coherent.
  - now apply delete_coherent.
  - unfold exists_. destruct (JsMap.get k (store s)) as [e|]; [|exact Hs].
    destruct (expired e now); [now apply delete_coherent | exact Hs].
  - intros k e. cbn. discriminate.
  - now apply run_timers_coherent.
Qed.

Lemma run_coherent (cs : list Call) (s : State) :
  cache_coherent s -> cache_coherent (run cs s).
Proof.
  revert s. induction cs as [|c cs IH]; intros s Hs; [exact Hs|].
  change (run (c :: cs) s) with (run cs (call c s)).
  now apply IH, call_coherent.
Qed.

Lemma empty_cache_coherent (s : State) : cache s = [] -> cache_coherent s.
Proof. intros H k e. rewrite H. discriminate. Qed.

(** X5.  The cache stays a mirror of the store: whatever is called, in
    whatever order, an entry found in the cache is the entry the store
    holds for that key. *)
Theorem cache_mirrors_store (cs : list Call) (s : State) :
  cache_coherent s -> cache_coherent (run cs s).
Proof. apply run_coherent. Qed.

Lemma cache_mirrors_store_witness :
  cache_coherent
    (run [CallPut 0 (str "a") (VStr (str "1")) (ttl_options 1);
          CallGet 5 (str "a"); CallPut 6 (str "a") (VStr (str "2")) no_options;
          CallDelete 7 (str "b"); RunTimers 2000; CallGet 2001 (str "a")]
       empty_state).
Proof.
  apply (cache_mirrors_store _ empty_state).
  now apply empty_cache_coherent.
Defined.

Lemma get_from_store (now : Z) (key : text) (s : State) :
  cache_coherent s -> fst (get now key s) = stored_answer now key s.
Proof.
  intro Hs. unfold stored_answer.
  destruct (JsMap.get key (cache s)) as [e|] eqn:Hc.
  - rewrite (Hs key e Hc).
    destruct (expired e now) eqn:He.
    + now rewrite (get_hit_expired now key e s Hc He).
    + now rewrite (get_hit now key e s Hc He).
  - destruct (JsMap.get key (store s)) as [e|] eqn:Hst.
    + rewrite (get_miss now key e s Hc Hst). now destruct (expired e now).
    + now rewrite (get_absent now key s Hc Hst).
Qed.

(** X6.  The cache does not change what a read answers: [get] returns
    what the store alone tells, null for a key that is absent or expired
    and the decoded value otherwise, whether the key is in the cache or
    not. *)
Theorem get_reads_store (now : Z) (key : text) (s : State) :
  cache_coherent s -> fst (get now key s) = stored_answer now key s.
Proof. apply get_from_store. Qed.

Lemma get_reads_store_witness :
  fst (get 9 (str "a")
         (run [CallPut 0 (str "a") (VStr (str "1")) no_options;
               CallPut 1 (str "b") (VStr (str "2")) no_options]
            (with_cacheSize 1 empty_state)))
  = Ret (VStr (str "1")).
Proof.
  rewrite (get_reads_store 9 (str "a")).
  - reflexivity.
  - apply run_coherent. now apply empty_cache_coherent.
Defined.

(** ** Properties kept by every call *)

Section Invariant.

Variable P : State -> Prop.
Hypothesis P_stats : forall x s, P s -> P (with_stats x s).
Hypothesis P_timers : forall q s, P s -> P (with_timers q s).
Hypothesis P_delete : forall now k s, P s -> P (snd (delete now k s)).
Hypothesis P_put :
  forall now k v o s,
    put_accepts k v o = true -> P s -> P (snd (put now k v o s)).
Hypothesis P_fill :
  forall k e s, JsMap.get k (store s) = Some e -> P s -> P (updateCache k e s).
Hypothesis P_clear : forall s, P s -> P (clear s).

Lemma get_invariant (now : Z) (key : text) (s : State) :
  P s -> P (snd (get now key s)).
Proof.
  intro Hs.
  assert (H0 : P (count_get s)) by now apply P_stats.
  destruct (JsMap.get key (cache s)) as [e|] eqn:Hc.
  - assert (H1 : P (count_hit (count_get s))) by now apply P_stats.
    destruct (expired e now) eqn:He.
    + rewrite (get_hit_expired now key e s Hc He). now apply P_delete.
    + rewrite (get_hit now key e s Hc He). now apply P_stats.
  - assert (H1 : P (count_miss (count_get s))) by now apply P_stats.
    destruct (JsMap.get key (store s)) as [e|] eqn:Hst.
    + rewrite (get_miss now key e s Hc Hst).
      destruct (expired e now); [now apply P_delete|].
      apply P_stats. now apply P_fill.
    + rewrite (get_absent now key s Hc Hst). now apply P_stats.
Qed.

Lemma run_timers_invariant (now : Z) (s : State) :
  P s -> P (run_timers now s).
Proof.
  unfold run_timers. intro Hs.
  assert (H0 : P (with_timers
                    (filter (fun t => negb (fst t <=? now)%Z) (timers s)) s))
    by now apply P_timers.
  revert H0.
  generalize (with_timers
                (filter (fun t => negb (fst t <=? now)%Z) (timers s)) s).
  induction (filter (fun t => (fst t <=? now)%Z) (timers s)) as [|t due IH];
    intros x Hx; cbn [fold_left]; [exact Hx|].
  apply IH. now apply P_delete.
Qed.

Lemma call_invariant (c : Call) (s : State) : P s -> P (call c s).
Proof.
  intro Hs.
  destruct c as [now k v o | now k | now k | now k | | now]; cbn [call].
  - destruct (put_accepts k v o) eqn:Hacc.
    + now apply P_put.
    + destruct (put_rejected now k v o s Hacc) as [e ->]. exact Hs.
  - now apply get_invariant.
  - now apply P_delete.
  - unfold exists_. destruct (JsMap.get k (store s)) as [e|]; [|exact Hs].
    destruct (expired e now); [now apply P_delete | exact Hs].
  - now apply P_clear.
  - now apply run_timers_invariant.
Qed.

Lemma run_invariant (cs : list Call) (s : State) : P s -> P (run cs s).
Proof.
  revert s. induction cs as [|c cs IH]; intros s Hs; [exact Hs|].
  change (run (c :: cs) s) with (run cs (call c s)).
  now apply IH, call_invariant.
Qed.

End Invariant.

(** ** The size of the cache *)

Lemma size_set_le (k : text) (e : Entry) (m : JsMap.t Entry) :
  JsMap.size (JsMap.set k e m) <= S (JsMap.size m).
Proof.
  unfold JsMap.size. induction m as [|[k' v'] m IH]; cbn; [lia|].
  destruct (text_eqb k' k); cbn; lia.
Qed.

Lemma size_delete_le (k : text) (m : JsMap.t Entry) :
  JsMap.size (JsMap.delete k m) <= JsMap.size m.
Proof. apply filter_length_le. Qed.

Lemma size_delete_head (k : text) (e : Entry) (m : JsMap.t Entry) :
  JsMap.size (JsMap.delete k ((k, e) :: m)) <= JsMap.size m.
Proof.
  unfold JsMap.delete. cbn [filter fst]. rewrite text_eqb_refl. cbn [negb].
  apply filter_length_le.
Qed.

Lemma updateCache_capacity (c : nat) (k : text) (e : Entry) (s : State) :
  1 <= c -> within_capacity c s -> within_capacity c (updateCache k e s).
Proof.
  intros Hc [Hsz Hle]. split; [exact Hsz|].
  unfold updateCache. state_simpl. rewrite Hsz.
  destruct (c <=? JsMap.size (cache s))%nat eqn:Hfull.
  - apply Nat.leb_le in Hfull.
    destruct (cache s) as [|[k0 e0] m] eqn:E.
    + cbn in Hfull. lia.
    + pose proof (size_set_le k e (JsMap.delete k0 ((k0, e0) :: m))).
      pose proof (size_delete_head k0 e0 m).
      change (JsMap.size ((k0, e0) :: m)) with (S (JsMap.size m)) in Hle.
      lia.
  - apply Nat.leb_gt in Hfull.
    pose proof (size_set_le k e (cache s)). lia.
Qed.

Lemma run_capacity (c : nat) (cs : list Call) (s : State) :
  1 <= c -> within_capacity c s -> within_capacity c (run cs s).
Proof.
  intro Hc. apply run_invariant.
  - intros x s0 H. exact H.
  - intros q s0 H. exact H.
  - intros now k s0 [Hsz Hle]. split; [exact Hsz|]. state_simpl.
    pose proof (size_delete_le k (cache s0)). lia.
  - intros now k v o s0 Hacc H.
    destruct (put_steps now k v o s0 Hacc)
      as (s4 & -> & _ & Hca & Hsz & _).
    apply (updateCache_capacity c k (entry_of now v o) s4 Hc).
    destruct H as [H1 H2]. split; [congruence|]. now rewrite Hca.
  - intros k e s0 _ H. now apply updateCache_capacity.
  - intros s0 [Hsz _]. split; [exact Hsz|]. cbn. lia.
Qed.

(** X7.  The cache never outgrows its capacity: with a capacity of at
    least one, no sequence of calls leaves more entries in the cache than
    [cacheSize], and none changes [cacheSize]. *)
Theorem cache_within_capacity (cs : list Call) (s : State) :
  1 <= cacheSize s -> JsMap.size (cache s) <= cacheSize s ->
  cacheSize (run cs s) = cacheSize s
  /\ JsMap.size (cache (run cs s)) <= cacheSize s.
Proof.
  intros Hc Hle. apply (run_capacity (cacheSize s) cs s Hc). now split.
Qed.

Lemma cache_within_capacity_witness :
  JsMap.size
    (cache (run [CallPut 0 (str "a") (VStr (str "1")) no_options;
                 CallPut 1 (str "b") (VStr (str "2")) no_options;
                 CallPut 2 (str "c") (VStr (str "3")) no_options;
                 CallGet 3 (str "a")]
              (with_cacheSize 2 empty_state))) <= 2.
Proof.
  apply (cache_within_capacity _ (with_cacheSize 2 empty_state)); cbn; lia.
Defined.

(** Without a capacity the bound is lost: a cache of capacity zero takes
    an entry. *)
Example cache_of_capacity_zero :
  JsMap.size
    (cache (snd (put 0 (str "a") (VStr (str "1")) no_options
                   (with_cacheSize 0 empty_state)))) = 1.
Proof. reflexivity. Qed.

(** ** The counters *)

Lemma delete_stats (now : Z) (key : text) (s : State) :
  stats (snd (delete now key s)) = stats (recordStats StatDelete s).
Proof. reflexivity. Qed.

Lemma put_stats (now : Z) (key : text) (v : Value) (o : Options) (s : State) :
  put_accepts key v o = true ->
  stats (snd (put now key v o s)) = stats (recordStats StatPut s).
Proof.
  intro H. destruct (put_steps now key v o s H)
    as (s4 & -> & _ & _ & _ & _ & _ & _ & Hst & _).
  cbn. now rewrite Hst.
Qed.

Lemma get_stats (now : Z) (key : text) (s : State) :
  let st := stats s in
  let st' := stats (snd (get now key s)) in
  totalOps st' = S (totalOps st)
  /\ putOps st' = putOps st
  /\ cacheHits st' + cacheMisses st' = S (cacheHits st + cacheMisses st)
  /\ getOps st' + deleteOps st' = S (S (getOps st + deleteOps st))
  /\ (cacheHits st' = S (cacheHits st)
      <-> JsMap.has key (cache s) = true).
Proof.
  cbv zeta. unfold JsMap.has.
  destruct (JsMap.get key (cache s)) as [e|] eqn:Hc.
  - destruct (expired e now) eqn:He.
    + rewrite (get_hit_expired now key e s Hc He). cbn [snd].
      rewrite delete_stats. cbn. repeat split; lia.
    + rewrite (get_hit now key e s Hc He). cbn. repeat split; lia.
  - destruct (JsMap.get key (store s)) as [e|] eqn:Hst.
    + rewrite (get_miss now key e s Hc Hst).
      destruct (expired e now); cbn [snd].
      * rewrite delete_stats. cbn.
        repeat split; try lia; try discriminate.
      * cbn. repeat split; try lia; try discriminate.
    + rewrite (get_absent now key s Hc Hst). cbn.
      repeat split; try lia; try discriminate.
Qed.

(** X8.  What one read counts: [totalOps] goes up by one; [cacheHits]
    by one when the key is in the cache and [cacheMisses] by one when it
    is not; [getOps] by two when the read answers from an entry that is
    live or finds none, and [getOps] by one and [deleteOps] by one when
    the entry it consults has expired; [putOps] stays. *)
Theorem get_counts (now : Z) (key : text) (s : State) :
  let st := stats s in
  let st' := stats (snd (get now key s)) in
  totalOps st' = S (totalOps st)
  /\ putOps st' = putOps st
  /\ cacheHits st'
     = (if JsMap.has key (cache s) then S (cacheHits st) else cacheHits st)
  /\ cacheMisses st'
     = (if JsMap.has key (cache s) then cacheMisses st
        else S (cacheMisses st))
  /\ getOps st'
     = (if stale now key s then S (getOps st) else S (S (getOps st)))
  /\ deleteOps st'
     = (if stale now key s then S (deleteOps st) else deleteOps st).
Proof.
  cbv zeta. unfold JsMap.has, stale.
  destruct (JsMap.get key (cache s)) as [e|] eqn:Hc.
  - destruct (expired e now) eqn:He.
    + rewrite (get_hit_expired now key e s Hc He). cbn [snd].
      rewrite delete_stats. cbn. repeat split.
    + rewrite (get_hit now key e s Hc He). cbn. repeat split.
  - destruct (JsMap.get key (store s)) as [e|] eqn:Hst.
    + rewrite (get_miss now key e s Hc Hst).
      destruct (expired e now); cbn [snd].
      * rewrite delete_stats. cbn. repeat split.
      * cbn. repeat split.
    + rewrite (get_absent now key s Hc Hst). cbn. repeat split.
Qed.

Lemma delete_balanced (now : Z) (key : text) (s : State) :
  balanced (stats s) -> balanced (stats (snd (delete now key s))).
Proof. unfold balanced. rewrite delete_stats. cbn. lia. Qed.

Lemma call_balanced (c : Call) (s : State) :
  balanced (stats s) -> balanced (stats (call c s)).
Proof.
  intro Hs.
  destruct c as [now k v o | now k | now k | now k | | now]; cbn [call].
  - destruct (put_accepts k v o) eqn:Hacc.
    + rewrite (put_stats now k v o s Hacc). unfold balanced in *. cbn. lia.
    + destruct (put_rejected now k v o s Hacc) as [e ->]. exact Hs.
  - pose proof (get_stats now k s) as H. cbv zeta in H.
    unfold balanced in *. lia.
  - now apply delete_balanced.
  - unfold exists_. destruct (JsMap.get k (store s)) as [e|]; [|exact Hs].
    destruct (expired e now); [now apply delete_balanced | exact Hs].
  - reflexivity.
  - unfold run_timers.
    assert (H0 : balanced
                   (stats
                      (with_timers
                         (filter (fun t => negb (fst t <=? now)%Z) (timers s))
                         s))) by exact Hs.
    revert H0.
    generalize (with_timers
                  (filter (fun t => negb (fst t <=? now)%Z) (timers s)) s).
    induction (filter (fun t => (fst t <=? now)%Z) (timers s))
      as [|t due IH]; intros x Hx; cbn [fold_left]; [exact Hx|].
    apply IH. now apply delete_balanced.
Qed.

(** X9.  The counters stay balanced over every sequence of calls:
    [totalOps + cacheHits + cacheMisses = putOps + getOps + deleteOps]. *)
Theorem counters_balanced (cs : list Call) (s : State) :
  balanced (stats s) -> balanced (stats (run cs s)).
Proof.
  revert s. induction cs as [|c cs IH]; intros s Hs; [exact Hs|].
  change (run (c :: cs) s) with (run cs (call c s)).
  now apply IH, call_balanced.
Qed.

Lemma counters_balanced_witness :
  balanced
    (stats (run [CallPut 0 (str "a") (VStr (str "1")) (ttl_options 1);
                 CallGet 5 (str "a"); CallGet 2000 (str "a");
                 CallDelete 2001 (str "b")] empty_state)).
Proof. apply (counters_balanced _ empty_state). reflexivity. Defined.

Lemma run_timers_fold (A : Type) (f : State -> A) (now : Z) (s : State) :
  (forall k x, f (snd (delete now k x)) = f x) ->
  (forall q, f (with_timers q s) = f s) ->
  f (run_timers now s) = f s.
Proof.
  intros Hd Ht. unfold run_timers.
  rewrite <- (Ht (filter (fun t => negb (fst t <=? now)%Z) (timers s))).
  generalize (with_timers
                (filter (fun t => negb (fst t <=? now)%Z) (timers s)) s).
  induction (filter (fun t => (fst t <=? now)%Z) (timers s))
    as [|t due IH]; intro x; cbn [fold_left]; [reflexivity|].
  now rewrite IH, Hd.
Qed.

Lemma call_lookups (c : Call) (s : State) :
  is_clear c = false ->
  cacheHits (stats (call c s)) + cacheMisses (stats (call c s))
  = cacheHits (stats s) + cacheMisses (stats s) + reads [c].
Proof.
  intros Hc.
  destruct c as [now k v o | now k | now k | now k | | now];
    try discriminate; cbn [call reads filter length].
  - destruct (put_accepts k v o) eqn:Hacc.
    + rewrite (put_stats now k v o s Hacc). cbn. lia.
    + destruct (put_rejected now k v o s Hacc) as [e ->]. cbn. lia.
  - pose proof (get_stats now k s) as H. cbv zeta in H. lia.
  - rewrite delete_stats. cbn. lia.
  - unfold exists_. destruct (JsMap.get k (store s)) as [e|]; [|cbn; lia].
    destruct (expired e now); cbn [snd]; [|lia].
    rewrite delete_stats. cbn. lia.
  - rewrite (run_timers_fold _
               (fun x => cacheHits (stats x) + cacheMisses (stats x)) now s);
      [lia | | reflexivity].
    intros k x. rewrite delete_stats. reflexivity.
Qed.

(** X10.  The hits and the misses count the reads: over calls other than
    [clear], [cacheHits + cacheMisses] grows by the number of calls of
    [get], whatever they return. *)
Theorem lookups_count_reads (cs : list Call) (s : State) :
  forallb (fun c => negb (is_clear c)) cs = true ->
  cacheHits (stats (run cs s)) + cacheMisses (stats (run cs s))
  = cacheHits (stats s) + cacheMisses (stats s) + reads cs.
Proof.
  revert s. induction cs as [|c cs IH]; intros s Hcs.
  - cbn. lia.
  - cbn [forallb] in Hcs. apply andb_true_iff in Hcs as [Hc Hcs].
    apply negb_true_iff in Hc.
    change (run (c :: cs) s) with (run cs (call c s)).
    rewrite (IH _ Hcs), (call_lookups c s Hc).
    unfold reads. cbn [filter].
    destruct c; cbn [length]; lia.
Qed.

Lemma lookups_count_reads_witness :
  cacheHits (stats (run [CallGet 0 (str "a");
                         CallPut 1 (str "a") VNull no_options;
                         CallGet 2 (str "a"); CallExists 3 (str "a")]
                      empty_state))
  + cacheMisses (stats (run [CallGet 0 (str "a");
                             CallPut 1 (str "a") VNull no_options;
                             CallGet 2 (str "a"); CallExists 3 (str "a")]
                          empty_state))
  = 2.
Proof.
  rewrite (lookups_count_reads _ empty_state); reflexivity.
Defined.

(** ** The log *)

Lemma call_wal (c : Call) (s : State) :
  is_clear c = false -> exists more, wal (call c s) = wal s ++ more.
Proof.
  intro Hc.
  destruct c as [now k v o | now k | now k | now k | | now];
    try discriminate; cbn [call].
  - destruct (put_accepts k v o) eqn:Hacc.
    + rewrite (put_wal now k v o s Hacc). eauto.
    + destruct (put_rejected now k v o s Hacc) as [e ->].
      exists []. now rewrite app_nil_r.
  - destruct (JsMap.get k (cache s)) as [e|] eqn:Hca.
    + destruct (expired e now) eqn:He.
      * rewrite (get_hit_expired now k e s Hca He). cbn [snd].
        rewrite delete_wal. eauto.
      * rewrite (get_hit now k e s Hca He). exists [].
        now rewrite app_nil_r.
    + destruct (JsMap.get k (store s)) as [e|] eqn:Hst.
      * rewrite (get_miss now k e s Hca Hst).
        destruct (expired e now); cbn [snd].
        -- rewrite delete_wal. eauto.
        -- exists []. now rewrite app_nil_r.
      * rewrite (get_absent now k s Hca Hst). exists [].
        now rewrite app_nil_r.
  - rewrite delete_wal. eauto.
  - unfold exists_. destruct (JsMap.get k (store s)) as [e|].
    + destruct (expired e now); cbn [snd].
      * rewrite delete_wal. eauto.
      * exists []. now rewrite app_nil_r.
    + exists []. now rewrite app_nil_r.
  - unfold run_timers.
    change (wal s)
      with (wal (with_timers
                   (filter (fun t => negb (fst t <=? now)%Z) (timers s)) s)).
    generalize (with_timers
                  (filter (fun t => negb (fst t <=? now)%Z) (timers s)) s).
    induction (filter (fun t => (fst t <=? now)%Z) (timers s))
      as [|t due IH]; intro x; cbn [fold_left].
    + exists []. now rewrite app_nil_r.
    + destruct (IH (snd (delete now (snd t) x))) as [more ->].
      rewrite delete_wal, <- app_assoc. eauto.
Qed.

(** X11.  The log only grows between two calls of [clear]: a sequence of
    calls without [clear] leaves the log it found, with records added at
    the end. *)
Theorem wal_append_only (cs : list Call) (s : State) :
  forallb (fun c => negb (is_clear c)) cs = true ->
  exists more, wal (run cs s) = wal s ++ more.
Proof.
  revert s. induction cs as [|c cs IH]; intros s Hcs.
  - exists []. now rewrite app_nil_r.
  - cbn [forallb] in Hcs. apply andb_true_iff in Hcs as [Hc Hcs].
    apply negb_true_iff in Hc.
    change (run (c :: cs) s) with (run cs (call c s)).
    destruct (IH (call c s) Hcs) as [m1 ->].
    destruct (call_wal c s Hc) as [m0 ->].
    rewrite <- app_assoc. eauto.
Qed.

Lemma wal_append_only_witness :
  exists more,
    wal (run [CallDelete 1 (str "b"); CallGet 2 (str "a")]
           (snd (put 0 (str "a") (VStr (str "1")) no_options empty_state)))
    = [put_record 0 (str "a") (VStr (str "1")) no_options] ++ more.
Proof.
  apply (wal_append_only
           [CallDelete 1 (str "b"); CallGet 2 (str "a")]
           (snd (put 0 (str "a") (VStr (str "1")) no_options empty_state))).
  reflexivity.
Defined.

(** ** The persisted blob *)

Lemma in_sync_frame (s s' : State) :
  blob s' = blob s -> store s' = store s ->
  encryptedKeys s' = encryptedKeys s -> wal s' = wal s ->
  in_sync s -> in_sync s'.
Proof. unfold in_sync. intros -> -> -> ->. auto. Qed.










(** A write that the medium refuses is lost by a restart: [persist]
    catches the exception, the running instance has the key and the
    instance constructed from the blob has not. *)
Example restart_after_refused_write :
  let s := snd (put 0 (str "a") (VStr (str "1")) no_options
                  (with_medium (fun _ => false) empty_state)) in
  fst (get 1 (str "a") s) = Ret (VStr (str "1"))
  /\ blob s = None
  /\ fst (get 1 (str "a") (loadFromStorage (medium s) (blob s))) = Ret VNull.
Proof. repeat split. Qed.

(** ** One call after another *)

Lemma delete_then_get (now now' : Z) (key : text) (s : State) :
  fst (get now' key (snd (delete now key s))) = Ret VNull.
Proof.
  destruct (delete_removes now key s) as [Hst Hca].
  now rewrite (get_absent now' key _ Hca Hst).
Qed.

(** X14.  A deleted key is gone for every reader: after [delete], [get]
    answers null, [exists] false and [getDecrypted] null, and the key is
    no longer among the encrypted keys, whatever the state was. *)
Theorem delete_forgets (now now' : Z) (key : text) (s : State) :
  let s' := snd (delete now key s) in
  fst (get now' key s') = Ret VNull
  /\ fst (exists_ now' key s') = false
  /\ getDecrypted key s' = VNull
  /\ JsSet.has key (encryptedKeys s') = false
  /\ ~ In key (JsMap.keys (store s')).
Proof.
  cbv zeta. destruct (delete_removes now key s) as [Hst Hca].
  split; [apply delete_then_get|].
  unfold exists_, getDecrypted. rewrite Hst.
  repeat split.
  - apply JsSetFacts.has_delete.
  - now apply JsMapFacts.get_none_keys.
Qed.

Lemma put_store_other (now : Z) (key other : text) (v : Value) (o : Options)
  (s : State) :
  other <> key ->
  JsMap.get other (store (snd (put now key v o s))) = JsMap.get other (store s).
Proof.
  intro Hne. destruct (put_accepts key v o) eqn:Hacc.
  - rewrite (put_store now key v o s Hacc).
    apply JsMapFacts.get_set_ne. congruence.
  - now destruct (put_rejected now key v o s Hacc) as [e ->].
Qed.

Lemma delete_store_other (now : Z) (key other : text) (s : State) :
  other <> key ->
  JsMap.get other (store (snd (delete now key s))) = JsMap.get other (store s).
Proof.
  intro Hne. state_simpl. apply JsMapFacts.get_delete_ne. congruence.
Qed.

(** X15.  A write to one key changes no other key's answer: on a state
    whose cache mirrors the store, [put] and [delete] of [key] leave what
    [get] returns for any other key, although the [put] may evict that
    key from the cache. *)
Theorem other_keys_untouched (now t : Z) (key other : text) (v : Value)
  (o : Options) (s : State) :
  cache_coherent s -> other <> key ->
  fst (get t other (snd (put now key v o s))) = fst (get t other s)
  /\ fst (get t other (snd (delete now key s))) = fst (get t other s).
Proof.
  intros Hs Hne.
  rewrite (get_from_store t other s Hs).
  rewrite !get_from_store
    by (apply put_coherent || apply delete_coherent; exact Hs).
  unfold stored_answer.
  now rewrite put_store_other, delete_store_other.
Qed.

Lemma other_keys_untouched_witness :
  fst (get 3 (str "a")
         (snd (put 2 (str "b") (VStr (str "2")) no_options
                 (snd (put 1 (str "a") (VStr (str "1")) no_options
                         (with_cacheSize 1 empty_state))))))
  = Ret (VStr (str "1")).
Proof.
  refine (eq_trans
            (proj1 (other_keys_untouched 2 3 (str "b") (str "a")
                      (VStr (str "2")) no_options
                      (snd (put 1 (str "a") (VStr (str "1")) no_options
                              (with_cacheSize 1 empty_state))) _ _)) _).
  - apply put_coherent. now apply empty_cache_coherent.
  - discriminate.
  - reflexivity.
Defined.

Lemma clear_timers (s : State) : timers (clear s) = timers s.
Proof. reflexivity. Qed.

(** X16.  [clear] does not cancel the timers: a key that had a time to
    live when the store was cleared and is put again without one is
    deleted when the old timer fires. *)
Theorem timer_outlives_clear (now t due : Z) (key : text) (v : Value)
  (o : Options) (s : State) :
  In (due, key) (timers s) -> (due <= t)%Z ->
  put_accepts key v o = true -> opt_ttl o = None ->
  let s' := run [CallClear; CallPut now key v o; RunTimers t] s in
  JsMap.get key (store (run [CallClear; CallPut now key v o] s))
  = Some (entry_of now v o)
  /\ JsMap.get key (store s') = None
  /\ fst (get t key s') = Ret VNull.
Proof.
  intros Hin Hdue Hacc Httl. cbv zeta. cbn [run fold_left call].
  split; [now apply put_store_get|].
  assert (Ht : In (due, key) (timers (snd (put now key v o (clear s))))).
  { rewrite (put_timers now key v o (clear s) Hacc).
    unfold timer_of. now rewrite Httl. }
  destruct (run_timers_removes t key due _ Ht Hdue) as [Hst Hca].
  split; [exact Hst|].
  now rewrite (get_absent t key _ Hca Hst).
Qed.

Lemma timer_outlives_clear_witness :
  fst (get 1000 (str "k")
         (run [CallClear; CallPut 500 (str "k") (VStr (str "b")) no_options;
               RunTimers 1000]
            (snd (put 0 (str "k") (VStr (str "a")) (ttl_options 1)
                    empty_state))))
  = Ret VNull.
Proof.
  apply (timer_outlives_clear 500 1000 1000 (str "k") (VStr (str "b"))
           no_options
           (snd (put 0 (str "k") (VStr (str "a")) (ttl_options 1)
                   empty_state))).
  - cbn. auto.
  - lia.
  - reflexivity.
  - reflexivity.
Defined.

Lemma expired_without_expiry (e : Entry) (now : Z) :
  expiry e = None -> expired e now = false.
Proof. unfold expired. now intros ->. Qed.

Lemma run_timers_queue (now : Z) (s : State) :
  timers (run_timers now s)
  = filter (fun t => negb (fst t <=? now)%Z) (timers s).
Proof.
  unfold run_timers.
  change (filter (fun t => negb (fst t <=? now)%Z) (timers s))
    with (timers
            (with_timers
               (filter (fun t => negb (fst t <=? now)%Z) (timers s)) s))
    at 2.
  generalize (with_timers
                (filter (fun t => negb (fst t <=? now)%Z) (timers s)) s).
  induction (filter (fun t => (fst t <=? now)%Z) (timers s))
    as [|t due IH]; intro x; cbn [fold_left]; [reflexivity|].
  now rewrite IH.
Qed.

Lemma timers_run_keep (key : text) (times : list Z) (s : State) :
  (forall d, ~ In (d, key) (timers s)) ->
  JsMap.get key (store (run (map RunTimers times) s))
  = JsMap.get key (store s)
  /\ JsMap.get key (cache (run (map RunTimers times) s))
     = JsMap.get key (cache s).
Proof.
  revert s. induction times as [|t times IH]; intros s Hs; [now split|].
  cbn [map]. change (run (RunTimers t :: map RunTimers times) s)
    with (run (map RunTimers times) (run_timers t s)).
  destruct (IH (run_timers t s)) as [H1 H2].
  { intros d Hd. rewrite run_timers_queue in Hd.
    apply filter_In in Hd. now apply (Hs d). }
  destruct (run_timers_keeps t key s) as [H3 H4].
  { intros d Hd. now destruct (Hs d). }
  rewrite H1, H2, H3, H4. now split.
Qed.

(** X17.  A time to live that is not positive is no time to live: the
    entry gets no expiry and the put registers no timer; and when no
    earlier timer of the key is pending, the entry stays in the store,
    the key exists and [get] returns its decoded value at every later
    time, however often the timers have run. *)
Theorem nonpositive_ttl_never_expires (now later seconds : Z)
  (times : list Z) (key : text) (v : Value) (o : Options) (s : State) :
  put_accepts key v o = true ->
  opt_ttl o = Some seconds -> (seconds <= 0)%Z ->
  let s' := snd (put now key v o s) in
  let s'' := run (map RunTimers times) s' in
  expiry (entry_of now v o) = None
  /\ timers s' = timers s
  /\ ((forall d, ~ In (d, key) (timers s)) ->
      JsMap.get key (store s'') = Some (entry_of now v o)
      /\ fst (exists_ later key s'') = true
      /\ fst (get later key s'')
         = processValue (stored_value v o) (entry_of now v o)).
Proof.
  intros Hacc Httl Hle. cbv zeta.
  assert (Hex : expiry_of now o = None).
  { unfold expiry_of. rewrite Httl.
    destruct (0 <? seconds)%Z eqn:E; [|reflexivity].
    apply Z.ltb_lt in E. lia. }
  assert (Htm : timer_of now o = None).
  { unfold timer_of. rewrite Httl.
    destruct (0 <? seconds)%Z eqn:E; [|reflexivity].
    apply Z.ltb_lt in E. lia. }
  assert (He : expired (entry_of now v o) later = false)
    by now apply expired_without_expiry.
  assert (Ht : timers (snd (put now key v o s)) = timers s).
  { rewrite (put_timers now key v o s Hacc). now rewrite Htm. }
  split; [exact Hex|]. split; [exact Ht|]. intro Hfree.
  destruct (timers_run_keep key times (snd (put now key v o s)))
    as [Hst Hca].
  { intros d. rewrite Ht. apply Hfree. }
  rewrite (put_store_get now key v o s Hacc) in Hst.
  rewrite (put_cache_get now key v o s Hacc) in Hca.
  repeat split.
  - exact Hst.
  - unfold exists_. rewrite Hst. now rewrite He.
  - now rewrite (get_hit later key (entry_of now v o) _ Hca He).
Qed.

Lemma nonpositive_ttl_never_expires_witness :
  fst (exists_ 1000000 (str "k")
         (run (map RunTimers [10; 5000; 999999]%Z)
            (snd (put 0 (str "k") (VStr (str "a")) (ttl_options (-5))
                    empty_state))))
  = true.
Proof.
  destruct (nonpositive_ttl_never_expires 0 1000000 (-5)
              [10; 5000; 999999]%Z (str "k") (VStr (str "a"))
              (ttl_options (-5)) empty_state) as (_ & _ & H).
  - reflexivity.
  - reflexivity.
  - lia.
  - apply H. intros d [].
Defined.

(** With a timer of an earlier put pending the key does not stay: put
    with a time to live of one second, put again with a time to live of
    zero, the key is gone once the timer has run. *)
Example nonpositive_ttl_after_timer :
  fst (exists_ 2000 (str "k")
         (run [CallPut 0 (str "k") (VStr (str "a")) (ttl_options 1);
               CallPut 1 (str "k") (VStr (str "b")) (ttl_options 0);
               RunTimers 1000] empty_state))
  = false.
Proof. reflexivity. Qed.

(** X18.  [exists] and [get] agree on what is absent: where [exists]
    answers false, [get] answers null; and where [exists] answers true on
    a state whose cache mirrors the store, [get] answers the decoded
    value of the stored entry. *)
Theorem exists_agrees_with_get (now : Z) (key : text) (s : State) :
  cache_coherent s ->
  (fst (exists_ now key s) = false -> fst (get now key s) = Ret VNull)
  /\ (fst (exists_ now key s) = true ->
      exists e, JsMap.get key (store s) = Some e
                /\ fst (get now key s) = processValue (value e) e).
Proof.
  intro Hs. rewrite (get_from_store now key s Hs).
  unfold exists_, stored_answer.
  destruct (JsMap.get key (store s)) as [e|]; [|split; [auto|discriminate]].
  destruct (expired e now); cbn [fst]; split;
    try discriminate; eauto.
Qed.

Lemma exists_agrees_with_get_witness :
  fst (get 2000 (str "k")
         (snd (put 0 (str "k") (VStr (str "a")) (ttl_options 1)
                 empty_state)))
  = Ret VNull.
Proof.
  apply (exists_agrees_with_get 2000 (str "k")
           (snd (put 0 (str "k") (VStr (str "a")) (ttl_options 1)
                   empty_state))).
  - apply put_coherent. now apply empty_cache_coherent.
  - reflexivity.
Defined.

(** ** Values that are not strings under the codec *)

Lemma processValue_throws (v : Value) (e : Entry) (x : Exn) :
  processValue v e = Throw x -> x = TypeError.
Proof.
  unfold processValue.
  destruct (compressed e), v, (encrypted e); congruence.
Qed.

Lemma export_entries_throws (now : Z) (key : text) (e : Entry)
  (m : list (text * Entry)) :
  In (key, e) m -> processValue (value e) e = Throw TypeError ->
  export_entries now m = Throw TypeError.
Proof.
  intros Hin Hp. induction m as [|[k0 e0] m IH]; [contradiction|].
  cbn [export_entries].
  destruct (processValue (value e0) e0) as [v0|x] eqn:E0.
  - destruct Hin as [[= -> ->] | Hin]; [congruence|].
    now rewrite (IH Hin).
  - now rewrite (processValue_throws _ _ _ E0).
Qed.

Lemma get_In (key : text) (e : Entry) (m : JsMap.t Entry) :
  JsMap.get key m = Some e -> In (key, e) m.
Proof.
  induction m as [|[k0 e0] m IH]; cbn [JsMap.get]; [discriminate|].
  destruct (text_eqb k0 key) eqn:E.
  - apply text_eqb_eq in E. intros [= ->]. left. now subst.
  - intro H. right. now apply IH.
Qed.

Section ExportFacts.

Variable JSON_stringify : bool -> list ExportEntry -> text.

(** X19.  The [compress] option on a value that is not a string poisons
    the store: [put] accepts null, a boolean or a number and marks the
    entry as compressed, after which every [get] of the key throws a
    TypeError, and so do [getAllEntries] and [export] in every format,
    for the whole store. *)
Theorem compress_flag_poisons_reads (now later : Z) (key format : text)
  (v : Value) (o : Options) (s : State) :
  key <> [] -> is_scalar v = true ->
  opt_compress o = true -> opt_encrypted o = false -> opt_ttl o = None ->
  let s' := snd (put now key v o s) in
  fst (put now key v o s) = Ret true
  /\ fst (get later key s') = Throw TypeError
  /\ getAllEntries later s' = Throw TypeError
  /\ export JSON_stringify later format s' = Throw TypeError.
Proof.
  intros Hk Hv Hc He Ht. cbv zeta.
  assert (Hacc : put_accepts key v o = true).
  { unfold put_accepts. rewrite He. destruct key; [congruence|].
    now destruct v. }
  assert (Hp : processValue (value (entry_of now v o)) (entry_of now v o)
               = Throw TypeError).
  { unfold processValue, entry_of, stored_value. cbn. rewrite He, Hc.
    now destruct v. }
  assert (Hx : expired (entry_of now v o) later = false).
  { apply expired_without_expiry. cbn. unfold expiry_of. now rewrite Ht. }
  assert (Hall : getAllEntries later (snd (put now key v o s))
                 = Throw TypeError).
  { unfold getAllEntries.
    apply (export_entries_throws later key (entry_of now v o)); [|exact Hp].
    apply get_In. now apply put_store_get. }
  repeat split.
  - now rewrite (put_accepted now key v o s Hacc).
  - rewrite (get_hit later key (entry_of now v o)); [exact Hp| |exact Hx].
    now apply put_cache_get.
  - exact Hall.
  - unfold export. now rewrite Hall.
Qed.

End ExportFacts.

Lemma compress_flag_poisons_reads_witness :
  export (fun _ _ => []) 1 (str "csv")
    (snd (put 0 (str "n") (VNum 42)
            {| opt_ttl := None; opt_encrypted := false; opt_compress := true |}
            (snd (put 0 (str "a") (VStr (str "1")) no_options empty_state))))
  = Throw TypeError.
Proof.
  apply (compress_flag_poisons_reads (fun _ _ => []) 0 1 (str "n") (str "csv")
           (VNum 42)
           {| opt_ttl := None; opt_encrypted := false; opt_compress := true |}
           (snd (put 0 (str "a") (VStr (str "1")) no_options empty_state)));
    reflexivity || discriminate.
Defined.

(** X20.  Encryption loses a value that is not a string: a boolean or a
    number put with the [encrypted] option is stored as the empty string
    and read back as the empty string, and null with that option makes
    [put] throw a TypeError and change nothing. *)
Theorem encrypted_scalar_is_lost (now later : Z) (key : text) (v : Value)
  (o : Options) (s : State) :
  key <> [] -> is_scalar v = true ->
  opt_encrypted o = true -> opt_ttl o = None ->
  match v with
  | VNull => put now key v o s = (Throw TypeError, s)
  | _ =>
      fst (put now key v o s) = Ret true
      /\ fst (get later key (snd (put now key v o s))) = Ret (VStr [])
      /\ getDecrypted key (snd (put now key v o s)) = VStr []
  end.
Proof.
  intros Hk Hsc He Ht.
  assert (Hx : forall w, expired (entry_of now w o) later = false).
  { intro w. apply expired_without_expiry. cbn. unfold expiry_of.
    now rewrite Ht. }
  assert (Hs : forall w, is_scalar w = true -> w <> VNull ->
                         fst (put now key w o s) = Ret true
                         /\ fst (get later key (snd (put now key w o s)))
                            = Ret (VStr [])
                         /\ getDecrypted key (snd (put now key w o s))
                            = VStr []).
  { intros w Hw Hn.
    assert (Hacc : put_accepts key w o = true).
    { unfold put_accepts. rewrite He. destruct key; [congruence|].
      destruct w; try reflexivity; try discriminate. congruence. }
    assert (Hval : stored_value w o = VStr []).
    { unfold stored_value. rewrite He.
      destruct w; try discriminate; try congruence;
        cbn; destruct (opt_compress o); reflexivity. }
    repeat split.
    - now rewrite (put_accepted now key w o s Hacc).
    - rewrite (get_hit later key (entry_of now w o));
        [| now apply put_cache_get | apply Hx].
      cbn [fst]. unfold processValue, entry_of. cbn. rewrite Hval, He.
      destruct (opt_compress o); reflexivity.
    - unfold getDecrypted. rewrite (put_store_get now key w o s Hacc).
      cbn. rewrite Hval, He. reflexivity. }
  destruct v; try discriminate.
  - unfold put. destruct key; [congruence|]. now rewrite He.
  - apply Hs; [reflexivity | discriminate].
  - apply Hs; [reflexivity | discriminate].
Qed.

Lemma encrypted_scalar_is_lost_witness :
  fst (get 1 (str "pin")
         (snd (put 0 (str "pin") (VNum 1234)
                 {| opt_ttl := None; opt_encrypted := true;
                    opt_compress := false |} empty_state)))
  = Ret (VStr []).
Proof.
  apply (encrypted_scalar_is_lost 0 1 (str "pin") (VNum 1234)
           {| opt_ttl := None; opt_encrypted := true; opt_compress := false |}
           empty_state); reflexivity || discriminate.
Defined.

(** X21.  [getDecrypted] gives back what [putEncrypted] was given, for
    every text whose code units are below 256, at any time (it does not
    look at the expiry), and the key is among the encrypted keys. *)
Theorem encrypted_round_trip (now : Z) (key t : text) (ttl : option Z)
  (s : State) :
  key <> [] -> latin1 t ->
  let s' := snd (putEncrypted now key (VStr t) ttl s) in
  fst (putEncrypted now key (VStr t) ttl s) = Ret true
  /\ getDecrypted key s' = VStr t
  /\ JsSet.has key (encryptedKeys s') = true.
Proof.
  intros Hk Hl. cbv zeta. unfold putEncrypted.
  set (o := {| opt_ttl := ttl; opt_encrypted := true;
               opt_compress := false |}).
  assert (Hacc : put_accepts key (VStr t) o = true)
    by (apply put_accepts_text; auto).
  repeat split.
  - now rewrite (put_accepted now key (VStr t) o s Hacc).
  - unfold getDecrypted. rewrite (put_store_get now key (VStr t) o s Hacc).
    change (encrypted (entry_of now (VStr t) o)) with true.
    change (value (entry_of now (VStr t) o)) with (stored_value (VStr t) o).
    unfold stored_value.
    change (opt_encrypted o) with true. change (opt_compress o) with false.
    cbv iota. rewrite (CryptoFacts.encrypt_latin1 t Hl). cbv beta iota.
    now apply CryptoFacts.decrypt_encode.
  - destruct (put_steps now key (VStr t) o s Hacc)
      as (s4 & -> & _ & _ & _ & Hek & _).
    cbn. rewrite Hek. cbn. apply JsSetFacts.has_add.
Qed.

Lemma encrypted_round_trip_witness :
  getDecrypted (str "token")
    (snd (putEncrypted 0 (str "token") (VStr (str "s3cret")) (Some 1%Z)
            empty_state))
  = VStr (str "s3cret").
Proof.
  apply (encrypted_round_trip 0 (str "token") (str "s3cret") (Some 1%Z)
           empty_state).
  - discriminate.
  - unfold latin1. repeat constructor.
Defined.

(** ** The queries *)

Lemma text_leb_refl (a : text) : text_leb a a = true.
Proof.
  induction a as [|x a IH]; cbn [text_leb]; [reflexivity|].
  now rewrite N.ltb_irrefl.
Qed.

Lemma text_leb_total (a b : text) :
  text_leb a b = true \/ text_leb b a = true.
Proof.
  revert b. induction a as [|x a IH]; intros [|y b]; cbn [text_leb]; auto.
  destruct (N.ltb_spec x y), (N.ltb_spec y x); auto; lia.
Qed.

Lemma text_leb_trans (a b c : text) :
  text_leb a b = true -> text_leb b c = true -> text_leb a c = true.
Proof.
  revert b c.
  induction a as [|x a IH]; intros [|y b] [|z c]; cbn [text_leb];
    try congruence.
  destruct (N.ltb_spec x y), (N.ltb_spec y x), (N.ltb_spec y z),
    (N.ltb_spec z y), (N.ltb_spec x z), (N.ltb_spec z x);
    try congruence; try lia.
  apply IH.
Qed.

Lemma text_leb_antisym (a b : text) :
  text_leb a b = true -> text_leb b a = true -> a = b.
Proof.
  revert b. induction a as [|x a IH]; intros [|y b]; cbn [text_leb];
    try congruence.
  destruct (N.ltb_spec x y), (N.ltb_spec y x); try congruence; try lia.
  intros H1 H2. f_equal; [lia | now apply IH].
Qed.

Lemma insert_key_perm (k : text) (l : list text) :
  Permutation (insert_key k l) (k :: l).
Proof.
  induction l as [|h l IH]; cbn [insert_key]; [reflexivity|].
  destruct (text_leb k h); [reflexivity|].
  rewrite IH. apply perm_swap.
Qed.

Lemma sort_keys_perm (l : list text) : Permutation (sort_keys l) l.
Proof.
  induction l as [|k l IH]; cbn [sort_keys fold_right]; [reflexivity|].
  rewrite insert_key_perm. now constructor.
Qed.

Lemma insert_key_sorted (k : text) (l : list text) :
  StronglySorted text_le l -> StronglySorted text_le (insert_key k l).
Proof.
  induction 1 as [|h l Hl IH Hh]; cbn [insert_key].
  - repeat constructor.
  - destruct (text_leb k h) eqn:E.
    + constructor; [now constructor|].
      constructor; [exact E|].
      eapply Forall_impl; [|exact Hh].
      intros c Hc. exact (text_leb_trans k h c E Hc).
    + constructor; [exact IH|].
      refine (Permutation_Forall (Permutation_sym (insert_key_perm k l)) _).
      constructor; [|exact Hh].
      destruct (text_leb_total k h) as [H|H]; [congruence | exact H].
Qed.

Lemma sort_keys_sorted (l : list text) : StronglySorted text_le (sort_keys l).
Proof.
  induction l as [|k l IH]; cbn [sort_keys fold_right]; [constructor|].
  now apply insert_key_sorted.
Qed.

Lemma filter_sorted (A : Type) (R : A -> A -> Prop) (f : A -> bool)
  (l : list A) :
  StronglySorted R l -> StronglySorted R (filter f l).
Proof.
  induction 1 as [|h l Hl IH Hh]; cbn [filter]; [constructor|].
  destruct (f h); [|exact IH].
  constructor; [exact IH|].
  apply Forall_forall. intros x Hx. apply filter_In in Hx as [Hx _].
  revert x Hx. now apply Forall_forall.
Qed.

Lemma filter_perm (A : Type) (f : A -> bool) (l l' : list A) :
  Permutation l l' -> Permutation (filter f l) (filter f l').
Proof.
  induction 1 as [|x l l' _ IH|x y l|l l' l'' _ IH1 _ IH2]; cbn [filter].
  - reflexivity.
  - destruct (f x); [now constructor | exact IH].
  - destruct (f x), (f y); try reflexivity. apply perm_swap.
  - now rewrite IH1.
Qed.

(** X22.  [rangeQuery] returns the keys of the store that lie between its
    two bounds, both included, each as often as the store has it, in
    ascending order of their code units. *)
Theorem rangeQuery_sorted_range (first last : text) (s : State) :
  StronglySorted text_le (rangeQuery first last s)
  /\ Permutation (rangeQuery first last s)
       (filter (fun k => text_leb first k && text_leb k last)
          (JsMap.keys (store s)))
  /\ forall k, In k (rangeQuery first last s)
               <-> In k (JsMap.keys (store s))
                   /\ text_le first k /\ text_le k last.
Proof.
  unfold rangeQuery. split; [|split].
  - apply filter_sorted, sort_keys_sorted.
  - apply filter_perm, sort_keys_perm.
  - intro k. rewrite filter_In, andb_true_iff.
    split; intros [Hin Hr]; (split; [|exact Hr]).
    + eapply Permutation_in; [apply sort_keys_perm | exact Hin].
    + eapply Permutation_in;
        [apply Permutation_sym, sort_keys_perm | exact Hin].
Qed.

(** An empty range: the bounds in the wrong order select nothing. *)
Lemma rangeQuery_empty (first last : text) (s : State) :
  text_leb first last = false -> rangeQuery first last s = [].
Proof.
  intro H. unfold rangeQuery.
  induction (sort_keys (JsMap.keys (store s))) as [|k l IH];
    cbn [filter]; [reflexivity|].
  destruct (text_leb first k) eqn:E1, (text_leb k last) eqn:E2;
    cbn [andb]; try exact IH.
  now rewrite (text_leb_trans first k last E1 E2) in H.
Qed.

Lemma starts_with_app (prefix k : text) :
  starts_with prefix k = true <-> exists rest, k = prefix ++ rest.
Proof.
  revert k. induction prefix as [|p ps IH]; intro k; cbn [starts_with].
  - split; [intros _; now exists k | reflexivity].
  - destruct k as [|c r].
    + split; [discriminate | intros [rest H]; discriminate].
    + rewrite andb_true_iff, N.eqb_eq, IH.
      split.
      * intros [-> [rest ->]]. now exists rest.
      * intros [rest [= -> ->]]. eauto.
Qed.

Lemma starts_with_slice (prefix k : text) :
  starts_with prefix k = text_eqb (firstn (length prefix) k) prefix.
Proof.
  assert (H : starts_with prefix k = true
              <-> text_eqb (firstn (length prefix) k) prefix = true).
  { rewrite starts_with_app, text_eqb_eq. split.
    - intros [rest ->]. rewrite firstn_app, Nat.sub_diag, firstn_all.
      cbn [firstn]. apply app_nil_r.
    - intro Hf. exists (skipn (length prefix) k).
      rewrite <- Hf at 1. symmetry. apply firstn_skipn. }
  destruct (starts_with prefix k),
    (text_eqb (firstn (length prefix) k) prefix); try reflexivity.
  - symmetry. now apply H.
  - now apply H.
Qed.

(** X23.  [prefixSearch] returns the keys of the store that are the
    prefix followed by some text, in the order of insertion: it is the
    list of the keys without those whose first code units, as many as the
    prefix has, are not the prefix; the empty prefix returns every
    key. *)
Theorem prefixSearch_keys (prefix : text) (s : State) :
  prefixSearch prefix s
  = filter (fun k => text_eqb (firstn (length prefix) k) prefix)
      (JsMap.keys (store s))
  /\ (forall k, In k (prefixSearch prefix s)
                <-> JsMap.has k (store s) = true
                    /\ exists rest, k = prefix ++ rest)
  /\ prefixSearch [] s = JsMap.keys (store s).
Proof.
  split; [|split].
  - unfold prefixSearch. apply filter_ext. intro k.
    apply starts_with_slice.
  - intro k. unfold prefixSearch. rewrite filter_In, starts_with_app.
    assert (H : In k (JsMap.keys (store s))
                <-> JsMap.has k (store s) = true).
    { rewrite JsMapFacts.has_get.
      pose proof (JsMapFacts.get_none_keys _ k (store s)) as Hn.
      destruct (JsMap.get k (store s)) eqn:E.
      - split; [congruence|]. intros _.
        destruct (in_dec text_eq_dec k (JsMap.keys (store s))) as [Hi|Hi];
          [exact Hi|]. apply Hn in Hi. congruence.
      - split; [|congruence]. intro Hi. now apply Hn in Hi. }
    now rewrite H.
  - unfold prefixSearch. induction (JsMap.keys (store s)) as [|k l IH];
      cbn [filter starts_with]; [reflexivity|]. f_equal. exact IH.
Qed.

Lemma insert_by_size_perm (x : text * nat) (l : list (text * nat)) :
  Permutation (insert_by_size x l) (x :: l).
Proof.
  induction l as [|h l IH]; cbn [insert_by_size]; [reflexivity|].
  destruct (snd h <=? snd x)%nat; [reflexivity|].
  rewrite IH. apply perm_swap.
Qed.

Lemma sort_by_size_perm (l : list (text * nat)) :
  Permutation (sort_by_size l) l.
Proof.
  induction l as [|x l IH]; cbn [sort_by_size fold_right]; [reflexivity|].
  rewrite insert_by_size_perm. now constructor.
Qed.

Lemma insert_by_size_sorted (x : text * nat) (l : list (text * nat)) :
  StronglySorted size_ge l -> StronglySorted size_ge (insert_by_size x l).
Proof.
  induction 1 as [|h l Hl IH Hh]; cbn [insert_by_size].
  - repeat constructor.
  - destruct (Nat.leb_spec (snd h) (snd x)) as [E|E].
    + constructor; [now constructor|].
      constructor; [exact E|].
      eapply Forall_impl; [|exact Hh].
      unfold size_ge. intros c Hc. lia.
    + constructor; [exact IH|].
      refine (Permutation_Forall
                (Permutation_sym (insert_by_size_perm x l)) _).
      constructor; [unfold size_ge; lia | exact Hh].
Qed.

Lemma sort_by_size_sorted (l : list (text * nat)) :
  StronglySorted size_ge (sort_by_size l).
Proof.
  induction l as [|x l IH]; cbn [sort_by_size fold_right]; [constructor|].
  now apply insert_by_size_sorted.
Qed.

(** The sort is stable: the entries of one size keep their order. *)
Lemma insert_by_size_stable (n : nat) (x : text * nat)
  (l : list (text * nat)) :
  filter (fun y => snd y =? n) (insert_by_size x l)
  = filter (fun y => snd y =? n) (x :: l).
Proof.
  induction l as [|h l IH]; cbn [insert_by_size]; [reflexivity|].
  destruct (Nat.leb_spec (snd h) (snd x)) as [E|E]; [reflexivity|].
  cbn [filter] in *. rewrite IH.
  destruct (Nat.eqb_spec (snd h) n), (Nat.eqb_spec (snd x) n);
    try reflexivity. lia.
Qed.

Lemma sort_by_size_stable (n : nat) (l : list (text * nat)) :
  filter (fun y => snd y =? n) (sort_by_size l)
  = filter (fun y => snd y =? n) l.
Proof.
  induction l as [|x l IH]; cbn [sort_by_size fold_right]; [reflexivity|].
  rewrite insert_by_size_stable. cbn [filter].
  fold (sort_by_size l). now rewrite IH.
Qed.

Lemma sorted_app (A : Type) (R : A -> A -> Prop) (l1 l2 : list A) :
  StronglySorted R (l1 ++ l2) ->
  StronglySorted R l1 /\ forall x y, In x l1 -> In y l2 -> R x y.
Proof.
  induction l1 as [|a l1 IH]; cbn [app]; intro H.
  - split; [constructor | contradiction].
  - apply StronglySorted_inv in H as [H Ha].
    destruct (IH H) as [H1 H2]. split.
    + constructor; [exact H1|].
      apply Forall_forall. intros x Hx.
      apply (proj1 (Forall_forall _ _) Ha). apply in_or_app. now left.
    + intros x y [<- | Hx] Hy; [|now apply H2].
      apply (proj1 (Forall_forall _ _) Ha). apply in_or_app. now right.
Qed.

Lemma entry_sizes_keys (m : list (text * Entry)) (sizes : list (text * nat)) :
  entry_sizes m = Ret sizes -> map fst sizes = JsMap.keys m.
Proof.
  revert sizes. induction m as [|[k e] m IH]; intros sizes;
    cbn [entry_sizes].
  - now intros [= <-].
  - destruct (JSON_stringify_value (value e)); [|discriminate].
    destruct (entry_sizes m) as [l|]; [|discriminate].
    intros [= <-]. cbn. f_equal. now apply IH.
Qed.

(** X24.  On a store whose numbers are safe integers, [keysBySize]
    returns the [limit] largest entries, by the length of the JSON text
    of their stored values: the result has [limit] entries or all of
    them, the larger first, no entry that is left out is larger than one
    that is returned, and entries of the same size come in the order of
    insertion. *)
Theorem keysBySize_largest (limit : nat) (s : State)
  (sizes : list (text * nat)) :
  values_safe s ->
  entry_sizes (store s) = Ret sizes ->
  exists r rest,
    keysBySize limit s = Ret r
    /\ length r = Nat.min limit (JsMap.size (store s))
    /\ StronglySorted size_ge r
    /\ Permutation (r ++ rest) sizes
    /\ map fst sizes = JsMap.keys (store s)
    /\ (forall x y, In x r -> In y rest -> size_ge x y)
    /\ forall n, filter (fun y => snd y =? n) (r ++ rest)
                 = filter (fun y => snd y =? n) sizes.
Proof.
  intros _ Hs.
  exists (firstn limit (sort_by_size sizes)),
    (skipn limit (sort_by_size sizes)).
  pose proof (sort_by_size_sorted sizes) as Hsorted.
  rewrite <- (firstn_skipn limit (sort_by_size sizes)) in Hsorted.
  destruct (sorted_app _ _ _ _ Hsorted) as [H1 H2].
  pose proof (entry_sizes_keys _ _ Hs) as Hk.
  unfold keysBySize. rewrite Hs, firstn_skipn.
  repeat split; auto.
  - rewrite length_firstn.
    rewrite (Permutation_length (sort_by_size_perm sizes)).
    unfold JsMap.size.
    rewrite <- (length_map fst sizes), Hk. unfold JsMap.keys.
    now rewrite length_map.
  - apply sort_by_size_perm.
  - intro n. apply sort_by_size_stable.
Qed.

Lemma keysBySize_largest_witness :
  exists r rest,
    keysBySize 2
      (run [CallPut 0 (str "a") (VStr (str "xy")) no_options;
            CallPut 1 (str "b") (VNum 12345) no_options;
            CallPut 2 (str "c") (VStr (str "zt")) no_options;
            CallPut 3 (str "d") VNull no_options] empty_state)
    = Ret r
    /\ length r = 2
    /\ StronglySorted size_ge r
    /\ Permutation (r ++ rest)
         [(str "a", 4); (str "b", 5); (str "c", 4); (str "d", 4)]
    /\ map fst [(str "a", 4); (str "b", 5); (str "c", 4); (str "d", 4)]
       = [str "a"; str "b"; str "c"; str "d"]
    /\ (forall x y, In x r -> In y rest -> size_ge x y)
    /\ forall n, filter (fun y => snd y =? n) (r ++ rest)
                 = filter (fun y => snd y =? n)
                     [(str "a", 4); (str "b", 5); (str "c", 4); (str "d", 4)].
Proof.
  apply (keysBySize_largest 2
           (run [CallPut 0 (str "a") (VStr (str "xy")) no_options;
                 CallPut 1 (str "b") (VNum 12345) no_options;
                 CallPut 2 (str "c") (VStr (str "zt")) no_options;
                 CallPut 3 (str "d") VNull no_options] empty_state)).
  - intros k e Hin. cbn in Hin.
    destruct Hin as [[= <- <-] | [[= <- <-] | [[= <- <-] | [[= <- <-] | []]]]];
      cbn; unfold safe_integer; try exact I; lia.
  - reflexivity.
Defined.







(** ** Export and import of delimited text *)

Lemma split_free (sep : N) (t : text) :
  free_of sep t -> split sep t = [t].
Proof.
  unfold free_of. induction t as [|c t IH]; intro H; cbn [split];
    [reflexivity|].
  destruct (N.eqb_spec c sep) as [-> | Hne]; [destruct H; now left|].
  rewrite IH; [reflexivity|]. intro Hin. apply H. now right.
Qed.

Lemma split_app (sep : N) (a b : text) :
  free_of sep a -> split sep (a ++ sep :: b) = a :: split sep b.
Proof.
  unfold free_of. induction a as [|c a IH]; intro H; cbn [split app].
  - now rewrite N.eqb_refl.
  - destruct (N.eqb_spec c sep) as [-> | Hne]; [destruct H; now left|].
    rewrite IH; [reflexivity|]. intro Hin. apply H. now right.
Qed.

Lemma join_cons (sep x y : text) (l : list text) :
  join sep (x :: y :: l) = x ++ sep ++ join sep (y :: l).
Proof. reflexivity. Qed.

Lemma split_join (sep : N) (x : text) (l : list text) :
  Forall (free_of sep) (x :: l) -> split sep (join [sep] (x :: l)) = x :: l.
Proof.
  revert x. induction l as [|y l IH]; intros x H.
  - apply split_free. now inversion H.
  - inversion H as [|? ? Hx Hl]; subst.
    rewrite join_cons.
    change ([sep] ++ join [sep] (y :: l)) with (sep :: join [sep] (y :: l)).
    rewrite (split_app sep x _ Hx). f_equal. now apply IH.
Qed.

Lemma free_of_app (c : N) (a b : text) :
  free_of c a -> free_of c b -> free_of c (a ++ b).
Proof.
  unfold free_of. intros Ha Hb Hin.
  apply in_app_or in Hin as [H | H]; auto.
Qed.

Lemma free_of_cons (c d : N) (t : text) :
  d <> c -> free_of c t -> free_of c (d :: t).
Proof. unfold free_of. intros Hd Ht [H | H]; auto. Qed.

Lemma free_of_digits (c : N) (d : uint) :
  is_digit c = false -> free_of c (text_of_uint d).
Proof.
  intros Hc Hin.
  pose proof (text_of_uint_digits d) as Hd.
  rewrite Forall_forall in Hd. specialize (Hd c Hin). congruence.
Qed.

Lemma free_of_number (c : N) (z : Z) :
  is_digit c = false -> c <> 45%N -> free_of c (toString (VNum z)).
Proof.
  intros Hc Hm. cbn [toString]. unfold text_of_int.
  destruct (Z.to_int z); [now apply free_of_digits|].
  apply free_of_cons; [congruence | now apply free_of_digits].
Qed.

Lemma free_of_closed (c : N) (t : text) :
  forallb (fun d => negb (d =? c)%N) t = true -> free_of c t.
Proof.
  intros H Hin. rewrite forallb_forall in H. specialize (H c Hin).
  now rewrite N.eqb_refl in H.
Qed.

Lemma in_quotes_free (c : N) (t : text) :
  c <> 34%N -> free_of c t -> free_of c (in_quotes t).
Proof.
  intros Hc Ht. unfold in_quotes. apply free_of_cons; [congruence|].
  apply free_of_app; [exact Ht|]. apply free_of_cons; [congruence|].
  intros [].
Qed.

Lemma csv_line_free (e : ExportEntry) :
  csv_clean e -> free_of 10 (csv_line e).
Proof.
  intros (_ & Hk & _ & Hv). unfold csv_line.
  repeat first
    [ apply free_of_app
    | apply in_quotes_free; [discriminate|]
    | apply free_of_number; [reflexivity | discriminate]
    | assumption ];
    try (apply free_of_closed; reflexivity).
  - destruct (x_encrypted e); apply free_of_closed; reflexivity.
  - destruct (x_ttl e);
      [apply free_of_number; [reflexivity | discriminate]
      | apply free_of_closed; reflexivity].
Qed.

Lemma trim_in_quotes (t : text) : trim (in_quotes t) = in_quotes t.
Proof.
  unfold trim, in_quotes. cbn [trim_start].
  change (is_trim_space 34) with false. cbv iota.
  change (34%N :: t ++ [34%N]) with ((34%N :: t) ++ [34%N]).
  rewrite rev_app_distr. cbn [rev app trim_start].
  change (is_trim_space 34) with false. cbv iota.
  change (34%N :: rev t ++ [34%N]) with ([34%N] ++ rev (34%N :: t)).
  rewrite rev_app_distr, rev_involutive. reflexivity.
Qed.

Lemma strip_in_quotes (t : text) : strip_quotes (in_quotes t) = t.
Proof.
  unfold strip_quotes, in_quotes. rewrite N.eqb_refl.
  rewrite rev_app_distr. cbn [rev app]. rewrite N.eqb_refl.
  apply rev_involutive.
Qed.

Lemma csv_line_entry (e : ExportEntry) :
  csv_clean e ->
  entry_of_fields (map (fun f => strip_quotes (trim f)) (split 44 (csv_line e)))
  = kept (fun t => t) e.
Proof.
  intros (Hk & _ & Hv & _). unfold csv_line.
  change (in_quotes (x_key e) ++ [44%N] ++ in_quotes (toString (x_value e))
          ++ [44%N] ++ ?r)
    with (in_quotes (x_key e)
          ++ 44%N :: (in_quotes (toString (x_value e)) ++ 44%N :: r)).
  rewrite !split_app by (apply in_quotes_free; [discriminate | assumption]).
  cbn [map entry_of_fields].
  now rewrite !trim_in_quotes, !strip_in_quotes.
Qed.

Lemma parse_export_csv (entries : list ExportEntry) :
  Forall csv_clean entries ->
  parse_csv (export_csv entries)
  = map Some (map (kept (fun t => t)) entries).
Proof.
  intro H. unfold parse_csv, export_csv.
  rewrite split_join.
  - cbn [skipn]. rewrite !map_map.
    apply map_ext_in. intros e He. f_equal. apply csv_line_entry.
    rewrite Forall_forall in H. now apply H.
  - constructor; [apply free_of_closed; reflexivity|].
    apply Forall_forall. intros l Hl. apply in_map_iff in Hl as (e & <- & He).
    apply csv_line_free. rewrite Forall_forall in H. now apply H.
Qed.

Lemma trim_start_space (t : text) : trim_start (t ++ [32%N]) = []
  \/ trim_start (t ++ [32%N]) = trim_start t ++ [32%N].
Proof.
  induction t as [|c t IH]; cbn [app trim_start].
  - left. reflexivity.
  - destruct (is_trim_space c); [exact IH | now right].
Qed.

Lemma trim_start_nil (t : text) :
  trim_start (t ++ [32%N]) = [] -> trim_start t = [].
Proof.
  induction t as [|c t IH]; cbn [app trim_start]; [reflexivity|].
  destruct (is_trim_space c); [exact IH | discriminate].
Qed.

Lemma trim_space_after (t : text) : trim (t ++ [32%N]) = trim t.
Proof.
  unfold trim. destruct (trim_start_space t) as [H | H]; rewrite H.
  - now rewrite (trim_start_nil t H).
  - rewrite rev_app_distr. reflexivity.
Qed.

Lemma trim_space_before (t : text) : trim (32%N :: t) = trim t.
Proof. reflexivity. Qed.

Lemma txt_line_entry (e : ExportEntry) :
  txt_clean e ->
  entry_of_fields (map trim (split 61 (txt_line e))) = kept trim e.
Proof.
  intros (Hk & _ & Hv & _). unfold txt_line.
  change (x_key e ++ str " = " ++ toString (x_value e))
    with (x_key e ++ 32%N :: 61%N :: 32%N :: toString (x_value e)).
  replace (x_key e ++ 32%N :: 61%N :: 32%N :: toString (x_value e))
    with ((x_key e ++ [32%N]) ++ 61%N :: 32%N :: toString (x_value e))
    by now rewrite <- app_assoc.
  rewrite split_app
    by (apply free_of_app; [exact Hk | apply free_of_closed; reflexivity]).
  rewrite split_free by (apply free_of_cons; [discriminate | exact Hv]).
  cbn [map entry_of_fields].
  now rewrite trim_space_after, trim_space_before.
Qed.

Lemma txt_line_free (e : ExportEntry) : txt_clean e -> free_of 10 (txt_line e).
Proof.
  intros (_ & Hk & _ & Hv). unfold txt_line.
  apply free_of_app; [exact Hk|].
  apply free_of_app; [apply free_of_closed; reflexivity | exact Hv].
Qed.

Lemma parse_export_txt (entries : list ExportEntry) :
  entries <> [] -> Forall txt_clean entries ->
  parse_txt (export_txt entries) = map Some (map (kept trim) entries).
Proof.
  intros Hne H. unfold parse_txt, export_txt.
  destruct entries as [|e0 entries]; [congruence|].
  cbn [map]. rewrite split_join.
  - cbn [map]. f_equal.
    + f_equal. apply txt_line_entry. now inversion H.
    + rewrite !map_map. apply map_ext_in. intros e He. f_equal.
      apply txt_line_entry. inversion H as [|? ? _ Ht]; subst.
      rewrite Forall_forall in Ht. now apply Ht.
  - change (txt_line e0 :: map txt_line entries)
      with (map txt_line (e0 :: entries)).
    apply Forall_forall. intros l Hl. apply in_map_iff in Hl as (e & <- & He).
    apply txt_line_free. rewrite Forall_forall in H. now apply H.
Qed.

Section DelimitedFacts.

Variable JSON_parse : text -> Parsed.
Variable JSON_stringify : bool -> list ExportEntry -> text.

Lemma import_csv_entries (now : Z) (data : text) (es : list ImportEntry)
  (s : State) :
  parse_csv data = map Some es ->
  import JSON_parse now data (str "csv") s
  = (ImportOk (length (filter entry_applies es)) (length es),
     put_entries now es s).
Proof.
  intro H. unfold import.
  change (text_eqb (str "csv") (str "json")) with false.
  change (text_eqb (str "csv") (str "csv")) with true. cbv iota.
  rewrite H, import_loop_records, length_map. reflexivity.
Qed.

Lemma import_txt_entries (now : Z) (data : text) (es : list ImportEntry)
  (s : State) :
  parse_txt data = map Some es ->
  import JSON_parse now data (str "txt") s
  = (ImportOk (length (filter entry_applies es)) (length es),
     put_entries now es s).
Proof.
  intro H. unfold import.
  change (text_eqb (str "txt") (str "json")) with false.
  change (text_eqb (str "txt") (str "csv")) with false.
  change (text_eqb (str "txt") (str "txt")) with true. cbv iota.
  rewrite H, import_loop_records, length_map. reflexivity.
Qed.

(** X26.  A CSV export reads back as its keys and the texts of its
    values: when no key and no value of the store has a comma or a line
    feed, and the numbers that the export prints are safe integers,
    [import] of what [export] wrote puts, in order, every entry whose key
    and value text are not empty, under its key and with the text of its
    decoded value, without time to live and unencrypted, and counts every
    entry in [total]. *)
Theorem csv_export_import (t now : Z) (source s : State)
  (entries : list ExportEntry) :
  getAllEntries t source = Ret entries ->
  Forall csv_clean entries -> Forall numbers_safe entries ->
  exists data,
    export JSON_stringify t (str "csv") source = Ret data
    /\ parse_csv data = map Some (map (kept (fun x => x)) entries)
    /\ import JSON_parse now data (str "csv") s
       = (ImportOk
            (length (filter entry_applies (map (kept (fun x => x)) entries)))
            (length entries),
          put_entries now (map (kept (fun x => x)) entries) s).
Proof.
  intros Hall Hclean _. exists (export_csv entries).
  pose proof (parse_export_csv entries Hclean) as Hp.
  split; [|split; [exact Hp|]].
  - unfold export. now rewrite Hall.
  - rewrite (import_csv_entries now _ _ s Hp). now rewrite length_map.
Qed.

(** X27.  A text export reads back as its trimmed keys and the trimmed
    texts of its values: when the store is not empty, no key and no
    value has an equals sign or a line feed, and the values that are
    numbers are safe integers, [import] of what [export] wrote puts, in
    order, every entry whose trimmed key and trimmed value text are not
    empty, and counts every entry in [total]. *)
Theorem txt_export_import (t now : Z) (source s : State)
  (entries : list ExportEntry) :
  getAllEntries t source = Ret entries ->
  entries <> [] -> Forall txt_clean entries ->
  Forall (fun e => safe_value (x_value e)) entries ->
  exists data,
    export JSON_stringify t (str "txt") source = Ret data
    /\ parse_txt data = map Some (map (kept trim) entries)
    /\ import JSON_parse now data (str "txt") s
       = (ImportOk
            (length (filter entry_applies (map (kept trim) entries)))
            (length entries),
          put_entries now (map (kept trim) entries) s).
Proof.
  intros Hall Hne Hclean _. exists (export_txt entries).
  pose proof (parse_export_txt entries Hne Hclean) as Hp.
  split; [|split; [exact Hp|]].
  - unfold export. now rewrite Hall.
  - rewrite (import_txt_entries now _ _ s Hp). now rewrite length_map.
Qed.

(** X28.  An import of delimited text never fails: for the formats csv
    and txt, whatever the text, [import] returns a count of imported
    entries that is at most the total, which is the number of lines (of
    lines after the first, for csv). *)
Theorem delimited_import_returns (now : Z) (data : text) (s : State) :
  (exists n s',
     import JSON_parse now data (str "csv") s
     = (ImportOk n (length (split 10 data) - 1), s')
     /\ n <= length (split 10 data) - 1)
  /\ (exists n s',
        import JSON_parse now data (str "txt") s
        = (ImportOk n (length (split 10 data)), s')
        /\ n <= length (split 10 data)).
Proof.
  split.
  - pose proof
      (import_csv_entries now data
         (map (fun line =>
                 entry_of_fields
                   (map (fun f => strip_quotes (trim f)) (split 44 line)))
            (skipn 1 (split 10 data))) s) as H.
    rewrite map_map in H. specialize (H eq_refl).
    rewrite length_map, length_skipn in H.
    eexists. eexists. split; [exact H|].
    etransitivity; [apply filter_length_le|].
    rewrite length_map, length_skipn. lia.
  - pose proof
      (import_txt_entries now data
         (map (fun line => entry_of_fields (map trim (split 61 line)))
            (split 10 data)) s) as H.
    rewrite map_map in H. specialize (H eq_refl).
    rewrite length_map in H.
    eexists. eexists. split; [exact H|].
    etransitivity; [apply filter_length_le|].
    rewrite length_map. lia.
Qed.

End DelimitedFacts.

Lemma csv_export_import_witness :
  exists data,
    export (fun _ _ => []) 10 (str "csv") export_sample = Ret data
    /\ fst (import json_reader 20 data (str "csv") empty_state)
       = ImportOk 3 3
    /\ fst (get 21 (str " a ")
              (snd (import json_reader 20 data (str "csv") empty_state)))
       = Ret (VStr (str "x y"))
    /\ fst (get 21 (str "n")
              (snd (import json_reader 20 data (str "csv") empty_state)))
       = Ret (VStr (str "7"))
    /\ fst (get 100000 (str "s")
              (snd (import json_reader 20 data (str "csv") empty_state)))
       = Ret (VStr (str "pw"))
    /\ encryptedKeys
         (snd (import json_reader 20 data (str "csv") empty_state)) = [].
Proof.
  destruct (csv_export_import json_reader (fun _ _ => []) 10 20
              export_sample empty_state
              [ {| x_key := str " a "; x_value := VStr (str "x y");
                   x_timestamp := 1; x_encrypted := false; x_ttl := None |};
                {| x_key := str "n"; x_value := VNum 7;
                   x_timestamp := 2; x_encrypted := false;
                   x_ttl := Some 59%Z |};
                {| x_key := str "s"; x_value := VStr (str "pw");
                   x_timestamp := 3; x_encrypted := true; x_ttl := None |} ])
    as (data & Hex & _ & Him).
  - reflexivity.
  - repeat constructor; apply free_of_closed; reflexivity.
  - repeat constructor; cbn; unfold safe_integer; lia.
  - exists data. split; [exact Hex|]. rewrite Him. repeat split.
Defined.

Lemma txt_export_import_witness :
  exists data,
    export (fun _ _ => []) 10 (str "txt") export_sample = Ret data
    /\ fst (import json_reader 20 data (str "txt") empty_state)
       = ImportOk 3 3
    /\ JsMap.keys
         (store (snd (import json_reader 20 data (str "txt") empty_state)))
       = [str "a"; str "n"; str "s"].
Proof.
  destruct (txt_export_import json_reader (fun _ _ => []) 10 20
              export_sample empty_state
              [ {| x_key := str " a "; x_value := VStr (str "x y");
                   x_timestamp := 1; x_encrypted := false; x_ttl := None |};
                {| x_key := str "n"; x_value := VNum 7;
                   x_timestamp := 2; x_encrypted := false;
                   x_ttl := Some 59%Z |};
                {| x_key := str "s"; x_value := VStr (str "pw");
                   x_timestamp := 3; x_encrypted := true; x_ttl := None |} ])
    as (data & Hex & _ & Him).
  - reflexivity.
  - discriminate.
  - repeat constructor; apply free_of_closed; reflexivity.
  - repeat constructor; cbn; unfold safe_integer; lia.
  - exists data. split; [exact Hex|]. rewrite Him. repeat split.
Defined.

(** The text export of an empty store is the empty text, which reads back
    as one line without a key: nothing is imported of a total of one. *)
Example txt_export_of_empty_store :
  export (fun _ _ => []) 0 (str "txt") empty_state = Ret []
  /\ fst (import json_reader 0 [] (str "txt") empty_state) = ImportOk 0 1.
Proof. split; reflexivity. Qed.

(** ** What [getAllEntries] lists *)

Lemma export_entries_keys (t : Z) (m : list (text * Entry))
  (entries : list ExportEntry) :
  export_entries t m = Ret entries ->
  map x_key entries = JsMap.keys m
  /\ forall k e, In (k, e) m ->
       exists x, In x entries /\ x_key x = k
                 /\ processValue (value e) e = Ret (x_value x)
                 /\ x_encrypted x = encrypted e
                 /\ x_ttl x = remaining_ttl t e.
Proof.
  revert entries. induction m as [|[k0 e0] m IH]; intros entries;
    cbn [export_entries].
  - intros [= <-]. split; [reflexivity | contradiction].
  - destruct (processValue (value e0) e0) as [v0|] eqn:E0; [|discriminate].
    destruct (export_entries t m) as [l|]; [|discriminate].
    intros [= <-]. destruct (IH l eq_refl) as [Hk Hin]. split.
    + cbn. now rewrite Hk.
    + intros k e [[= -> ->] | H].
      * eexists. split; [now left|]. cbn. auto.
      * destruct (Hin k e H) as (x & Hx & Hrest).
        exists x. split; [now right | exact Hrest].
Qed.

Lemma remaining_ttl_expired (t : Z) (e : Entry) :
  expired e t = true -> remaining_ttl t e = Some 0%Z.
Proof.
  unfold expired, remaining_ttl. destruct (expiry e) as [x|]; [|discriminate].
  intro H. apply andb_true_iff in H as [H1 H2].
  apply negb_true_iff in H1. rewrite H1. apply Z.ltb_lt in H2.
  f_equal. apply Z.max_l.
  assert ((x - t) / 1000 < 0)%Z by (apply Z.div_lt_upper_bound; lia).
  lia.
Qed.

Lemma remaining_ttl_nonneg (t : Z) (e : Entry) (r : Z) :
  remaining_ttl t e = Some r -> (0 <= r)%Z.
Proof.
  unfold remaining_ttl. destruct (expiry e) as [x|]; [|discriminate].
  destruct (x =? 0)%Z; [discriminate|]. intros [= <-]. lia.
Qed.

(** X29.  [getAllEntries] lists every entry of the store, in the order
    of insertion, with its decoded value in the clear even when it is
    stored encrypted, and does not look at the expiry: an entry that has
    expired, which [get] reports as absent, is listed with a time to live
    of 0, and no listed time to live is negative. *)
Theorem getAllEntries_lists_store (t : Z) (s : State)
  (entries : list ExportEntry) :
  getAllEntries t s = Ret entries ->
  map x_key entries = JsMap.keys (store s)
  /\ Forall (fun x => forall r, x_ttl x = Some r -> (0 <= r)%Z) entries
  /\ forall k e, JsMap.get k (store s) = Some e ->
       exists x, In x entries /\ x_key x = k
                 /\ processValue (value e) e = Ret (x_value x)
                 /\ (expired e t = true -> x_ttl x = Some 0%Z).
Proof.
  unfold getAllEntries. intro H.
  destruct (export_entries_keys t _ _ H) as [Hk Hin].
  split; [exact Hk|]. split.
  - clear Hk Hin. revert entries H.
    induction (store s) as [|[k0 e0] m IH]; intros entries;
      cbn [export_entries].
    + intros [= <-]. constructor.
    + destruct (processValue (value e0) e0); [|discriminate].
      destruct (export_entries t m) as [l|]; [|discriminate].
      intros [= <-]. constructor; [|now apply IH].
      cbn. intros r. apply remaining_ttl_nonneg.
  - intros k e Hg. destruct (Hin k e (get_In k e _ Hg))
      as (x & Hx & Hkey & Hv & _ & Httl).
    exists x. repeat split; auto.
    intro He. rewrite Httl. now apply remaining_ttl_expired.
Qed.

Lemma getAllEntries_lists_store_witness :
  exists x,
    In x [ {| x_key := str "k"; x_value := VStr (str "pw");
              x_timestamp := 0; x_encrypted := true; x_ttl := Some 0%Z |} ]
    /\ x_key x = str "k"
    /\ x_value x = VStr (str "pw")
    /\ x_ttl x = Some 0%Z.
Proof.
  destruct (getAllEntries_lists_store 5000
              (snd (put 0 (str "k") (VStr (str "pw"))
                      {| opt_ttl := Some 1%Z; opt_encrypted := true;
                         opt_compress := false |} empty_state))
              [ {| x_key := str "k"; x_value := VStr (str "pw");
                   x_timestamp := 0; x_encrypted := true;
                   x_ttl := Some 0%Z |} ] eq_refl)
    as (_ & _ & H).
  destruct (H (str "k") _ eq_refl) as (x & Hin & Hk & Hv & Ht).
  exists x. repeat split; auto.
  destruct Hin as [<- | []]. reflexivity.
Defined.
